(** * The content-collection transforms of the blog, embedded in Rocq

    The development follows [apps/web/content-collections.ts] (the [docs]
    and [blogs] collections, their tree-rewriting visitors and their
    derived fields), [src/lib/core/utils/rehype-npm-command.ts] and the
    static authors table of [src/config/blog.ts].

    JavaScript strings are sequences of UTF-16 code units; they are
    modelled as lists of [N], so that the whitespace class of [trim] and
    of the regular expression [\s] can be written out as the language
    defines it.  Objects used as maps (the [properties] of a tree node,
    the fields a pass adds to a node, a localized bio) are finite maps. *)

From Stdlib Require Import ZArith NArith QArith Qround Lia.
From stdpp Require Import gmap strings list.

Local Open Scope string_scope.
Local Open Scope list_scope.

(** ** JavaScript strings *)

Module JS.

Definition jsstring : Type := list N.

(** An ASCII literal of the source as a list of code units. *)
Definition js (s : string) : jsstring :=
  map Ascii.N_of_ascii (String.list_ascii_of_string s).

Definition slash : N := 47.
Definition backslash : N := 92.

(** [WhiteSpace] and [LineTerminator] of ECMAScript: the characters that
    [String.prototype.trim] strips and that [\s] matches. *)
Definition is_space (c : N) : bool :=
  ((9 <=? c) && (c <=? 13) || (c =? 32) || (c =? 160) || (c =? 5760)
   || (8192 <=? c) && (c <=? 8202)
   || (c =? 8232) || (c =? 8233) || (c =? 8239) || (c =? 8287)
   || (c =? 12288) || (c =? 65279))%N.

(** [s.startsWith(p)] *)
Fixpoint startsWith (s p : jsstring) {struct p} : bool :=
  match p, s with
  | [], _ => true
  | _ :: _, [] => false
  | a :: p', b :: s' => (a =? b)%N && startsWith s' p'
  end.

(** [s.replace(pat, rep)] for a string pattern [pat] and a replacement
    without [$]: the first occurrence of [pat], searched from the left,
    is replaced; a string without occurrence is returned as it is. *)
Fixpoint replace (s pat rep : jsstring) : jsstring :=
  if startsWith s pat then rep ++ drop (length pat) s
  else match s with
       | [] => []
       | c :: s' => c :: replace s' pat rep
       end.

(** [s.replace(/\\/g, "/")]: every backslash becomes a slash. *)
Definition replace_backslashes (s : jsstring) : jsstring :=
  map (fun c => if (c =? backslash)%N then slash else c) s.

(** [s.replace(/<lit>$/, rep)] for a literal [lit]: without the [m] flag
    [$] is the end of the input, so the leftmost match is the first
    position from which the rest of the string is exactly [lit]. *)
Fixpoint replace_at_end (s lit rep : jsstring) : jsstring :=
  if bool_decide (s = lit) then rep
  else match s with
       | [] => []
       | c :: s' => c :: replace_at_end s' lit rep
       end.

(** [s.replace(/^<lit>$/, rep)]: the whole input has to be [lit]. *)
Definition replace_whole (s lit rep : jsstring) : jsstring :=
  if bool_decide (s = lit) then rep else s.

(** [s.split(sep)] for a separator of one code unit. *)
Fixpoint split (s : jsstring) (sep : N) : list jsstring :=
  match s with
  | [] => [[]]
  | c :: s' =>
      if (c =? sep)%N then [] :: split s' sep
      else match split s' sep with
           | [] => [[c]]
           | w :: ws => (c :: w) :: ws
           end
  end.

(** [parts.join(sep)] *)
Fixpoint join (parts : list jsstring) (sep : N) : jsstring :=
  match parts with
  | [] => []
  | [w] => w
  | w :: ws => w ++ sep :: join ws sep
  end.

(** [s.trimStart()], [s.trimEnd()] and [s.trim()] *)
Fixpoint trimStart (s : jsstring) : jsstring :=
  match s with
  | [] => []
  | c :: s' => if is_space c then trimStart s' else s
  end.

Fixpoint trimEnd (s : jsstring) : jsstring :=
  match s with
  | [] => []
  | c :: s' =>
      match trimEnd s' with
      | [] => if is_space c then [] else [c]
      | t => c :: t
      end
  end.

Definition trim (s : jsstring) : jsstring := trimEnd (trimStart s).

(** [s.split(/\s+/)].  The matcher is tried at every position after the
    end of the last separator; a match takes the whole run of white
    space, the text before it (possibly empty) is pushed, and the text
    after the last separator (possibly empty) is pushed at the end.
    [in_sep] tells that the previous code unit belonged to a separator,
    [cur] is the piece being collected. *)
Fixpoint split_spaces_from (in_sep : bool) (cur s : jsstring) : list jsstring :=
  match s with
  | [] => [cur]
  | c :: s' =>
      if is_space c then
        if in_sep then split_spaces_from true [] s'
        else cur :: split_spaces_from true [] s'
      else split_spaces_from false (cur ++ [c]) s'
  end.

Definition split_spaces (s : jsstring) : list jsstring :=
  split_spaces_from false [] s.

(** [Math.ceil(n / d)] for a length [n] and a positive constant [d].  The
    quotient is taken in the rationals: for the lengths a string can
    have (below 2^53) the double-precision quotient has the same
    ceiling. *)
Definition ceil_quotient (n : nat) (d : positive) : Z :=
  Qceiling (Z.of_nat n # d).

(** Truthiness of a string: only the empty string is falsy. *)
Definition truthy (s : jsstring) : bool :=
  match s with [] => false | _ => true end.

End JS.

Import JS.

(** ** Tree nodes and the visitors of the rewriting passes *)

Module Tree.

(** Values held by the [properties] of an element and by the fields a
    pass adds to a node object. *)
Inductive jsval :=
| VUndefined
| VBool (b : bool)
| VString (s : jsstring)
| VStrings (l : list jsstring).

#[global] Instance jsval_eq_dec : EqDecision jsval.
Proof. solve_decision. Defined.

(** [!!v] *)
Definition val_truthy (v : jsval) : bool :=
  match v with
  | VUndefined => false
  | VBool b => b
  | VString s => truthy s
  | VStrings _ => true
  end.

(** [obj.key] on an object used as a map: a missing key reads as
    [undefined]. *)
Definition get (m : gmap string jsval) (k : string) : jsval :=
  default VUndefined (m !! k).

(** A node of the syntax tree.  An element carries its [properties] and,
    next to them, the fields that the passes write on the node object
    itself ([node.__rawString__], [node.__src__], [node.__style__]).
    The parser gives every element a [properties] object and a
    [children] array.  [Other] stands for the nodes that are neither
    text nor element nor root (comments, embedded expressions); they have
    no [tagName]. *)
#[warnings="-register-all"]
Inductive node :=
| Text (value : jsstring)
| Element (tagName : jsstring) (properties fields : gmap string jsval)
          (children : list node)
| Root (children : list node)
| Other (type : jsstring) (value : option jsstring).

(** [n?.tagName] *)
Definition tagName_of (n : node) : option jsstring :=
  match n with
  | Element t _ _ _ => Some t
  | _ => None
  end.

(** [n.properties] of an element; other nodes have none. *)
Definition properties_of (n : node) : gmap string jsval :=
  match n with
  | Element _ props _ _ => props
  | _ => ∅
  end.

(** [n?.value] *)
Definition value_of (n : node) : jsval :=
  match n with
  | Text v => VString v
  | Other _ (Some v) => VString v
  | _ => VUndefined
  end.

(** [codeEl.children?.[0]?.value] *)
Definition first_child_value (codeEl : node) : jsval :=
  match codeEl with
  | Element _ _ _ (c :: _) => value_of c
  | _ => VUndefined
  end.

(** The visitor of the raw-capture pass, run before the highlighter.
    [None] is the [TypeError] of reading [codeEl.tagName] when the [pre]
    has no child. *)
Definition capture_visitor (n : node) : option node :=
  match n with
  | Element tag props fields children =>
      if bool_decide (tag = js "pre") then
        match children with
        | [] => None
        | codeEl :: _ =>
            if bool_decide (tagName_of codeEl = Some (js "code")) then
              let fields1 := <["__rawString__" := first_child_value codeEl]> fields in
              let fields2 := <["__src__" := get props "__src__"]> fields1 in
              let fields3 := <["__style__" := get props "__style__"]> fields2 in
              Some (Element tag props fields3 children)
            else Some n
        end
      else Some n
  | _ => Some n
  end.

(** The visitor of the metadata-hoist pass, run after the highlighter.
    It is called on the parent and writes into the [properties] of the
    parent's last child; the returned node is the parent with that child
    updated. *)
Definition hoist_visitor (n : node) : node :=
  match n with
  | Element tag props fields children =>
      if truthy tag then
        match last children with
        | Some (Element ptag pprops pfields pchildren) =>
            if bool_decide (ptag = js "pre") then
              let p1 :=
                <["__withMeta__" :=
                    VBool (bool_decide (head children ≫= tagName_of = Some (js "div")))]>
                  pprops in
              let p2 := <["__rawString__" := get fields "__rawString__"]> p1 in
              let p3 :=
                if val_truthy (get fields "__src__")
                then <["__src__" := get fields "__src__"]> p2 else p2 in
              let p4 :=
                if val_truthy (get fields "__style__")
                then <["__style__" := get fields "__style__"]> p3 else p3 in
              Element tag props fields
                (<[pred (length children) := Element ptag p4 pfields pchildren]> children)
            else n
        | _ => n
        end
      else n
  | _ => n
  end.

(** [v?.startsWith(p)]: [undefined] short-circuits to a falsy value, a
    string answers, any other value has no [startsWith] method and the
    call throws ([None]). *)
Definition startsWith_opt (v : jsval) (p : jsstring) : option bool :=
  match v with
  | VUndefined => Some false
  | VString s => Some (startsWith s p)
  | _ => None
  end.

(** [v.replace(pat, rep)] on a value that passed [startsWith_opt]. *)
Definition replace_val (v : jsval) (pat rep : jsstring) : jsval :=
  match v with
  | VString s => VString (replace s pat rep)
  | _ => v
  end.

(** The three tests of [rehypeNpmCommand] on
    [node.properties.__rawString__], each writing four properties when
    it succeeds. *)
Definition npm_install_step (props : gmap string jsval) : option (gmap string jsval) :=
  b ← startsWith_opt (get props "__rawString__") (js "npm i");
  if b : bool then
    let npmCommand := get props "__rawString__" in
    Some (<["__bunCommand__" := replace_val npmCommand (js "npm i") (js "bun add")]>
            (<["__pnpmCommand__" := replace_val npmCommand (js "npm i") (js "pnpm add")]>
               (<["__yarnCommand__" := replace_val npmCommand (js "npm i") (js "yarn add")]>
                  (<["__npmCommand__" := npmCommand]> props))))
  else Some props.

Definition npx_create_step (props : gmap string jsval) : option (gmap string jsval) :=
  b ← startsWith_opt (get props "__rawString__") (js "npx create-");
  if b : bool then
    let npmCommand := get props "__rawString__" in
    Some (<["__bunCommand__" := replace_val npmCommand (js "npx") (js "bunx --bun")]>
            (<["__pnpmCommand__" := replace_val npmCommand (js "npx create-") (js "pnpm create ")]>
               (<["__yarnCommand__" := replace_val npmCommand (js "npx create-") (js "yarn create ")]>
                  (<["__npmCommand__" := npmCommand]> props))))
  else Some props.

Definition npx_step (props : gmap string jsval) : option (gmap string jsval) :=
  b ← startsWith_opt (get props "__rawString__") (js "npx");
  c ← (if b : bool
       then startsWith_opt (get props "__rawString__") (js "npx create-")
       else Some true);
  if b && negb c then
    let npmCommand := get props "__rawString__" in
    Some (<["__bunCommand__" := replace_val npmCommand (js "npx") (js "bunx --bun")]>
            (<["__pnpmCommand__" := replace_val npmCommand (js "npx") (js "pnpm dlx")]>
               (<["__yarnCommand__" := npmCommand]>
                  (<["__npmCommand__" := npmCommand]> props))))
  else Some props.

(** The visitor of [rehypeNpmCommand]: on a [pre] element the three
    tests run in sequence on the same [properties] object. *)
Definition rehypeNpmCommand_visitor (n : node) : option node :=
  match n with
  | Element tag props fields children =>
      if bool_decide (tag = js "pre") then
        props1 ← npm_install_step props;
        props2 ← npx_create_step props1;
        props3 ← npx_step props2;
        Some (Element tag props3 fields children)
      else Some n
  | _ => Some n
  end.

(** [n.children] of a node that has children. *)
Definition children_of (n : node) : list node :=
  match n with
  | Element _ _ _ cs => cs
  | Root cs => cs
  | _ => []
  end.

Definition with_children (n : node) (cs : list node) : node :=
  match n with
  | Element t props fields _ => Element t props fields cs
  | Root _ => Root cs
  | _ => n
  end.

(** The number of levels of a tree. *)
Fixpoint depth (n : node) : nat :=
  match n with
  | Element _ _ _ cs => S (foldr (fun c d => Nat.max (depth c) d) 0 cs)
  | Root cs => S (foldr (fun c d => Nat.max (depth c) d) 0 cs)
  | _ => 0
  end.

(** [visit(tree, visitor)] for a visitor that returns nothing: the
    visitor is called on the node, and then the children of the node, as
    they are after that call, are visited from the first to the last.
    The visitor changes the node object, and possibly nodes below it, in
    place; here it returns the node after the change, or [None] when it
    throws.  [fuel] bounds the number of levels. *)
Fixpoint visit (fuel : nat) (visitor : node -> option node) (n : node) : option node :=
  match fuel with
  | 0 => None
  | S fuel' =>
      n' ← visitor n;
      cs ← mapM (visit fuel' visitor) (children_of n');
      Some (with_children n' cs)
  end.

(** The three passes of the collections on a whole tree. *)
Definition raw_capture_pass (tree : node) : option node :=
  visit (S (depth tree)) capture_visitor tree.

Definition metadata_hoist_pass (tree : node) : option node :=
  visit (S (depth tree)) (fun n => Some (hoist_visitor n)) tree.

Definition rehypeNpmCommand (tree : node) : option node :=
  visit (S (depth tree)) rehypeNpmCommand_visitor tree.

(** The node reached from [n] by the child indices [position]. *)
Fixpoint node_at (position : list nat) (n : node) : option node :=
  match position with
  | [] => Some n
  | i :: rest => children_of n !! i ≫= node_at rest
  end.

End Tree.

Import Tree.

(** ** The collection framework's view of a source file *)

Module Source.

(** The [_meta] object of a document. *)
Record meta := {
  filePath : jsstring;
  fileName : jsstring;
  directory : jsstring;
  extension : jsstring;
  path : jsstring
}.

(** A collection as it is declared with [defineCollection]. *)
Record collection := {
  name : jsstring;
  collection_directory : jsstring;
  include : jsstring
}.

Definition docs_collection : collection :=
  {| name := js "docs"; collection_directory := js "../content/docs";
     include := js "**/*.mdx" |}.

Definition blogs_collection : collection :=
  {| name := js "blogs"; collection_directory := js "../content/blog";
     include := js "**/*.mdx" |}.

(** [s] without the prefix [p], when it has it. *)
Definition strip_prefix (p s : jsstring) : option jsstring :=
  if startsWith s p then Some (drop (length p) s) else None.

(** Modelled from the spec: the [_meta] record is filled in by the
    collection framework, which is not part of the sources.  The spec's
    data model gives a document a [path] that is its relative,
    locale-qualified location (as [vi/getting-started]): the location of
    the file inside the collection's directory, without the extension.
    [location] is written from the place the collection's [directory] is
    written from. *)
Definition meta_of_file (c : collection) (location : jsstring) : option meta :=
  rel ← strip_prefix (collection_directory c ++ [slash]) location;
  let segments := split rel slash in
  let file := default [] (last segments) in
  let ext := default [] (last (split file 46%N)) in
  Some {| filePath := rel;
          fileName := file;
          directory := if bool_decide (length segments = 1%nat) then js "."
                       else join (removelast segments) slash;
          extension := ext;
          path := take (length rel - length ext - 1) rel |}.

End Source.

(** ** The static authors table ([src/config/blog.ts]) *)

Module Config.

Record author_entry := {
  id : jsstring;
  name : jsstring;
  image : jsstring;
  site : jsstring;
  email : jsstring;
  bio : option (gmap jsstring jsstring);
  social : gmap string jsstring
}.

Definition huynhsang : author_entry :=
  {| id := js "huynhsang";
     name := js "Hu" ++ [0x1EF3%N] ++ js "nh Sang";
     image := js "/authors/huynhsang.jpg";
     site := js "https://github.com/HuynhSang2005";
     email := js "huynhsang2005@example.com";
     bio := Some {[ js "vi" :=
              js "L" ++ [0x1EAD%N] ++ js "p tr" ++ [0xEC%N] ++ js "nh vi"
              ++ [0xEA%N] ++ js "n | Ng" ++ [0x1B0%N; 0x1EDD%N] ++ js "i y"
              ++ [0xEA%N] ++ js "u c" ++ [0xF4%N] ++ js "ng ngh" ++ [0x1EC7%N]
              ++ js " | Blogger" ]};
     social := {[ "github" := js "HuynhSang2005"; "twitter" := js "@huynhsang";
                  "youtube" := js "huynhsang"; "linkedin" := js "huynhsang" ]} |}.

(** [blogConfig.authors] *)
Definition authors : list author_entry := [huynhsang].

End Config.

(** ** The docs collection *)

Module Docs.

Record link_set := {
  link_doc : option jsstring;
  link_blog : option jsstring;
  link_api : option jsstring;
  link_source : option jsstring
}.

(** A validated document of the collection: the schema's fields, the
    body and [_meta]. *)
Record document := {
  title : jsstring;
  description : option jsstring;
  links : option link_set;
  toc : bool;
  content : jsstring;
  _meta : Source.meta
}.

Record raw := {
  sourceFilePath : jsstring;
  sourceFileName : jsstring;
  sourceFileDir : jsstring;
  flattenedPath : jsstring;
  contentType : jsstring
}.

(** The record returned by [transform]; [source] is the spread [...doc],
    [body_raw] and [body_code] are the two fields of [body]. *)
Record compiled := {
  source : document;
  mdx : jsstring;
  slug : jsstring;
  slugAsParams : jsstring;
  _id : jsstring;
  _raw : raw;
  body_raw : jsstring;
  body_code : jsstring
}.

(** [normalizedPath.split("/")[0]] *)
Definition first_segment (normalizedPath : jsstring) : jsstring :=
  default [] (head (split normalizedPath slash)).

(** The part of [transform] that follows the compilation of the body;
    [code] is the string [compileMDX] returned. *)
Definition transform (doc : document) (code : jsstring) : compiled :=
  let normalizedPath := replace_backslashes (Source.path (_meta doc)) in
  let cleanPath :=
    replace_whole (replace_at_end normalizedPath (js "/index") []) (js "index") [] in
  let slugAsParams :=
    if truthy cleanPath then cleanPath else first_segment normalizedPath in
  {| source := doc;
     mdx := code;
     slug := if truthy cleanPath then slash :: cleanPath
             else slash :: first_segment normalizedPath;
     slugAsParams := slugAsParams;
     _id := Source.filePath (_meta doc);
     _raw := {| sourceFilePath := Source.filePath (_meta doc);
                sourceFileName := Source.fileName (_meta doc);
                sourceFileDir := Source.directory (_meta doc);
                flattenedPath := normalizedPath;
                contentType := js "mdx" |};
     body_raw := content doc;
     body_code := code |}.

End Docs.

(** ** The blog collection *)

Module Blogs.

(** A validated document of the collection; [author_id] and [og_image]
    are optional in the schema. *)
Record document := {
  title : jsstring;
  excerpt : jsstring;
  date : jsstring;
  author_id : option jsstring;
  og_image : option jsstring;
  links : option Docs.link_set;
  tags : list jsstring;
  content : jsstring;
  _meta : Source.meta
}.

(** The names of the properties that every object literal inherits from
    [Object.prototype]: the ones of the language and the ones of its
    annex for web browsers, which Node has too. *)
Definition object_prototype_names : list jsstring :=
  [js "constructor"; js "hasOwnProperty"; js "isPrototypeOf";
   js "propertyIsEnumerable"; js "toLocaleString"; js "toString"; js "valueOf";
   js "__proto__"; js "__defineGetter__"; js "__defineSetter__";
   js "__lookupGetter__"; js "__lookupSetter__"].

(** What reading a property of a bio map gives, when it gives something:
    a string of the map, or the function (for [__proto__], the object)
    that the map inherits under that name. *)
Inductive bio_value :=
| BioText (s : jsstring)
| BioInherited (key : jsstring).

(** The [author] field: a partial author whose [bio] is declared a
    string, and is what the lookup in the bio map gave.  A field that is
    absent or [undefined] is [None]. *)
Record author_record := {
  id : option jsstring;
  name : option jsstring;
  image : option jsstring;
  site : option jsstring;
  email : option jsstring;
  bio : option bio_value;
  social : option (gmap string jsstring)
}.

Record compiled := {
  source : document;
  mdx : jsstring;
  slug : jsstring;
  slugAsParams : jsstring;
  readTimeInMinutes : Z;
  author : author_record;
  _id : jsstring;
  _raw : Docs.raw;
  body_raw : jsstring;
  body_code : jsstring
}.

(** The key a value is turned into when it indexes an object:
    [undefined] becomes the string "undefined". *)
Definition property_key (k : option jsstring) : jsstring :=
  match k with
  | Some s => s
  | None => js "undefined"
  end.

(** [bio[key]] on a bio map, which is an object literal whose own
    properties are the entries of [m]: the entry of [key] when the map
    has one, otherwise what the map inherits under [key], otherwise
    [undefined]. *)
Definition bio_property (m : gmap jsstring jsstring) (key : jsstring)
    : option bio_value :=
  match m !! key with
  | Some b => Some (BioText b)
  | None =>
      if bool_decide (key ∈ object_prototype_names) then Some (BioInherited key)
      else None
  end.

(** The truth value of a value read from a bio map: a string is truthy
    when it is not empty, a function and an object are. *)
Definition bio_truthy (v : bio_value) : bool :=
  match v with
  | BioText b => truthy b
  | BioInherited _ => true
  end.

(** [authorData.bio?.[locale] || authorData.bio?.vi] *)
Definition localized_bio (bio : option (gmap jsstring jsstring))
    (locale : option jsstring) : option bio_value :=
  match bio with
  | None => None
  | Some m =>
      match bio_property m (property_key locale) with
      | Some v => if bio_truthy v then Some v else bio_property m (js "vi")
      | None => bio_property m (js "vi")
      end
  end.

(** [const [, locale] = normalizedDir.split("/")] *)
Definition locale_of (doc : document) : option jsstring :=
  split (replace_backslashes (Source.directory (_meta doc))) slash !! 1%nat.

(** [blogConfig.authors.find((author) => author.id === doc.author_id)] *)
Definition find_author (authors : list Config.author_entry) (doc : document)
    : option Config.author_entry :=
  List.find (fun a => bool_decide (Some (Config.id a) = author_id doc)) authors.

(** [{ ...authorData, bio: ... }] or [{ id: doc.author_id }] *)
Definition resolve_author (authors : list Config.author_entry) (doc : document)
    : author_record :=
  match find_author authors doc with
  | Some authorData =>
      {| id := Some (Config.id authorData);
         name := Some (Config.name authorData);
         image := Some (Config.image authorData);
         site := Some (Config.site authorData);
         email := Some (Config.email authorData);
         bio := localized_bio (Config.bio authorData) (locale_of doc);
         social := Some (Config.social authorData) |}
  | None =>
      {| id := author_id doc; name := None; image := None; site := None;
         email := None; bio := None; social := None |}
  end.

(** [doc.content.trim().split(/\s+/).length] *)
Definition numberOfWords (doc : document) : nat :=
  length (split_spaces (trim (content doc))).

Definition wordsPerMinute : positive := 200.

(** The part of [transform] that follows the compilation of the body,
    over an authors table; [code] is the string [compileMDX] returned. *)
Definition transform_with (authors : list Config.author_entry)
    (doc : document) (code : jsstring) : compiled :=
  let normalizedPath := replace_backslashes (Source.path (_meta doc)) in
  let pathParts := split normalizedPath slash in
  let slugAsParams := join pathParts slash in
  let readTimeInMinutes := ceil_quotient (numberOfWords doc) wordsPerMinute in
  {| source := doc;
     mdx := code;
     slug := slash :: normalizedPath;
     slugAsParams := slugAsParams;
     readTimeInMinutes := readTimeInMinutes;
     author := resolve_author authors doc;
     _id := Source.filePath (_meta doc);
     _raw := {| Docs.sourceFilePath := Source.filePath (_meta doc);
                Docs.sourceFileName := Source.fileName (_meta doc);
                Docs.sourceFileDir := Source.directory (_meta doc);
                Docs.flattenedPath := normalizedPath;
                Docs.contentType := js "mdx" |};
     body_raw := content doc;
     body_code := code |}.

(** [transform] with the table of the configuration. *)
Definition transform : document -> jsstring -> compiled :=
  transform_with Config.authors.

End Blogs.

(** ** Notions of the specification *)

Module Spec.

(** The number of whitespace-delimited words of a text: of its maximal
    runs of code units that are not white space.  [in_word] tells that
    the previous code unit belonged to a word. *)
Fixpoint count_words_from (in_word : bool) (s : jsstring) : nat :=
  match s with
  | [] => 0
  | c :: s' =>
      if is_space c then count_words_from false s'
      else (if in_word then 0 else 1) + count_words_from true s'
  end.

Definition word_count (s : jsstring) : nat := count_words_from false s.

(** Whether a text read from a position after white space ([after_space])
    or after a word ends after white space. *)
Fixpoint ends_in_space (after_space : bool) (s : jsstring) : bool :=
  match s with
  | [] => after_space
  | c :: s' => ends_in_space (is_space c) s'
  end.

Definition bool_to_nat (b : bool) : nat := if b then 1 else 0.

(** A path whose separators are all [/]. *)
Definition canonical (p : jsstring) : Prop := backslash ∉ p.

(** The path without a last segment [index] that follows a separator. *)
Definition drop_index_segment (p : jsstring) : jsstring :=
  replace_at_end p (js "/index") [].


(** The command [s], which begins with [old], with that beginning
    replaced by [new]. *)
Definition substitute_prefix (old new s : jsstring) : jsstring :=
  new ++ drop (length old) s.

(** The four command properties on top of [props]. *)
Definition with_commands (npm yarn pnpm bun : jsstring)
    (props : gmap string jsval) : gmap string jsval :=
  <["__bunCommand__" := VString bun]>
    (<["__pnpmCommand__" := VString pnpm]>
       (<["__yarnCommand__" := VString yarn]>
          (<["__npmCommand__" := VString npm]> props))).

(** The properties of a [pre] whose raw command is [s] after the
    package-manager pass, by the prefix of [s]. *)
Definition variants (s : jsstring) (props : gmap string jsval)
    : gmap string jsval :=
  if startsWith s (js "npm i") then
    with_commands s (substitute_prefix (js "npm i") (js "yarn add") s)
      (substitute_prefix (js "npm i") (js "pnpm add") s)
      (substitute_prefix (js "npm i") (js "bun add") s) props
  else if startsWith s (js "npx create-") then
    with_commands s (substitute_prefix (js "npx create-") (js "yarn create ") s)
      (substitute_prefix (js "npx create-") (js "pnpm create ") s)
      (substitute_prefix (js "npx") (js "bunx --bun") s) props
  else if startsWith s (js "npx") then
    with_commands s s (substitute_prefix (js "npx") (js "pnpm dlx") s)
      (substitute_prefix (js "npx") (js "bunx --bun") s) props
  else props.

(** The table of the claim read as it is written: in the scaffolding
    case all three commands replace the prefix [npx create-]. *)
Definition claimed_variants (s : jsstring) (props : gmap string jsval)
    : gmap string jsval :=
  if startsWith s (js "npm i") then
    with_commands s (substitute_prefix (js "npm i") (js "yarn add") s)
      (substitute_prefix (js "npm i") (js "pnpm add") s)
      (substitute_prefix (js "npm i") (js "bun add") s) props
  else if startsWith s (js "npx create-") then
    with_commands s (substitute_prefix (js "npx create-") (js "yarn create ") s)
      (substitute_prefix (js "npx create-") (js "pnpm create ") s)
      (substitute_prefix (js "npx create-") (js "bunx --bun") s) props
  else if startsWith s (js "npx") then
    with_commands s s (substitute_prefix (js "npx") (js "pnpm dlx") s)
      (substitute_prefix (js "npx") (js "bunx --bun") s) props
  else props.

(** A visitor that leaves the children of the node alone. *)
Definition keeps_children (visitor : node -> option node) : Prop :=
  forall n n', visitor n = Some n' -> children_of n' = children_of n.

(** A node without regard to its [properties]. *)
Definition sans_properties (n : node) : node :=
  match n with
  | Element t _ fields cs => Element t ∅ fields cs
  | _ => n
  end.

(** [p] holds of the node and of every node below it. *)
Fixpoint every_node (p : node -> bool) (n : node) : bool :=
  p n && match n with
         | Element _ _ _ cs => forallb (every_node p) cs
         | Root cs => forallb (every_node p) cs
         | _ => true
         end.

(** A node on which [rehypeNpmCommand] does not throw: when it is a [pre]
    element, its raw command is absent or a string. *)
Definition raw_command_ok (n : node) : bool :=
  match n with
  | Element t props _ _ =>
      if bool_decide (t = js "pre") then
        match get props "__rawString__" with
        | VUndefined | VString _ => true
        | _ => false
        end
      else true
  | _ => true
  end.

(** A node on which the capture pass does not throw: when it is a [pre]
    element, it has a child. *)
Definition capture_ok (n : node) : bool :=
  match n with
  | Element t _ _ cs =>
      if bool_decide (t = js "pre") then
        match cs with [] => false | _ => true end
      else true
  | _ => true
  end.

End Spec.

Import Spec.

(** ** Concrete documents *)

Module Examples.

(** A docs document whose [_meta.path] is [p]. *)
Definition docs_document_at (p : jsstring) : Docs.document :=
  {| Docs.title := js "Guide"; Docs.description := None; Docs.links := None;
     Docs.toc := true; Docs.content := js "text";
     Docs._meta := {| Source.filePath := p ++ js ".mdx";
                      Source.fileName := default [] (last (split p slash)) ++ js ".mdx";
                      Source.directory := js "vi"; Source.extension := js "mdx";
                      Source.path := p |} |}.

(** The [_meta] of the blog post [content/blog/vi/my-post.mdx]. *)
Definition my_post_meta : Source.meta :=
  {| Source.filePath := js "vi/my-post.mdx"; Source.fileName := js "my-post.mdx";
     Source.directory := js "vi"; Source.extension := js "mdx";
     Source.path := js "vi/my-post" |}.

(** The blog post of the end-to-end example, over a body. *)
Definition my_post (body : jsstring) : Blogs.document :=
  {| Blogs.title := js "My Post"; Blogs.excerpt := js "...";
     Blogs.date := js "2024-01-01"; Blogs.author_id := Some (js "huynhsang");
     Blogs.og_image := None; Blogs.links := None; Blogs.tags := [js "x"];
     Blogs.content := body; Blogs._meta := my_post_meta |}.

(** A blog post with a given path, directory, author and body. *)
Definition blog_document (p dir : jsstring) (who : option jsstring)
    (body : jsstring) : Blogs.document :=
  {| Blogs.title := js "Post"; Blogs.excerpt := js "..";
     Blogs.date := js "2024-01-01"; Blogs.author_id := who;
     Blogs.og_image := None; Blogs.links := None; Blogs.tags := [];
     Blogs.content := body;
     Blogs._meta := {| Source.filePath := p ++ js ".mdx";
                       Source.fileName := default [] (last (split p slash)) ++ js ".mdx";
                       Source.directory := dir; Source.extension := js "mdx";
                       Source.path := p |} |}.



(** The post [content/blog/x/constructor/post.mdx] of the configured
    author. *)
Definition inherited_post : Blogs.document :=
  blog_document (js "x/constructor/post") (js "x/constructor")
    (Some (js "huynhsang")) (js "text").

(** A body of [k] words. *)
Definition words (k : nat) : jsstring := concat (replicate k (js "word ")).

(** A [pre] element whose raw command is [s]. *)
Definition command_block (s : jsstring) : node :=
  Element (js "pre") {[ "__rawString__" := VString s ]} ∅
    [Element (js "code") ∅ ∅ [Text s]].

(** A fenced code block as the parser gives it. *)
Definition fence (s : jsstring) : node :=
  Element (js "pre") ∅ ∅ [Element (js "code") ∅ ∅ [Text s]].

(** A document tree after the hoist pass: the [pre] of a code block,
    under its wrapper, holds the raw command [s]. *)
Definition hoisted_tree (s : jsstring) : node :=
  Root [Element (js "p") ∅ ∅ [Text (js "Run:")];
        Element (js "figure") ∅ {[ "__rawString__" := VString s ]}
          [Element (js "pre")
             {[ "__rawString__" := VString s; "__withMeta__" := VBool false ]} ∅
             [Element (js "code") ∅ ∅ [Text s]]]].

(** A parsed document with one fenced code block. *)
Definition parsed_tree (s : jsstring) : node :=
  Root [Element (js "p") ∅ ∅ [Text (js "Run:")]; fence s].

(** A document tree after the highlighter, over the fields that the node
    of the code block carried: the wrapper holds a title bar and the new
    [pre]. *)
Definition wrapped_tree (fields : gmap string jsval) : node :=
  Root [Element (js "p") ∅ ∅ [Text (js "Run:")];
        Element (js "figure") ∅ fields
          ([Element (js "div") ∅ ∅ [Text (js "terminal")]]
           ++ [Element (js "pre") ∅ ∅
                 [Element (js "code") ∅ ∅
                    [Element (js "span") ∅ ∅ [Text (js "highlighted")]]]])].

(** A document tree after the highlighter: a heading, a paragraph and a
    figure that wraps the title bar and the new [pre] of a code block
    whose node carried the raw text [s]. *)
Definition highlighted_tree (s : jsstring) : node :=
  Root [Element (js "h1") {[ "id" := VString (js "install") ]} ∅ [Text (js "Install")];
        Element (js "p") ∅ ∅ [Text (js "Run:")];
        Element (js "figure") ∅ {[ "__rawString__" := VString s ]}
          [Element (js "div") ∅ ∅ [Text (js "terminal")];
           Element (js "pre") ∅ ∅
             [Element (js "code") ∅ ∅
                [Element (js "span") {[ "className" := VStrings [js "line"] ]} ∅
                   [Text s]]]]].

End Examples.

Import Examples.

(** ** [toKebabCase] ([src/lib/core/utils/to-kebab-case.ts]) *)

Module Kebab.

Definition hyphen : N := 45.
Definition underscore : N := 95.

(** The classes [[a-z]] and [[A-Z]] of a regular expression without the
    [i] flag. *)
Definition is_lower (c : N) : bool := ((97 <=? c) && (c <=? 122))%N.
Definition is_upper (c : N) : bool := ((65 <=? c) && (c <=? 90))%N.

(** [text.replace(/([a-z])([A-Z])/g, "$1-$2")]: the matches are taken
    from the left and do not overlap, so after a match the search goes on
    behind its second letter. *)
Fixpoint hyphenate_camel (s : jsstring) : jsstring :=
  match s with
  | [] => []
  | a :: rest =>
      match rest with
      | [] => [a]
      | b :: s' =>
          if is_lower a && is_upper b then a :: hyphen :: b :: hyphenate_camel s'
          else a :: hyphenate_camel rest
      end
  end.

(** [text.replace(/[\s_]+/g, "-")]: every run of white space and
    underscores becomes one hyphen.  [in_run] tells that the previous
    code unit belonged to a run. *)
Fixpoint collapse_separators (in_run : bool) (s : jsstring) : jsstring :=
  match s with
  | [] => []
  | c :: s' =>
      if is_space c || (c =? underscore)%N then
        if in_run then collapse_separators true s'
        else hyphen :: collapse_separators true s'
      else c :: collapse_separators false s'
  end.

Definition lower_ascii (c : N) : N := if is_upper c then (c + 32)%N else c.

Definition is_ascii (s : jsstring) : bool := forallb (fun c => (c <? 128)%N) s.

(** [text.toLowerCase()].  On a text of ASCII code units it maps [A]-[Z]
    to [a]-[z] and keeps the rest; what it does to a text with other code
    units (the case mappings of Unicode) is the parameter
    [beyond_ascii]. *)
Definition toLowerCase (beyond_ascii : jsstring -> jsstring) (s : jsstring) : jsstring :=
  if is_ascii s then map lower_ascii s else beyond_ascii s.

Definition toKebabCase (beyond_ascii : jsstring -> jsstring) (text : jsstring) : jsstring :=
  toLowerCase beyond_ascii (collapse_separators false (hyphenate_camel text)).

(** A code unit of a kebab-case text: ASCII, and neither an upper-case
    letter nor white space nor an underscore. *)
Definition kebab_unit (c : N) : Prop :=
  (c < 128)%N /\ is_upper c = false /\ is_space c = false /\ c <> underscore.

End Kebab.

(** ** [highlightServerCode] ([src/lib/core/utils/code-theme.ts]) *)

Module Escape.

Definition amp : N := 38.
Definition lt : N := 60.
Definition gt : N := 62.
Definition quot : N := 34.
Definition apos : N := 39.

(** [s.replace(/c/g, rep)] for a pattern of one literal code unit [c]. *)
Fixpoint replace_all (s : jsstring) (c : N) (rep : jsstring) : jsstring :=
  match s with
  | [] => []
  | x :: s' => (if (x =? c)%N then rep else [x]) ++ replace_all s' c rep
  end.

(** The escaped text: the five replacements in the order of the source. *)
Definition escapedCode (code : jsstring) : jsstring :=
  replace_all
    (replace_all
       (replace_all
          (replace_all (replace_all code amp (js "&amp;")) lt (js "&lt;"))
          gt (js "&gt;"))
       quot (js "&quot;"))
    apos (js "&#039;").

(** The string the promise of [highlightServerCode] resolves to; the
    theme and the language are not used. *)
Definition highlightServerCode (code : jsstring) : jsstring :=
  js "<code>" ++ escapedCode code ++ js "</code>".

(** The entity of one code unit. *)
Definition entity (c : N) : jsstring :=
  if (c =? amp)%N then js "&amp;"
  else if (c =? lt)%N then js "&lt;"
  else if (c =? gt)%N then js "&gt;"
  else if (c =? quot)%N then js "&quot;"
  else if (c =? apos)%N then js "&#039;"
  else [c].

End Escape.

(** ** The todo store ([src/lib/stores]) and the form of the demo page *)

Module Stores.

Record Todo := {
  id : jsstring;
  text : jsstring;
  completed : bool
}.

#[global] Instance Todo_eq_dec : EqDecision Todo.
Proof. solve_decision. Defined.

(** The actions of [useTodoStore] as functions of the [todos] of the
    state; [uuid] is what [crypto.randomUUID()] returns. *)
Definition addTodo (uuid text : jsstring) (todos : list Todo) : list Todo :=
  todos ++ [{| id := uuid; text := text; completed := false |}].

Definition toggleTodo (i : jsstring) (todos : list Todo) : list Todo :=
  map (fun todo =>
         if bool_decide (id todo = i)
         then {| id := id todo; text := text todo; completed := negb (completed todo) |}
         else todo)
      todos.

Definition removeTodo (i : jsstring) (todos : list Todo) : list Todo :=
  List.filter (fun todo => negb (bool_decide (id todo = i))) todos.

Definition clearCompleted (todos : list Todo) : list Todo :=
  List.filter (fun todo => negb (completed todo)) todos.

(** [handleAddTodo] of the demo page, for the text of the form field:
    the todo is added when the trimmed text is not empty. *)
Definition handleAddTodo (uuid text : jsstring) (todos : list Todo) : list Todo :=
  if truthy (trim text) then addTodo uuid text todos else todos.

End Stores.

(** ** The locale redirect ([proxy.ts]) *)

Module Proxy.

(** [i18nConfig] of the i18n package. *)
Definition locales : list jsstring := [js "en"; js "vi"].
Definition defaultLocale : jsstring := js "en".

(** [s.includes(sub)] *)
Fixpoint includes (s sub : jsstring) : bool :=
  startsWith s sub
  || match s with
     | [] => false
     | _ :: s' => includes s' sub
     end.

(** [s.endsWith(suffix)] *)
Definition endsWith (s suffix : jsstring) : bool :=
  bool_decide (drop (length s - length suffix) s = suffix).

(** [request.nextUrl], an object of the framework's class [NextURL], as
    far as [proxy] uses it: the pathname, which [proxy] reads and
    assigns, and the flag that the framework sets when it reads the URL
    of the request and consults when it writes the URL out. *)
Record NextURL := {
  pathname : jsstring;
  trailingSlash : bool
}.

(** The URL object of a request for [requested]: the flag says whether
    the pathname ends in [/]; for the pathname [/] it is the
    [trailingSlash] option of [next.config.ts], which is not set. *)
Definition nextUrl (requested : jsstring) : NextURL :=
  {| pathname := requested;
     trailingSlash := if bool_decide (requested = js "/") then false
                      else endsWith requested (js "/") |}.

(** The framework's [removeTrailingSlash]:
    the route without a final [/], and [/] when that is empty. *)
Definition removeTrailingSlash (route : jsstring) : jsstring :=
  let short := replace_at_end route (js "/") [] in
  if truthy short then short else js "/".

(** The pathname of the URL that the framework writes into the
    [Location] header for [NextResponse.redirect(url)]: with a final [/]
    when the flag is set, without one otherwise (there is no base path
    and no locale configuration of the framework in [next.config.ts]). *)
Definition location_pathname (url : NextURL) : jsstring :=
  if trailingSlash url then
    if endsWith (pathname url) (js "/") then pathname url
    else pathname url ++ js "/"
  else removeTrailingSlash (pathname url).

(** What a call of [proxy] does: it returns nothing (the request goes
    on), it returns a redirect to the same URL with another pathname, or
    it throws what [getLocale] threw. *)
Inductive response :=
| Continue
| Redirect (location : jsstring)
| Throws.

Definition is_internal (pathname : jsstring) : bool :=
  startsWith pathname (js "/_next")
  || startsWith pathname (js "/api")
  || startsWith pathname (js "/static")
  || includes pathname (js ".").

Definition pathnameHasLocale (pathname : jsstring) : bool :=
  existsb (fun locale =>
             startsWith pathname (js "/" ++ locale ++ js "/")
             || bool_decide (pathname = js "/" ++ locale))
          locales.

(** [proxy(request)] for a request whose URL has the pathname
    [requested], as the URL object gives it: percent-encoded, so that
    the assignment to [request.nextUrl.pathname] stores the string it is
    given.  [negotiated] is what [getLocale(request)] does when it is
    called: it returns the locale that the negotiation libraries choose,
    or throws with them ([None]), as they do for a list of languages
    that they cannot read.  [proxy] calls it only when the request is to
    be redirected. *)
Definition proxy (negotiated : option jsstring) (requested : jsstring) : response :=
  let url := nextUrl requested in
  if is_internal (pathname url) then Continue
  else if pathnameHasLocale (pathname url) then Continue
  else
    match negotiated with
    | None => Throws
    | Some locale =>
        Redirect (location_pathname
                    {| pathname := js "/" ++ locale ++ pathname url;
                       trailingSlash := trailingSlash url |})
    end.

End Proxy.

(** ** The compiled configuration ([.content-collections] bundle) *)

Module Bundle.

(** The slug fields of both transforms of the bundle:
    [slug: `/${doc._meta.path}`] and
    [slugAsParams = doc._meta.path.split("/").slice(1).join("/")]. *)
Definition slug (meta : Source.meta) : jsstring :=
  js "/" ++ Source.path meta.

Definition slugAsParams (meta : Source.meta) : jsstring :=
  join (drop 1 (split (Source.path meta) slash)) slash.

End Bundle.

(** ** Further notions for the passes *)

Module PassSpec.

(** [n.__rawString__] and the other fields the passes write on a node. *)
Definition fields_of (n : node) : gmap string jsval :=
  match n with
  | Element _ _ fields _ => fields
  | _ => ∅
  end.

(** The four properties the package-manager pass writes. *)
Definition command_keys : list string :=
  ["__npmCommand__"; "__yarnCommand__"; "__pnpmCommand__"; "__bunCommand__"].

(** A separator of a path before its normalization. *)
Definition is_separator (c : N) : bool := ((c =? slash) || (c =? backslash))%N.

(** The three fields the capture pass writes. *)
Definition capture_keys : list string := ["__rawString__"; "__src__"; "__style__"].

(** The four properties the hoist pass writes. *)
Definition hoist_keys : list string :=
  ["__withMeta__"; "__rawString__"; "__src__"; "__style__"].

(** The properties the hoist visitor leaves on a [pre] that had the
    properties [pprops], under a wrapper with the fields [wfields];
    [titled] tells that the first child of the wrapper is a [div]. *)
Definition hoisted (wfields : gmap string jsval) (titled : bool)
    (pprops : gmap string jsval) : gmap string jsval :=
  let p1 := <["__withMeta__" := VBool titled]> pprops in
  let p2 := <["__rawString__" := get wfields "__rawString__"]> p1 in
  let p3 :=
    if val_truthy (get wfields "__src__")
    then <["__src__" := get wfields "__src__"]> p2 else p2 in
  if val_truthy (get wfields "__style__")
  then <["__style__" := get wfields "__style__"]> p3 else p3.

(** Whether the first of the children is a [div] element. *)
Definition first_is_div (cs : list node) : bool :=
  bool_decide (head cs ≫= tagName_of = Some (js "div")).

(** What a call of the hoist visitor may do to a child of the node: it
    keeps all but the properties, keeps a child that is not a [pre]
    element, and keeps the properties it does not write. *)
Definition hoist_rel (c c' : node) : Prop :=
  sans_properties c' = sans_properties c
  /\ (tagName_of c <> Some (js "pre") -> c' = c)
  /\ (forall k, k ∉ hoist_keys -> properties_of c' !! k = properties_of c !! k).

(** Two nodes with the same tag, text and number of children. *)
Definition same_markup (n n' : node) : Prop :=
  tagName_of n' = tagName_of n /\ value_of n' = value_of n
  /\ length (children_of n') = length (children_of n).

(** A visitor that looks at the node and not at its children. *)
Definition top_local (visitor : node -> option node) : Prop :=
  forall n cs, visitor (with_children n cs) = (fun m => with_children m cs) <$> visitor n.

End PassSpec.

(** * Properties *)

(** ** Strings *)

Example split_spaces_ex1 :
  split_spaces (js "a  b c") = [js "a"; js "b"; js "c"].
Proof. reflexivity. Qed.

Example split_spaces_ex2 : split_spaces (js "") = [js ""].
Proof. reflexivity. Qed.

Example split_spaces_ex3 : split_spaces (js " a ") = [js ""; js "a"; js ""].
Proof. reflexivity. Qed.

Example trim_ex : trim ([32; 9; 160] ++ js "a b" ++ [10; 13; 8233; 65279])%N = js "a b".
Proof. reflexivity. Qed.

Example replace_ex :
  replace (js "npm install pkg") (js "npm i") (js "yarn add") = js "yarn addnstall pkg".
Proof. reflexivity. Qed.

Example replace_at_end_ex :
  replace_at_end (js "vi/guide/index") (js "/index") [] = js "vi/guide".
Proof. reflexivity. Qed.

Example split_ex : split (js "vi/guide") slash = [js "vi"; js "guide"].
Proof. reflexivity. Qed.

Example ceil_ex : ceil_quotient 401 200 = 3%Z /\ ceil_quotient 400 200 = 2%Z /\ ceil_quotient 0 200 = 0%Z.
Proof. repeat split; reflexivity. Qed.

Example split_first_segment :
  split (js "index") slash = [js "index"] /\ split [] slash = [[]]
  /\ split (js "/index") slash = [[]; js "index"].
Proof. repeat split; reflexivity. Qed.

Section StringFacts.

Implicit Types (s p r : jsstring) (c : N).

Lemma startsWith_app p r : startsWith (p ++ r) p = true.
Proof.
  induction p as [|a p IH]; simpl; [done|].
  by rewrite N.eqb_refl, IH.
Qed.

Lemma startsWith_inv s p : startsWith s p = true -> s = p ++ drop (length p) s.
Proof.
  revert s; induction p as [|a p IH]; intros [|b s]; simpl; try done.
  intros [Hab Hs]%andb_prop. apply N.eqb_eq in Hab as ->.
  f_equal. by apply IH.
Qed.

Lemma startsWith_trans s p r :
  startsWith s p = true -> startsWith p r = true -> startsWith s r = true.
Proof.
  intros Hs Hp. rewrite (startsWith_inv _ _ Hs), (startsWith_inv _ _ Hp).
  rewrite <- app_assoc. apply startsWith_app.
Qed.

Lemma replace_at_start s pat rep :
  startsWith s pat = true -> replace s pat rep = rep ++ drop (length pat) s.
Proof. intros H. destruct s; simpl; simpl in H; by rewrite H. Qed.

Lemma split_nonempty s c : split s c <> [].
Proof.
  induction s as [|a s IH]; simpl; [done|].
  destruct (a =? c)%N; [done|]. by destruct (split s c).
Qed.

Lemma join_cons_cons w v ws c : join (w :: v :: ws) c = w ++ c :: join (v :: ws) c.
Proof. reflexivity. Qed.

Lemma join_split s c : join (split s c) c = s.
Proof.
  induction s as [|a s IH]; simpl; [done|].
  pose proof (split_nonempty s c) as Hne. revert IH Hne.
  destruct (a =? c)%N eqn:E.
  - apply N.eqb_eq in E as ->.
    destruct (split s c) as [|w ws]; [done|]. intros IH _.
    rewrite join_cons_cons. cbn [app]. by rewrite IH.
  - destruct (split s c) as [|w [|v ws]]; [done| |]; intros IH _.
    + simpl in *. by rewrite IH.
    + rewrite join_cons_cons. rewrite join_cons_cons in IH. by rewrite <- IH.
Qed.

Lemma replace_backslashes_canonical s : canonical (replace_backslashes s).
Proof.
  unfold canonical, replace_backslashes. rewrite list_elem_of_fmap.
  intros (c & Hc & _). destruct (c =? backslash)%N eqn:E; [done|].
  apply N.eqb_neq in E. congruence.
Qed.

Lemma replace_backslashes_id s : canonical s -> replace_backslashes s = s.
Proof.
  unfold canonical, replace_backslashes.
  induction s as [|a s IH]; simpl; [done|].
  rewrite not_elem_of_cons. intros [Ha Hs].
  destruct (a =? backslash)%N eqn:E.
  - apply N.eqb_eq in E. congruence.
  - by rewrite IH.
Qed.

Lemma replace_at_end_app q lit rep :
  replace_at_end (q ++ lit) lit rep = q ++ rep.
Proof.
  induction q as [|a q IH]; cbn [app replace_at_end].
  - destruct lit; cbn [replace_at_end]; by rewrite bool_decide_eq_true_2.
  - rewrite bool_decide_eq_false_2.
    + by rewrite IH.
    + intros H. apply (f_equal length) in H. simpl in H.
      rewrite length_app in H. lia.
Qed.

Lemma replace_at_end_cases s lit :
  (exists q, s = q ++ lit /\ replace_at_end s lit [] = q)
  \/ ((forall q, s <> q ++ lit) /\ replace_at_end s lit [] = s).
Proof.
  induction s as [|a s IH].
  - simpl. case_bool_decide as H.
    + left. exists []. by subst.
    + right. split; [|done]. intros [|b q] Hq; simpl in *; [congruence|done].
  - cbn [replace_at_end]. case_bool_decide as H.
    + left. exists []. by subst.
    + destruct IH as [(q & -> & Hq)|[Hno Hs]].
      * left. exists (a :: q). split; [done|]. by rewrite Hq.
      * right. split; [|by rewrite Hs].
        intros [|b q] Hq; simpl in Hq; [congruence|].
        injection Hq as -> ->. by eapply Hno.
Qed.

End StringFacts.

(** ** Words, trimming and the rounded quotient *)

Section WordFacts.

Implicit Types (s cur : jsstring) (b : bool).

(** The number of pieces [split(/\s+/)] returns, from either state of the
    scan: one more than the words when the scan starts inside a word,
    and one more again when the text ends in white space. *)
Lemma split_spaces_from_length s :
  (forall cur, length (split_spaces_from false cur s)
               = count_words_from true s + 1 + bool_to_nat (ends_in_space false s))
  /\ (forall cur, length (split_spaces_from true cur s)
                  = count_words_from false s + bool_to_nat (ends_in_space true s)).
Proof.
  induction s as [|c s [IHw IHs]]; [by split|].
  split; intros cur; cbn [split_spaces_from count_words_from ends_in_space];
    destruct (is_space c); cbn [length]; rewrite ?IHw, ?IHs; simpl; lia.
Qed.

Lemma count_words_trimEnd s b :
  count_words_from b (trimEnd s) = count_words_from b s.
Proof.
  revert b; induction s as [|c s IH]; intros b; [done|].
  cbn [trimEnd]. destruct (trimEnd s) as [|d t] eqn:E.
  - cbn [count_words_from]. destruct (is_space c) eqn:Ec.
    + by rewrite <- IH.
    + cbn [count_words_from]. rewrite Ec, <- IH. done.
  - cbn [count_words_from] in *. destruct (is_space c); by rewrite <- IH.
Qed.

Lemma count_words_trimStart s :
  word_count (trimStart s) = word_count s.
Proof.
  unfold word_count. induction s as [|c s IH]; [done|].
  cbn [trimStart]. destruct (is_space c) eqn:Ec; [|done].
  cbn [count_words_from]. by rewrite Ec.
Qed.

Lemma word_count_trim s : word_count (trim s) = word_count s.
Proof.
  unfold trim, word_count. rewrite count_words_trimEnd. apply count_words_trimStart.
Qed.

Lemma ends_in_space_trimEnd s b :
  ends_in_space b (trimEnd s) = match trimEnd s with [] => b | _ => false end.
Proof.
  revert b; induction s as [|c s IH]; intros b; [done|].
  cbn [trimEnd]. specialize (IH (is_space c)). revert IH.
  destruct (trimEnd s) as [|d t]; intros IH.
  - destruct (is_space c) eqn:Ec; cbn [ends_in_space]; [done|by rewrite Ec].
  - exact IH.
Qed.

Lemma trimStart_head s :
  match trimStart s with [] => True | c :: _ => is_space c = false end.
Proof.
  induction s as [|c s IH]; [done|].
  cbn [trimStart]. by destruct (is_space c) eqn:Ec.
Qed.

Lemma trimEnd_head c s :
  is_space c = false -> exists t, trimEnd (c :: s) = c :: t.
Proof.
  intros Hc. cbn [trimEnd]. destruct (trimEnd s); rewrite ?Hc; eauto.
Qed.

(** [s.trim().split(/\s+/).length] is the number of words of [s], except
    that the empty text gives one (empty) piece. *)
Lemma split_spaces_trim_length s :
  length (split_spaces (trim s)) = Nat.max 1 (word_count s).
Proof.
  rewrite <- (word_count_trim s). unfold trim, split_spaces, word_count.
  pose proof (trimStart_head s) as Hh.
  pose proof (ends_in_space_trimEnd (trimStart s) false) as He.
  destruct (trimStart s) as [|c t]; [done|].
  destruct (trimEnd_head c t Hh) as [u Hu]. rewrite Hu in *.
  cbn [split_spaces_from count_words_from ends_in_space] in *. rewrite Hh in *.
  destruct (split_spaces_from_length u) as [-> _]. rewrite He. simpl. lia.
Qed.

Lemma ceil_quotient_eq n d :
  ceil_quotient n d = (- ((- Z.of_nat n) / Z.pos d))%Z.
Proof. reflexivity. Qed.

(** [ceil_quotient n d] is the least integer [k] with [n <= k * d]. *)
Lemma ceil_quotient_spec n d (k : Z) :
  ceil_quotient n d = k <-> ((k - 1) * Z.pos d < Z.of_nat n <= k * Z.pos d)%Z.
Proof.
  rewrite ceil_quotient_eq.
  pose proof (Z.div_mod (- Z.of_nat n) (Z.pos d) ltac:(lia)) as Hdm.
  pose proof (Z.mod_pos_bound (- Z.of_nat n) (Z.pos d) ltac:(lia)) as Hm.
  split; [intros <-; lia|]. intros [H1 H2]. nia.
Qed.

Lemma ceil_quotient_mono n m d :
  n <= m -> (ceil_quotient n d <= ceil_quotient m d)%Z.
Proof.
  intros H. rewrite !ceil_quotient_eq.
  enough ((- Z.of_nat m) / Z.pos d <= (- Z.of_nat n) / Z.pos d)%Z by lia.
  apply Z.div_le_mono; lia.
Qed.

Lemma ceil_quotient_pos n d : 1 <= n -> (1 <= ceil_quotient n d)%Z.
Proof.
  intros H. destruct (ceil_quotient_spec n d (ceil_quotient n d)) as [Hs _].
  specialize (Hs eq_refl). nia.
Qed.

End WordFacts.

(** ** Slugs *)

Section SlugFacts.

Implicit Types (p q : jsstring).

Lemma drop_index_segment_app q : drop_index_segment (q ++ js "/index") = q.
Proof. unfold drop_index_segment. by rewrite replace_at_end_app, app_nil_r. Qed.

Lemma drop_index_segment_cases p :
  (exists q, p = q ++ js "/index" /\ drop_index_segment p = q)
  \/ ((forall q, p <> q ++ js "/index") /\ drop_index_segment p = p).
Proof. apply replace_at_end_cases. Qed.

(** A path that the removal of the ending leaves alone does not have
    it. *)
Lemma not_index_ending p : drop_index_segment p = p -> forall q, p <> q ++ js "/index".
Proof.
  intros H q ->. rewrite drop_index_segment_app in H.
  apply (f_equal length) in H. rewrite length_app in H. cbn in H. lia.
Qed.

Lemma first_segment_index_index : Docs.first_segment (js "index" ++ js "/index") = js "index".
Proof. reflexivity. Qed.

(** Both slug fields of a docs document come from the normalized path
    without its [/index] ending: the second replacement and the fallback
    to the first segment undo each other. *)
Lemma docs_slug_fields (doc : Docs.document) code :
  let n := replace_backslashes (Source.path (Docs._meta doc)) in
  Docs.slugAsParams (Docs.transform doc code) = drop_index_segment n
  /\ Docs.slug (Docs.transform doc code) = slash :: drop_index_segment n.
Proof.
  cbn [Docs.transform Docs.slugAsParams Docs.slug].
  set (n := replace_backslashes _). fold (drop_index_segment n).
  unfold replace_whole.
  destruct (drop_index_segment_cases n) as [(q & Hn & ->)|[Hno ->]].
  - case_bool_decide as Hq.
    + subst q. rewrite Hn. by rewrite first_segment_index_index.
    + destruct q as [|c q]; [|done]. by rewrite Hn.
  - case_bool_decide as Hq.
    + by rewrite Hq.
    + by destruct n.
Qed.

Lemma drop_index_segment_canonical p : canonical p -> canonical (drop_index_segment p).
Proof.
  unfold canonical. intros Hp.
  destruct (drop_index_segment_cases p) as [(q & -> & ->)|[_ ->]]; [|done].
  intros Hq. apply Hp. apply elem_of_app. by left.
Qed.

Lemma app_index_canonical q : canonical (q ++ js "/index") -> canonical q.
Proof. unfold canonical. intros H Hq. apply H, elem_of_app. by left. Qed.

End SlugFacts.

(** Index collapsing in the docs collection, where it works: the
    separators of the path are normalized to [/] (neither the normalized
    path nor the slug contains a backslash), the slug is [/] followed by
    the normalized path without a last segment [index] that follows a
    separator, and so the documents at [vi/guide/index] and at [vi/index]
    (also when written with backslashes) get the slugs [/vi/guide] and
    [/vi]. *)
Theorem docs_index_collapsing (doc : Docs.document) (code : jsstring) :
  let n := replace_backslashes (Source.path (Docs._meta doc)) in
  let slug := Docs.slug (Docs.transform doc code) in
  canonical n /\ canonical slug
  /\ (canonical (Source.path (Docs._meta doc)) -> n = Source.path (Docs._meta doc))
  /\ slug = js "/" ++ drop_index_segment n
  /\ (forall q, n = q ++ js "/index" -> slug = js "/" ++ q)
  /\ (Source.path (Docs._meta doc) = js "vi/guide/index" -> slug = js "/vi/guide")
  /\ (Source.path (Docs._meta doc) = js "vi\guide\index" -> slug = js "/vi/guide")
  /\ (Source.path (Docs._meta doc) = js "vi/index" -> slug = js "/vi").
Proof.
  intros n slug. destruct (docs_slug_fields doc code) as [_ Hslug].
  fold n in Hslug. fold slug in Hslug.
  pose proof (replace_backslashes_canonical (Source.path (Docs._meta doc))) as Hn.
  fold n in Hn. split; [done|]. split.
  { rewrite Hslug. unfold canonical. rewrite not_elem_of_cons. split; [done|].
    by apply drop_index_segment_canonical. }
  split; [apply replace_backslashes_id|]. split; [done|]. split.
  { intros q Hq. by rewrite Hslug, Hq, drop_index_segment_app. }
  repeat split; intros Hp; rewrite Hslug; unfold n; by rewrite Hp.
Qed.

Lemma docs_index_collapsing_witness :
  Docs.slug (Docs.transform (docs_document_at (js "a\b/index")) (js "code")) = js "/a/b".
Proof.
  destruct (docs_index_collapsing (docs_document_at (js "a\b/index")) (js "code"))
    as (_ & _ & _ & _ & H & _).
  apply (H (js "a/b")). reflexivity.
Defined.

(** C2.  Index collapsing fails for the index page at the root of the
    collection.  For a docs document whose normalized path is the one
    segment [index], the two replacements do remove the segment (the
    path is empty after them), but the fallback for an empty path takes
    the first segment of the normalized path, which is [index] again: the
    slug is [/index] and [slugAsParams] is [index], so the trailing
    [index] segment is not dropped.  For every other document the slug
    is [/] followed by the normalized path without a trailing [/index]. *)
Theorem docs_bare_index_kept (doc : Docs.document) (code : jsstring) :
  let n := replace_backslashes (Source.path (Docs._meta doc)) in
  (n = js "index" ->
   replace_whole (replace_at_end n (js "/index") []) (js "index") [] = []
   /\ Docs.first_segment n = js "index"
   /\ Docs.slug (Docs.transform doc code) = js "/index"
   /\ Docs.slugAsParams (Docs.transform doc code) = js "index")
  /\ (n <> js "index" ->
      forall q, n = q ++ js "/index" ->
        Docs.slug (Docs.transform doc code) = js "/" ++ q
        /\ Docs.slugAsParams (Docs.transform doc code) = q).
Proof.
  intros n. split.
  - intros Hn. cbn [Docs.transform Docs.slug Docs.slugAsParams]. fold n.
    rewrite Hn. by repeat split.
  - intros _ q Hq. destruct (docs_slug_fields doc code) as [-> ->]. fold n.
    by rewrite Hq, drop_index_segment_app.
Qed.

Lemma docs_bare_index_kept_witness :
  Docs.slug (Docs.transform (docs_document_at (js "index")) (js "code")) = js "/index"
  /\ Docs.slugAsParams (Docs.transform (docs_document_at (js "index")) (js "code"))
     = js "index"
  /\ Docs.slug (Docs.transform (docs_document_at (js "vi/index")) (js "code")) = js "/vi".
Proof.
  destruct (docs_bare_index_kept (docs_document_at (js "index")) (js "code")) as [Hbare _].
  destruct (Hbare eq_refl) as (_ & _ & Hslug & Hparams).
  split; [exact Hslug|]. split; [exact Hparams|].
  destruct (docs_bare_index_kept (docs_document_at (js "vi/index")) (js "code"))
    as [_ H].
  apply (H ltac:(vm_compute; discriminate) (js "vi") eq_refl).
Defined.

(** The file of the failing document, as the collection reads it: the
    index page [content/docs/index.mdx]. *)
Example bare_index_of_file :
  Source.path <$> Source.meta_of_file Source.docs_collection (js "../content/docs/index.mdx")
  = Some (js "index").
Proof. reflexivity. Qed.

Lemma startsWith_slash_replace_backslashes p :
  startsWith p (js "/") = false -> startsWith p (js "\") = false ->
  startsWith (replace_backslashes p) (js "/") = false.
Proof.
  destruct p as [|c p]; [done|].
  change (js "/") with [slash]. change (js "\") with [backslash].
  cbn [startsWith replace_backslashes map]. rewrite !andb_true_r.
  intros H1 H2. destruct (c =? backslash)%N eqn:E; [|exact H1].
  apply N.eqb_eq in E. subst c. by rewrite N.eqb_refl in H2.
Qed.

Lemma startsWith_slash_drop_index_segment p :
  startsWith p (js "/") = false -> startsWith (drop_index_segment p) (js "/") = false.
Proof.
  destruct (drop_index_segment_cases p) as [(q & -> & ->)|[_ ->]]; [|done].
  by destruct q.
Qed.

(** C9.  In both collections the slug is [/] followed by [slugAsParams],
    so that it begins with [/]; and [slugAsParams] does not begin with
    [/] when the path of the document does not begin with a separator. *)
Theorem slug_is_slash_then_slugAsParams :
  (forall (doc : Docs.document) code,
      Docs.slug (Docs.transform doc code)
      = js "/" ++ Docs.slugAsParams (Docs.transform doc code)
      /\ startsWith (Docs.slug (Docs.transform doc code)) (js "/") = true
      /\ (startsWith (Source.path (Docs._meta doc)) (js "/") = false ->
          startsWith (Source.path (Docs._meta doc)) (js "\") = false ->
          startsWith (Docs.slugAsParams (Docs.transform doc code)) (js "/") = false))
  /\ (forall (doc : Blogs.document) code,
      Blogs.slug (Blogs.transform doc code)
      = js "/" ++ Blogs.slugAsParams (Blogs.transform doc code)
      /\ startsWith (Blogs.slug (Blogs.transform doc code)) (js "/") = true
      /\ (startsWith (Source.path (Blogs._meta doc)) (js "/") = false ->
          startsWith (Source.path (Blogs._meta doc)) (js "\") = false ->
          startsWith (Blogs.slugAsParams (Blogs.transform doc code)) (js "/") = false)).
Proof.
  split; intros doc code.
  - destruct (docs_slug_fields doc code) as [-> ->]. repeat split.
    intros H1 H2. by apply startsWith_slash_drop_index_segment,
                            startsWith_slash_replace_backslashes.
  - cbn [Blogs.transform Blogs.transform_with Blogs.slug Blogs.slugAsParams].
    rewrite join_split. repeat split.
    intros H1 H2. by apply startsWith_slash_replace_backslashes.
Qed.

Lemma slug_is_slash_then_slugAsParams_witness :
  startsWith (Docs.slugAsParams (Docs.transform (docs_document_at (js "vi/guide/index")) []))
    (js "/") = false
  /\ startsWith (Blogs.slugAsParams
                   (Blogs.transform (blog_document (js "vi/post") (js "vi") None []) []))
       (js "/") = false.
Proof.
  destruct slug_is_slash_then_slugAsParams as [Hd Hb]. split.
  - destruct (Hd (docs_document_at (js "vi/guide/index")) []) as (_ & _ & H).
    apply H; reflexivity.
  - destruct (Hb (blog_document (js "vi/post") (js "vi") None []) []) as (_ & _ & H).
    apply H; reflexivity.
Defined.

(** The slug of a blog document is [/] followed by the normalized path. *)
Lemma blogs_slug_fields (doc : Blogs.document) code :
  Blogs.slug (Blogs.transform doc code)
  = slash :: replace_backslashes (Source.path (Blogs._meta doc)).
Proof. reflexivity. Qed.

(** C3, as the code has it.  With the separators of the paths normalized
    to [/], as both transforms do first: two documents whose normalized
    paths differ get different slugs in the blog collection, and in the
    docs collection unless one normalized path is the other followed by
    [/index]; a docs document at [d/index] and a docs document at [d],
    where [d] does not itself end in [/index], get the same slug; and two
    documents get the same slug whenever their paths differ in the
    separators only. *)
Theorem slugs_of_distinct_paths :
  (forall (d1 d2 : Blogs.document) c1 c2,
      replace_backslashes (Source.path (Blogs._meta d1))
      <> replace_backslashes (Source.path (Blogs._meta d2)) ->
      Blogs.slug (Blogs.transform d1 c1) <> Blogs.slug (Blogs.transform d2 c2))
  /\ (forall (d1 d2 : Docs.document) c1 c2,
      let n1 := replace_backslashes (Source.path (Docs._meta d1)) in
      let n2 := replace_backslashes (Source.path (Docs._meta d2)) in
      n1 <> n2 -> n1 <> n2 ++ js "/index" -> n2 <> n1 ++ js "/index" ->
      Docs.slug (Docs.transform d1 c1) <> Docs.slug (Docs.transform d2 c2))
  /\ (forall (d1 d2 : Docs.document) c1 c2,
      let n1 := replace_backslashes (Source.path (Docs._meta d1)) in
      let n2 := replace_backslashes (Source.path (Docs._meta d2)) in
      (forall q, n1 <> q ++ js "/index") ->
      n2 = n1 ++ js "/index" ->
      Docs.slug (Docs.transform d1 c1) = Docs.slug (Docs.transform d2 c2))
  /\ (forall (d1 d2 : Blogs.document) c1 c2,
      replace_backslashes (Source.path (Blogs._meta d1))
      = replace_backslashes (Source.path (Blogs._meta d2)) ->
      Blogs.slug (Blogs.transform d1 c1) = Blogs.slug (Blogs.transform d2 c2))
  /\ (forall (d1 d2 : Docs.document) c1 c2,
      replace_backslashes (Source.path (Docs._meta d1))
      = replace_backslashes (Source.path (Docs._meta d2)) ->
      Docs.slug (Docs.transform d1 c1) = Docs.slug (Docs.transform d2 c2)).
Proof.
  split; [|split; [|split; [|split]]].
  - intros d1 d2 c1 c2 Hne. rewrite !blogs_slug_fields. congruence.
  - intros d1 d2 c1 c2 n1 n2 Hne Hn1 Hn2.
    destruct (docs_slug_fields d1 c1) as [_ ->].
    destruct (docs_slug_fields d2 c2) as [_ ->].
    fold n1 n2. intros [= Heq]. revert Heq.
    destruct (drop_index_segment_cases n1) as [(q1 & E1 & ->)|[_ ->]];
    destruct (drop_index_segment_cases n2) as [(q2 & E2 & ->)|[_ ->]];
      intros Heq; subst; congruence.
  - intros d1 d2 c1 c2 n1 n2 Hno H2.
    destruct (docs_slug_fields d1 c1) as [_ ->].
    destruct (docs_slug_fields d2 c2) as [_ ->].
    fold n1 n2. rewrite H2, drop_index_segment_app.
    by destruct (drop_index_segment_cases n1) as [(q1 & E1 & _)|[_ ->]];
      [destruct (Hno q1)|].
  - intros d1 d2 c1 c2 Heq. rewrite !blogs_slug_fields. by rewrite Heq.
  - intros d1 d2 c1 c2 Heq.
    destruct (docs_slug_fields d1 c1) as [_ ->].
    destruct (docs_slug_fields d2 c2) as [_ ->]. by rewrite Heq.
Qed.

Lemma slugs_of_distinct_paths_witness :
  Blogs.slug (Blogs.transform (blog_document (js "vi\a") (js "vi") None []) [])
  <> Blogs.slug (Blogs.transform (blog_document (js "vi/b") (js "vi") None []) [])
  /\ Docs.slug (Docs.transform (docs_document_at (js "vi\a\index")) [])
     <> Docs.slug (Docs.transform (docs_document_at (js "vi/b")) [])
  /\ Docs.slug (Docs.transform (docs_document_at (js "vi\guide")) [])
     = Docs.slug (Docs.transform (docs_document_at (js "vi/guide/index")) [])
  /\ Blogs.slug (Blogs.transform (blog_document (js "vi\a") (js "vi") None []) [])
     = Blogs.slug (Blogs.transform (blog_document (js "vi/a") (js "vi") None []) []).
Proof.
  destruct slugs_of_distinct_paths as (Hb & Hd & Hi & Hs & _).
  split; [|split; [|split]].
  - apply Hb. discriminate.
  - apply Hd; discriminate.
  - apply Hi; [|reflexivity].
    apply not_index_ending. reflexivity.
  - apply Hs. reflexivity.
Defined.

(** C3, as it is stated, fails: the docs documents at [vi/guide] and at
    [vi/guide/index] have different paths and the same slug, and the
    transform reports nothing. *)
Lemma slug_collision :
  Source.path (Docs._meta (docs_document_at (js "vi/guide")))
  <> Source.path (Docs._meta (docs_document_at (js "vi/guide/index")))
  /\ Docs.slug (Docs.transform (docs_document_at (js "vi/guide")) [])
     = Docs.slug (Docs.transform (docs_document_at (js "vi/guide/index")) []).
Proof. split; [discriminate|reflexivity]. Qed.

(** ** Reading time *)

Lemma numberOfWords_eq (doc : Blogs.document) :
  Blogs.numberOfWords doc = Nat.max 1 (word_count (trim (Blogs.content doc))).
Proof.
  unfold Blogs.numberOfWords. by rewrite split_spaces_trim_length, word_count_trim.
Qed.

Lemma readTime_eq (doc : Blogs.document) code :
  Blogs.readTimeInMinutes (Blogs.transform doc code)
  = ceil_quotient (Nat.max 1 (word_count (trim (Blogs.content doc)))) 200.
Proof.
  cbn [Blogs.transform Blogs.transform_with Blogs.readTimeInMinutes].
  by rewrite numberOfWords_eq.
Qed.

(** C4.  With [w] the number of whitespace-delimited words of the trimmed
    body, the reading time is [w / 200] rounded up (the least [m] with
    [w <= 200 * m]) and not less than one: it is that quotient as soon as
    there is a word, it is one for a body without words, it is at least
    one, and a document with more words has no smaller reading time. *)
Theorem reading_time (doc : Blogs.document) (code : jsstring) :
  let w := word_count (trim (Blogs.content doc)) in
  let minutes := Blogs.readTimeInMinutes (Blogs.transform doc code) in
  minutes = Z.max 1 (ceil_quotient w 200)
  /\ (1 <= w ->
      minutes = ceil_quotient w 200
      /\ (200 * (minutes - 1) < Z.of_nat w <= 200 * minutes)%Z)
  /\ (w = 0 -> minutes = 1%Z)
  /\ (1 <= minutes)%Z
  /\ (forall (doc2 : Blogs.document) code2,
         w < word_count (trim (Blogs.content doc2)) ->
         (minutes <= Blogs.readTimeInMinutes (Blogs.transform doc2 code2))%Z).
Proof.
  intros w minutes. unfold minutes. rewrite readTime_eq. fold w.
  assert (Hpos : forall k, 1 <= k -> Nat.max 1 k = k) by lia.
  split; [|split; [|split; [|split]]].
  - destruct w as [|k]; [reflexivity|].
    rewrite Hpos by lia. pose proof (ceil_quotient_pos (S k) 200). lia.
  - intros Hw. rewrite Hpos by done. split; [done|].
    pose proof (proj1 (ceil_quotient_spec w 200 _) eq_refl). lia.
  - by intros ->.
  - apply ceil_quotient_pos. lia.
  - intros doc2 code2 Hlt. rewrite readTime_eq. apply ceil_quotient_mono. lia.
Qed.

Lemma reading_time_witness :
  Blogs.readTimeInMinutes (Blogs.transform (my_post (words 201)) []) = ceil_quotient 201 200
  /\ (Blogs.readTimeInMinutes (Blogs.transform (my_post (words 201)) [])
      <= Blogs.readTimeInMinutes (Blogs.transform (my_post (words 202)) []))%Z.
Proof.
  destruct (reading_time (my_post (words 201)) []) as (_ & H1 & _ & _ & H2). split.
  - apply H1. vm_compute. lia.
  - apply H2. vm_compute. lia.
Defined.

(** The empty body and a body of white space only read in one minute. *)
Example reading_time_of_empty_body :
  Blogs.readTimeInMinutes (Blogs.transform (my_post []) []) = 1%Z
  /\ Blogs.readTimeInMinutes (Blogs.transform (my_post (js "   ")) []) = 1%Z.
Proof. split; reflexivity. Qed.

(** ** Authors *)

Lemma resolve_author_found authors (doc : Blogs.document) a :
  Blogs.find_author authors doc = Some a ->
  Blogs.resolve_author authors doc
  = {| Blogs.id := Some (Config.id a); Blogs.name := Some (Config.name a);
       Blogs.image := Some (Config.image a); Blogs.site := Some (Config.site a);
       Blogs.email := Some (Config.email a);
       Blogs.bio := Blogs.localized_bio (Config.bio a) (Blogs.locale_of doc);
       Blogs.social := Some (Config.social a) |}.
Proof. unfold Blogs.resolve_author. by intros ->. Qed.

Lemma bio_property_own (m : gmap jsstring jsstring) key b :
  m !! key = Some b -> Blogs.bio_property m key = Some (Blogs.BioText b).
Proof. unfold Blogs.bio_property. by intros ->. Qed.

Lemma bio_property_inherited (m : gmap jsstring jsstring) key :
  m !! key = None -> key ∈ Blogs.object_prototype_names ->
  Blogs.bio_property m key = Some (Blogs.BioInherited key).
Proof.
  unfold Blogs.bio_property. intros -> Hin. by rewrite bool_decide_eq_true_2.
Qed.

Lemma bio_property_plain (m : gmap jsstring jsstring) key :
  key ∉ Blogs.object_prototype_names ->
  Blogs.bio_property m key = Blogs.BioText <$> m !! key.
Proof.
  unfold Blogs.bio_property. intros Hin.
  destruct (m !! key); [done|]. by rewrite bool_decide_eq_false_2.
Qed.

Lemma vi_not_inherited : js "vi" ∉ Blogs.object_prototype_names.
Proof. refine (bool_decide_eq_true_1 _ _). reflexivity. Qed.

Lemma undefined_not_inherited : js "undefined" ∉ Blogs.object_prototype_names.
Proof. refine (bool_decide_eq_true_1 _ _). reflexivity. Qed.


(** An entry that is not empty is the bio. *)
Lemma localized_bio_own (m : gmap jsstring jsstring) locale (b : jsstring) :
  m !! Blogs.property_key locale = Some b -> b <> [] ->
  Blogs.localized_bio (Some m) locale = Some (Blogs.BioText b).
Proof.
  intros E Hne. unfold Blogs.localized_bio.
  rewrite (bio_property_own _ _ _ E). cbn [Blogs.bio_truthy].
  by destruct b.
Qed.

(** A key without an entry that is not inherited leaves the bio of
    [vi]. *)
Lemma localized_bio_absent (m : gmap jsstring jsstring) locale :
  m !! Blogs.property_key locale = None ->
  Blogs.property_key locale ∉ Blogs.object_prototype_names ->
  Blogs.localized_bio (Some m) locale = Blogs.BioText <$> m !! js "vi".
Proof.
  intros E Hkey. unfold Blogs.localized_bio.
  rewrite (bio_property_plain m _ Hkey), E.
  apply bio_property_plain, vi_not_inherited.
Qed.

(** An entry that is the empty string is passed over for the bio of
    [vi]. *)
Lemma localized_bio_empty (m : gmap jsstring jsstring) locale :
  m !! Blogs.property_key locale = Some ([] : jsstring) ->
  Blogs.localized_bio (Some m) locale = Blogs.BioText <$> m !! js "vi".
Proof.
  intros E. unfold Blogs.localized_bio.
  rewrite (bio_property_own _ _ _ E). cbn [Blogs.bio_truthy truthy].
  apply bio_property_plain, vi_not_inherited.
Qed.

(** A key that the map has no entry for and inherits selects what is
    inherited. *)
Lemma localized_bio_inherited (m : gmap jsstring jsstring) locale :
  m !! Blogs.property_key locale = None ->
  Blogs.property_key locale ∈ Blogs.object_prototype_names ->
  Blogs.localized_bio (Some m) locale
  = Some (Blogs.BioInherited (Blogs.property_key locale)).
Proof.
  intros E Hin. unfold Blogs.localized_bio.
  by rewrite (bio_property_inherited _ _ E Hin).
Qed.

(** An [author_id] that occurs in the table is found. *)
Lemma find_author_occurs authors (doc : Blogs.document) a0 :
  In a0 authors -> Blogs.author_id doc = Some (Config.id a0) ->
  exists a, Blogs.find_author authors doc = Some a
            /\ In a authors /\ Blogs.author_id doc = Some (Config.id a).
Proof.
  intros Hin Hid. unfold Blogs.find_author.
  destruct (find _ authors) as [a|] eqn:E.
  - apply find_some in E as [Ha Hb]. apply bool_decide_eq_true_1 in Hb.
    exists a. by repeat split.
  - apply (find_none _ _ E) in Hin. apply bool_decide_eq_false_1 in Hin.
    by destruct Hin.
Qed.



(** The file of the last document of the witness, as the collection
    reads it: a post in the directory [x/constructor] of the blog. *)
Example inherited_post_of_file :
  Source.meta_of_file Source.blogs_collection (js "../content/blog/x/constructor/post.mdx")
  = Some (Blogs._meta inherited_post).
Proof. reflexivity. Qed.

(** With the configured table the bio of that document is no string,
    although the bio map has no entry for [constructor] and has one for
    [vi]. *)
Example inherited_post_bio :
  Blogs.find_author Config.authors inherited_post = Some Config.huynhsang
  /\ (forall bios, Config.bio Config.huynhsang = Some bios ->
        bios !! js "constructor" = None /\ is_Some (bios !! js "vi"))
  /\ Blogs.bio (Blogs.author (Blogs.transform inherited_post []))
     = Some (Blogs.BioInherited (js "constructor")).
Proof.
  split; [reflexivity|]. split; [|reflexivity].
  intros bios [= <-]. split; [reflexivity|]. by eexists.
Qed.

Lemma find_author_none authors (doc : Blogs.document) :
  (forall a, In a authors -> Some (Config.id a) <> Blogs.author_id doc) ->
  Blogs.find_author authors doc = None.
Proof.
  intros Hno. unfold Blogs.find_author.
  destruct (find _ authors) as [a|] eqn:E; [|done].
  apply find_some in E as [Hin Hid]. apply bool_decide_eq_true_1 in Hid.
  by destruct (Hno a Hin).
Qed.

(** C8.  A blog document whose [author_id] is the id of no entry of the
    authors table (whatever the table, the configured one included) gets
    an author that holds the given [author_id] as [id] and nothing
    else. *)
Theorem author_fallback (authors : list Config.author_entry)
    (doc : Blogs.document) (code : jsstring) :
  (forall a, In a authors -> Some (Config.id a) <> Blogs.author_id doc) ->
  Blogs.author (Blogs.transform_with authors doc code)
  = {| Blogs.id := Blogs.author_id doc; Blogs.name := None; Blogs.image := None;
       Blogs.site := None; Blogs.email := None; Blogs.bio := None;
       Blogs.social := None |}.
Proof.
  intros Hno. cbn [Blogs.transform_with Blogs.author].
  unfold Blogs.resolve_author. by rewrite find_author_none.
Qed.

Lemma author_fallback_witness :
  Blogs.author (Blogs.transform (blog_document (js "vi/post") (js "vi")
                                   (Some (js "nobody")) (js "text")) [])
  = {| Blogs.id := Some (js "nobody"); Blogs.name := None; Blogs.image := None;
       Blogs.site := None; Blogs.email := None; Blogs.bio := None;
       Blogs.social := None |}.
Proof.
  apply (author_fallback Config.authors
           (blog_document (js "vi/post") (js "vi") (Some (js "nobody")) (js "text")) []).
  intros a [<-|[]]. vm_compute. discriminate.
Defined.

(** The locale the transform takes is the second segment of the
    directory; a directory of one segment gives [undefined], and the bio
    is then looked up under the key "undefined". *)
Example locale_of_directory :
  Blogs.locale_of (blog_document (js "vi/post") (js "blog/vi") None []) = Some (js "vi")
  /\ Blogs.locale_of (blog_document (js "vi/post") (js "blog\vi") None []) = Some (js "vi")
  /\ Blogs.locale_of (blog_document (js "vi/post") (js "vi") None []) = None.
Proof. repeat split; reflexivity. Qed.

(** ** The end-to-end example *)

Lemma my_post_meta_of_file :
  Source.meta_of_file Source.blogs_collection (js "../content/blog/vi/my-post.mdx")
  = Some my_post_meta.
Proof. reflexivity. Qed.

Lemma word_count_words k : word_count (words k) = k.
Proof.
  unfold words, word_count. induction k as [|k IH]; [done|].
  cbn [replicate concat].
  change (count_words_from false (js "word " ++ concat (replicate k (js "word "))))
    with (S (count_words_from false (concat (replicate k (js "word "))))).
  by rewrite IH.
Qed.

(** C1, as the code has it.  The blog post [content/blog/vi/my-post.mdx]
    with the front-matter of the example and any body of exactly 400
    words compiles to a record whose slug is [/vi/my-post] (the path
    inside the collection's directory), whose reading time is 2 and whose
    author is named "Huỳnh Sang". *)
Theorem blog_end_to_end (body code : jsstring) :
  word_count body = 400 ->
  let post := Blogs.transform (my_post body) code in
  Blogs.slug post = js "/vi/my-post"
  /\ Blogs.readTimeInMinutes post = 2%Z
  /\ Blogs.name (Blogs.author post) = Some (js "Hu" ++ [0x1EF3%N] ++ js "nh Sang").
Proof.
  intros Hw post. split; [reflexivity|]. split; [|reflexivity].
  unfold post. rewrite readTime_eq. cbn [my_post Blogs.content].
  by rewrite word_count_trim, Hw.
Qed.

Lemma blog_end_to_end_witness :
  Blogs.slug (Blogs.transform (my_post (words 400)) []) = js "/vi/my-post"
  /\ Blogs.readTimeInMinutes (Blogs.transform (my_post (words 400)) []) = 2%Z
  /\ Blogs.name (Blogs.author (Blogs.transform (my_post (words 400)) []))
     = Some (js "Hu" ++ [0x1EF3%N] ++ js "nh Sang").
Proof.
  apply (blog_end_to_end (words 400) []). vm_compute. reflexivity.
Defined.

(** C1, as it is stated, fails on the slug: the path the transform reads
    is the one inside the directory of the blog collection and carries no
    [blog] segment. *)
Lemma blog_end_to_end_slug_differs :
  word_count (words 400) = 400
  /\ Blogs.slug (Blogs.transform (my_post (words 400)) []) <> js "/blog/vi/my-post".
Proof. split; [by vm_compute|discriminate]. Qed.

(** ** The package-manager pass *)

Section NpmCommand.

Implicit Types (props fields : gmap string jsval) (s : jsstring).

Lemma get_insert_ne props k k' v : k <> k' -> get (<[k := v]> props) k' = get props k'.
Proof. intros H. unfold get. by rewrite lookup_insert_ne. Qed.

Lemma get_insert_eq props k v : get (<[k := v]> props) k = v.
Proof. unfold get. by rewrite lookup_insert_eq. Qed.

Lemma npm_not_npx s :
  startsWith s (js "npm i") = true -> startsWith s (js "npx") = false.
Proof.
  intros H. rewrite (startsWith_inv _ _ H). reflexivity.
Qed.

Lemma npx_create_is_npx s :
  startsWith s (js "npx create-") = true -> startsWith s (js "npx") = true.
Proof. intros H. by apply (startsWith_trans _ _ _ H). Qed.

Lemma not_npx_not_create s :
  startsWith s (js "npx") = false -> startsWith s (js "npx create-") = false.
Proof.
  intros H. destruct (startsWith s (js "npx create-")) eqn:E; [|done].
  apply npx_create_is_npx in E. congruence.
Qed.

Lemma npm_install_step_on_string props s :
  get props "__rawString__" = VString s ->
  npm_install_step props
  = Some (if startsWith s (js "npm i") then
            with_commands s (substitute_prefix (js "npm i") (js "yarn add") s)
              (substitute_prefix (js "npm i") (js "pnpm add") s)
              (substitute_prefix (js "npm i") (js "bun add") s) props
          else props).
Proof.
  intros Hraw. unfold npm_install_step. rewrite Hraw. cbn [startsWith_opt mbind option_bind].
  destruct (startsWith s (js "npm i")) eqn:E; [|done].
  cbn [replace_val]. by rewrite !replace_at_start by done.
Qed.

Lemma npx_create_step_on_string props s :
  get props "__rawString__" = VString s ->
  npx_create_step props
  = Some (if startsWith s (js "npx create-") then
            with_commands s (substitute_prefix (js "npx create-") (js "yarn create ") s)
              (substitute_prefix (js "npx create-") (js "pnpm create ") s)
              (substitute_prefix (js "npx") (js "bunx --bun") s) props
          else props).
Proof.
  intros Hraw. unfold npx_create_step. rewrite Hraw. cbn [startsWith_opt mbind option_bind].
  destruct (startsWith s (js "npx create-")) eqn:E; [|done].
  cbn [replace_val]. by rewrite !replace_at_start by (done || by apply npx_create_is_npx).
Qed.

Lemma npx_step_on_string props s :
  get props "__rawString__" = VString s ->
  npx_step props
  = Some (if startsWith s (js "npx") && negb (startsWith s (js "npx create-")) then
            with_commands s s (substitute_prefix (js "npx") (js "pnpm dlx") s)
              (substitute_prefix (js "npx") (js "bunx --bun") s) props
          else props).
Proof.
  intros Hraw. unfold npx_step. rewrite Hraw. cbn [startsWith_opt mbind option_bind].
  destruct (startsWith s (js "npx")) eqn:E; cbn [mbind option_bind andb]; [|done].
  destruct (startsWith s (js "npx create-")) eqn:E2; cbn [negb]; [done|].
  cbn [replace_val]. by rewrite !replace_at_start by done.
Qed.

Lemma get_with_commands npm yarn pnpm bun props :
  get (with_commands npm yarn pnpm bun props) "__npmCommand__" = VString npm
  /\ get (with_commands npm yarn pnpm bun props) "__yarnCommand__" = VString yarn
  /\ get (with_commands npm yarn pnpm bun props) "__pnpmCommand__" = VString pnpm
  /\ get (with_commands npm yarn pnpm bun props) "__bunCommand__" = VString bun
  /\ get (with_commands npm yarn pnpm bun props) "__rawString__" = get props "__rawString__".
Proof.
  unfold with_commands.
  repeat split; repeat (rewrite get_insert_eq || rewrite get_insert_ne by done); done.
Qed.

Lemma variants_keep_raw s props :
  get (variants s props) "__rawString__" = get props "__rawString__".
Proof.
  unfold variants.
  repeat (case_match; [apply get_with_commands|]). done.
Qed.

(** The pass on a [pre] whose raw command is a string. *)
Lemma rehypeNpmCommand_on_string props fields children s :
  get props "__rawString__" = VString s ->
  rehypeNpmCommand_visitor (Element (js "pre") props fields children)
  = Some (Element (js "pre") (variants s props) fields children).
Proof.
  intros Hraw. unfold rehypeNpmCommand_visitor, variants.
  rewrite bool_decide_eq_true_2 by done.
  rewrite (npm_install_step_on_string props s Hraw). cbn [mbind option_bind].
  destruct (startsWith s (js "npm i")) eqn:E1.
  - pose proof (npm_not_npx s E1) as E3. pose proof (not_npx_not_create s E3) as E2.
    rewrite (npx_create_step_on_string _ s), E2
      by (by rewrite (proj2 (proj2 (proj2 (proj2 (get_with_commands _ _ _ _ _)))))).
    cbn [mbind option_bind].
    rewrite (npx_step_on_string _ s), E3
      by (by rewrite (proj2 (proj2 (proj2 (proj2 (get_with_commands _ _ _ _ _)))))).
    done.
  - rewrite (npx_create_step_on_string props s Hraw). cbn [mbind option_bind].
    destruct (startsWith s (js "npx create-")) eqn:E2.
    + rewrite (npx_step_on_string _ s), E2, (npx_create_is_npx s E2)
        by (by rewrite (proj2 (proj2 (proj2 (proj2 (get_with_commands _ _ _ _ _)))))).
      done.
    + rewrite (npx_step_on_string props s Hraw), E2.
      by destruct (startsWith s (js "npx")).
Qed.

(** The pass on a [pre] without raw command. *)
Lemma rehypeNpmCommand_on_undefined props fields children :
  get props "__rawString__" = VUndefined ->
  rehypeNpmCommand_visitor (Element (js "pre") props fields children)
  = Some (Element (js "pre") props fields children).
Proof.
  intros Hraw.
  assert (npm_install_step props = Some props) as H1
    by (unfold npm_install_step; by rewrite Hraw).
  assert (npx_create_step props = Some props) as H2
    by (unfold npx_create_step; by rewrite Hraw).
  assert (npx_step props = Some props) as H3
    by (unfold npx_step; by rewrite Hraw).
  unfold rehypeNpmCommand_visitor. rewrite bool_decide_eq_true_2 by done.
  rewrite H1. cbn [mbind option_bind]. rewrite H2. cbn [mbind option_bind].
  by rewrite H3.
Qed.

End NpmCommand.

(** ** Raw source across the highlighter *)

Section RawSource.

Implicit Types (props fields : gmap string jsval) (v : jsstring).

(** The capture pass on a fenced code block: a [pre] whose first child is
    a [code] element that begins with the text [v]. *)
Lemma capture_on_fence props fields cprops cfields v rest others :
  capture_visitor
    (Element (js "pre") props fields
       (Element (js "code") cprops cfields (Text v :: rest) :: others))
  = Some (Element (js "pre") props
            (<["__style__" := get props "__style__"]>
               (<["__src__" := get props "__src__"]>
                  (<["__rawString__" := VString v]> fields)))
            (Element (js "code") cprops cfields (Text v :: rest) :: others)).
Proof.
  unfold capture_visitor. rewrite bool_decide_eq_true_2 by done.
  cbn [tagName_of]. by rewrite bool_decide_eq_true_2 by done.
Qed.

(** The properties the hoist pass leaves on the [pre], from the fields of
    the wrapper. *)
Lemma hoist_on_wrapper wtag wprops wfields front pprops pfields pchildren :
  truthy wtag = true ->
  exists pprops',
    hoist_visitor
      (Element wtag wprops wfields (front ++ [Element (js "pre") pprops pfields pchildren]))
    = Element wtag wprops wfields (front ++ [Element (js "pre") pprops' pfields pchildren])
    /\ get pprops' "__rawString__" = get wfields "__rawString__"
    /\ get pprops' "__withMeta__"
       = VBool (bool_decide
                  (head (front ++ [Element (js "pre") pprops pfields pchildren])
                     ≫= tagName_of = Some (js "div"))).
Proof.
  intros Htag. unfold hoist_visitor. rewrite Htag, last_snoc.
  rewrite bool_decide_eq_true_2 by done.
  eexists. split.
  - f_equal. rewrite length_app. cbn [length].
    replace (pred (length front + 1)) with (length front + 0) by lia.
    by rewrite insert_app_r.
  - split; repeat case_match;
      repeat (rewrite get_insert_eq || rewrite get_insert_ne by done); done.
Qed.

Lemma first_child_is_div (cs : list node) :
  bool_decide (head cs ≫= tagName_of = Some (js "div")) = true
  <-> exists dprops dfields dchildren tail,
        cs = Element (js "div") dprops dfields dchildren :: tail.
Proof.
  rewrite bool_decide_eq_true. split.
  - destruct cs as [|[|tag dprops dfields dchildren| |] tail]; try done.
    cbn. intros [= ->]. eauto.
  - by intros (dprops & dfields & dchildren & tail & ->).
Qed.

End RawSource.

(** ** The traversal *)

Section Traversal.

Implicit Types (n t : node) (visitor : node -> option node) (position : list nat).

Lemma children_of_with_children n cs :
  (children_of n = [] -> cs = []) -> children_of (with_children n cs) = cs.
Proof. destruct n; cbn; intros H; try done; by rewrite H. Qed.

Lemma visit_inv fuel visitor t t' :
  visit fuel visitor t = Some t' ->
  exists fuel' n cs,
    fuel = S fuel' /\ visitor t = Some n
    /\ Forall2 (fun c c' => visit fuel' visitor c = Some c') (children_of n) cs
    /\ t' = with_children n cs /\ children_of t' = cs.
Proof.
  destruct fuel as [|fuel']; [done|]. cbn [visit].
  destruct (visitor t) as [n|]; [|done]. cbn [mbind option_bind].
  destruct (mapM (visit fuel' visitor) (children_of n)) as [cs|] eqn:E; [|done].
  intros [= <-]. exists fuel', n, cs. apply mapM_Some_1 in E.
  repeat split; try done.
  apply children_of_with_children. intros Hn. rewrite Hn in E. by inversion E.
Qed.

Lemma node_at_cons i position t n :
  node_at (i :: position) t = Some n <->
  exists c, children_of t !! i = Some c /\ node_at position c = Some n.
Proof. cbn [node_at]. rewrite bind_Some. naive_solver. Qed.

Lemma node_at_app position i t n c :
  node_at position t = Some n -> children_of n !! i = Some c ->
  node_at (position ++ [i]) t = Some c.
Proof.
  revert t. induction position as [|j position IH]; intros t.
  - intros [= ->] Hc. cbn. by rewrite Hc.
  - rewrite node_at_cons. intros (d & Hd & Hn) Hc.
    cbn [app]. apply node_at_cons. eauto.
Qed.

(** A pass with such a visitor that succeeds has applied the visitor at
    every position of the tree. *)
Lemma visit_at visitor :
  keeps_children visitor ->
  forall position fuel t t' n,
    visit fuel visitor t = Some t' ->
    node_at position t = Some n ->
    exists n' cs, visitor n = Some n' /\ node_at position t' = Some (with_children n' cs).
Proof.
  intros Hkeep. induction position as [|i position IH]; intros fuel t t' n Hv.
  - intros [= <-]. apply visit_inv in Hv as (fuel' & n' & cs & -> & Hn' & _ & -> & _).
    by exists n', cs.
  - rewrite node_at_cons. intros (c & Hc & Hn).
    apply visit_inv in Hv as (fuel' & m & cs & -> & Hm & Hcs & _ & Ht').
    rewrite <- (Hkeep _ _ Hm) in Hc.
    destruct (Forall2_lookup_l _ _ _ _ _ Hcs Hc) as (c' & Hc' & Hvc).
    destruct (IH _ _ _ _ Hvc Hn) as (n' & cs' & Hn' & Hat).
    exists n', cs'. split; [done|]. apply node_at_cons. exists c'. by rewrite Ht'.
Qed.

Lemma depth_child n c : c ∈ children_of n -> depth c < depth n.
Proof.
  assert (H : forall cs, c ∈ cs -> depth c <= foldr (fun c d => Nat.max (depth c) d) 0 cs).
  { induction cs as [|d cs IH]; [by intros ?%elem_of_nil|].
    rewrite elem_of_cons. cbn [foldr]. intros [->|Hc]; [lia|].
    specialize (IH Hc). lia. }
  destruct n as [|tag props fields cs|cs|]; cbn [children_of depth];
    try (by intros ?%elem_of_nil); intros Hc%H; lia.
Qed.

(** A pass succeeds when its visitor succeeds on every node it meets;
    [good] is a property of nodes that holds below a good node, that a
    call of the visitor keeps, and under which the visitor succeeds. *)
Lemma visit_is_Some visitor (good : node -> Prop) :
  (forall n, good n ->
     exists n', visitor n = Some n'
       /\ Forall good (children_of n')
       /\ Forall (fun c => depth c < depth n) (children_of n')) ->
  forall fuel t, depth t < fuel -> good t -> is_Some (visit fuel visitor t).
Proof.
  intros Hstep. induction fuel as [|fuel IH]; intros t Hd Hg; [lia|].
  cbn [visit]. destruct (Hstep t Hg) as (n' & -> & Hgood & Hdepth).
  cbn [mbind option_bind].
  assert (is_Some (mapM (visit fuel visitor) (children_of n'))) as [cs ->]; [|by eexists].
  apply mapM_is_Some_2. rewrite Forall_forall in *. intros c Hc.
  apply IH; [|by apply Hgood]. specialize (Hdepth c Hc). lia.
Qed.

Lemma every_node_inv (p : node -> bool) n :
  every_node p n = true ->
  p n = true /\ Forall (fun c => every_node p c = true) (children_of n).
Proof.
  destruct n as [v|tag props fields cs|cs|ty v]; cbn [every_node children_of];
    intros [Hn Hcs]%andb_prop; split; try done;
    apply Forall_forall; intros c Hc%list_elem_of_In;
    by apply (proj1 (forallb_forall _ _) Hcs).
Qed.

Lemma every_node_at (p : node -> bool) position t n :
  every_node p t = true -> node_at position t = Some n -> p n = true.
Proof.
  revert t. induction position as [|i position IH]; intros t Ht.
  - intros [= <-]. by apply every_node_inv in Ht as [? _].
  - rewrite node_at_cons. intros (c & Hc & Hn).
    apply every_node_inv in Ht as [_ Hcs]. rewrite Forall_forall in Hcs.
    apply (IH c); [|done]. apply Hcs. apply list_elem_of_lookup. eauto.
Qed.

End Traversal.

(** ** The package-manager pass on a tree *)

Section NpmCommandPass.

Lemma rehypeNpmCommand_keeps_children : keeps_children rehypeNpmCommand_visitor.
Proof.
  intros [v|tag props fields cs|cs|ty v] n'; cbn [rehypeNpmCommand_visitor];
    try (by intros [= <-]).
  case_bool_decide; [|by intros [= <-]].
  destruct (npm_install_step props) as [p1|]; [|done]. cbn [mbind option_bind].
  destruct (npx_create_step p1) as [p2|]; [|done]. cbn [mbind option_bind].
  destruct (npx_step p2) as [p3|]; [|done]. cbn [mbind option_bind].
  by intros [= <-].
Qed.

(** Wherever a [pre] with the raw command [s] stands in the tree, the
    pass leaves there the [pre] with the command properties. *)
Lemma rehypeNpmCommand_at tree tree' position props fields children s :
  rehypeNpmCommand tree = Some tree' ->
  node_at position tree = Some (Element (js "pre") props fields children) ->
  get props "__rawString__" = VString s ->
  exists children',
    node_at position tree' = Some (Element (js "pre") (variants s props) fields children').
Proof.
  intros Hpass Hat Hraw.
  destruct (visit_at _ rehypeNpmCommand_keeps_children _ _ _ _ _ Hpass Hat)
    as (n' & cs & Hn' & Hat').
  rewrite (rehypeNpmCommand_on_string _ _ _ s Hraw) in Hn'. injection Hn' as <-.
  by exists cs.
Qed.

Lemma rehypeNpmCommand_visitor_ok n :
  raw_command_ok n = true ->
  exists n', rehypeNpmCommand_visitor n = Some n' /\ children_of n' = children_of n.
Proof.
  intros Hok.
  assert (is_Some (rehypeNpmCommand_visitor n)) as [n' Hn'].
  { destruct n as [v|tag props fields cs|cs|ty v]; try (by eexists).
    cbn [raw_command_ok] in Hok.
    destruct (decide (tag = js "pre")) as [->|Hne].
    - rewrite bool_decide_eq_true_2 in Hok by done.
      destruct (get props "__rawString__") as [| |s|] eqn:Hraw; try done.
      + rewrite rehypeNpmCommand_on_undefined by done. by eexists.
      + rewrite (rehypeNpmCommand_on_string _ _ _ s) by done. by eexists.
    - cbn [rehypeNpmCommand_visitor]. rewrite bool_decide_eq_false_2 by done.
      by eexists. }
  exists n'. split; [done|]. by apply rehypeNpmCommand_keeps_children.
Qed.

(** The pass returns a tree when every [pre] of the tree has a raw
    command that is absent or a string. *)
Lemma rehypeNpmCommand_is_Some tree :
  every_node raw_command_ok tree = true -> is_Some (rehypeNpmCommand tree).
Proof.
  intros Hok. unfold rehypeNpmCommand.
  apply (visit_is_Some _ (fun t => every_node raw_command_ok t = true)); [|lia|done].
  clear. intros n [Hn Hcs]%every_node_inv.
  destruct (rehypeNpmCommand_visitor_ok n Hn) as (n' & Hn' & Hcs').
  exists n'. split; [done|]. rewrite Hcs'. split; [done|].
  apply Forall_forall. intros c Hc. by apply depth_child.
Qed.

Lemma rehypeNpmCommand_pass_at tree position props fields children s :
  every_node raw_command_ok tree = true ->
  node_at position tree = Some (Element (js "pre") props fields children) ->
  get props "__rawString__" = VString s ->
  exists tree' children',
    rehypeNpmCommand tree = Some tree'
    /\ node_at position tree'
       = Some (Element (js "pre") (variants s props) fields children').
Proof.
  intros Hok Hat Hraw. destruct (rehypeNpmCommand_is_Some tree Hok) as [tree' Hpass].
  destruct (rehypeNpmCommand_at _ _ _ _ _ _ _ Hpass Hat Hraw) as [children' Hat'].
  by exists tree', children'.
Qed.

End NpmCommandPass.

(** ** The capture and hoist passes on a tree *)

Section HoistPass.

Lemma capture_keeps_children : keeps_children capture_visitor.
Proof.
  intros [v|tag props fields cs|cs|ty v] n'; cbn [capture_visitor];
    try (by intros [= <-]).
  case_bool_decide; [|by intros [= <-]].
  destruct cs as [|codeEl cs]; [done|].
  case_bool_decide; by intros [= <-].
Qed.

(** Wherever a fenced code block stands in the tree, the capture pass
    leaves there the [pre] with the text in its field. *)
Lemma raw_capture_at tree tree' position props fields cprops cfields v rest others :
  raw_capture_pass tree = Some tree' ->
  node_at position tree
  = Some (Element (js "pre") props fields
            (Element (js "code") cprops cfields (Text v :: rest) :: others)) ->
  exists children',
    node_at position tree'
    = Some (Element (js "pre") props
              (<["__style__" := get props "__style__"]>
                 (<["__src__" := get props "__src__"]>
                    (<["__rawString__" := VString v]> fields)))
              children').
Proof.
  intros Hpass Hat.
  destruct (visit_at _ capture_keeps_children _ _ _ _ _ Hpass Hat)
    as (n' & cs & Hn' & Hat').
  rewrite capture_on_fence in Hn'. injection Hn' as <-. by exists cs.
Qed.

Lemma raw_capture_is_Some tree :
  every_node capture_ok tree = true -> is_Some (raw_capture_pass tree).
Proof.
  intros Hok. unfold raw_capture_pass.
  apply (visit_is_Some _ (fun t => every_node capture_ok t = true)); [|lia|done].
  clear. intros n [Hn Hcs]%every_node_inv.
  assert (is_Some (capture_visitor n)) as [n' Hn'].
  { destruct n as [v|tag props fields cs|cs|ty v]; try (by eexists).
    cbn [capture_ok capture_visitor] in *. case_bool_decide; [|by eexists].
    destruct cs; [done|]. case_bool_decide; by eexists. }
  exists n'. split; [done|]. rewrite (capture_keeps_children _ _ Hn').
  split; [done|]. apply Forall_forall. intros c Hc. by apply depth_child.
Qed.

Lemma raw_capture_pass_at tree position props fields cprops cfields v rest others :
  every_node capture_ok tree = true ->
  node_at position tree
  = Some (Element (js "pre") props fields
            (Element (js "code") cprops cfields (Text v :: rest) :: others)) ->
  exists tree' children',
    raw_capture_pass tree = Some tree'
    /\ node_at position tree'
       = Some (Element (js "pre") props
                 (<["__style__" := get props "__style__"]>
                    (<["__src__" := get props "__src__"]>
                       (<["__rawString__" := VString v]> fields)))
                 children').
Proof.
  intros Hok Hat. destruct (raw_capture_is_Some tree Hok) as [tree' Hpass].
  destruct (raw_capture_at _ _ _ _ _ _ _ _ _ _ Hpass Hat) as [children' Hat'].
  by exists tree', children'.
Qed.

Lemma depth_sans_properties n : depth (sans_properties n) = depth n.
Proof. by destruct n. Qed.

Lemma children_of_sans_properties n : children_of (sans_properties n) = children_of n.
Proof. by destruct n. Qed.

(** The hoist visitor keeps the node but for its children, and each child
    but for its properties. *)
Lemma hoist_visitor_top n :
  hoist_visitor n = with_children n (children_of (hoist_visitor n)).
Proof.
  destruct n as [v|tag props fields cs|cs|ty v]; try done.
  cbn [hoist_visitor]. repeat case_match; done.
Qed.

Lemma hoist_visitor_children n :
  Forall2 (fun c c' => sans_properties c' = sans_properties c)
    (children_of n) (children_of (hoist_visitor n)).
Proof.
  assert (Hrefl : forall cs : list node,
             Forall2 (fun c c' => sans_properties c' = sans_properties c) cs cs).
  { intros cs. by apply Forall_Forall2_diag, Forall_forall. }
  destruct n as [v|tag props fields cs|cs|ty v]; try apply Hrefl.
  cbn [hoist_visitor].
  destruct (truthy tag); [|apply Hrefl].
  destruct (last cs) as [[|ptag pprops pfields pcs| |]|] eqn:Hlast; try apply Hrefl.
  case_bool_decide; [|apply Hrefl]. cbn [children_of].
  rewrite last_lookup in Hlast.
  rewrite <- (list_insert_id cs _ _ Hlast) at 1.
  by apply Forall2_insert.
Qed.

Lemma node_at_sans_properties position c c1 t p f cs :
  sans_properties c1 = sans_properties c ->
  node_at position c = Some (Element t p f cs) ->
  exists p1, node_at position c1 = Some (Element t p1 f cs).
Proof.
  intros Hs. destruct position as [|i position].
  - intros [= ->]. destruct c1; try done. injection Hs as -> -> ->. by eexists.
  - cbn [node_at]. intros Hat. exists p.
    by rewrite <- (children_of_sans_properties c1), Hs, children_of_sans_properties.
Qed.

Lemma visit_hoist_top fuel t p f cs m :
  visit fuel (fun n => Some (hoist_visitor n)) (Element t p f cs) = Some m ->
  exists cs', m = Element t p f cs'.
Proof.
  intros (fuel' & n & cs' & _ & Hn & _ & -> & _)%visit_inv.
  apply (inj Some) in Hn as <-.
  rewrite hoist_visitor_top. cbn [with_children]. by eexists.
Qed.

(** Wherever a wrapper stands in the tree (an element with a tag whose
    last child is a [pre]), the hoist pass leaves under it a [pre] whose
    properties hold the raw text of the wrapper's field and the flag of
    the title bar. *)
Lemma metadata_hoist_at position :
  forall fuel tree tree' wtag wprops wfields front pprops pfields pchildren,
    visit fuel (fun n => Some (hoist_visitor n)) tree = Some tree' ->
    node_at position tree
    = Some (Element wtag wprops wfields
              (front ++ [Element (js "pre") pprops pfields pchildren])) ->
    truthy wtag = true ->
    exists pprops' pchildren',
      node_at (position ++ [length front]) tree'
      = Some (Element (js "pre") pprops' pfields pchildren')
      /\ get pprops' "__rawString__" = get wfields "__rawString__"
      /\ get pprops' "__withMeta__"
         = VBool (bool_decide
                    (head (front ++ [Element (js "pre") pprops pfields pchildren])
                       ≫= tagName_of = Some (js "div"))).
Proof.
  induction position as [|i position IH];
    intros fuel tree tree' wtag wprops wfields front pprops pfields pchildren Hv Hat Htag.
  - injection Hat as ->.
    apply visit_inv in Hv as (fuel' & n & cs & -> & Hn & Hcs & _ & Ht').
    apply (inj Some) in Hn as <-.
    destruct (hoist_on_wrapper wtag wprops wfields front pprops pfields pchildren Htag)
      as (pprops' & Hh & Hr & Hm).
    rewrite Hh in Hcs. cbn [children_of] in Hcs.
    assert (Hl : (front ++ [Element (js "pre") pprops' pfields pchildren]) !! length front
                 = Some (Element (js "pre") pprops' pfields pchildren))
      by (by rewrite lookup_app_r, Nat.sub_diag by lia).
    destruct (Forall2_lookup_l _ _ _ _ _ Hcs Hl) as (c' & Hc' & Hvc).
    apply visit_hoist_top in Hvc as [pcs' ->].
    exists pprops', pcs'. split; [|done]. cbn [app node_at]. by rewrite Ht', Hc'.
  - apply node_at_cons in Hat as (c & Hc & Hat).
    apply visit_inv in Hv as (fuel' & n & cs & -> & Hn & Hcs & _ & Ht').
    apply (inj Some) in Hn as <-.
    destruct (Forall2_lookup_l _ _ _ _ _ (hoist_visitor_children tree) Hc)
      as (c1 & Hc1 & Hs).
    destruct (node_at_sans_properties _ _ _ _ _ _ _ Hs Hat) as (wprops1 & Hat1).
    destruct (Forall2_lookup_l _ _ _ _ _ Hcs Hc1) as (c2 & Hc2 & Hvc).
    destruct (IH _ _ _ _ _ _ _ _ _ _ Hvc Hat1 Htag) as (pprops' & pcs' & Hfin & Hr & Hm).
    exists pprops', pcs'. split; [|done].
    cbn [app]. apply node_at_cons. exists c2. by rewrite Ht'.
Qed.

(** The hoist pass returns a tree, whatever the tree. *)
Lemma metadata_hoist_is_Some tree : is_Some (metadata_hoist_pass tree).
Proof.
  unfold metadata_hoist_pass.
  apply (visit_is_Some _ (fun _ => True)); [|lia|done].
  intros n _. eexists. split; [done|]. split; [by apply Forall_forall|].
  pose proof (hoist_visitor_children n) as H.
  apply Forall_forall. intros c' [i Hi]%list_elem_of_lookup.
  destruct (Forall2_lookup_r _ _ _ _ _ H Hi) as (c & Hc & Hs).
  rewrite <- (depth_sans_properties c'), Hs, depth_sans_properties.
  apply depth_child. apply list_elem_of_lookup. eauto.
Qed.

Lemma metadata_hoist_pass_at tree position wtag wprops wfields front pprops pfields pchildren :
  node_at position tree
  = Some (Element wtag wprops wfields
            (front ++ [Element (js "pre") pprops pfields pchildren])) ->
  truthy wtag = true ->
  exists tree' pprops' pchildren',
    metadata_hoist_pass tree = Some tree'
    /\ node_at (position ++ [length front]) tree'
       = Some (Element (js "pre") pprops' pfields pchildren')
    /\ get pprops' "__rawString__" = get wfields "__rawString__"
    /\ get pprops' "__withMeta__"
       = VBool (bool_decide
                  (head (front ++ [Element (js "pre") pprops pfields pchildren])
                     ≫= tagName_of = Some (js "div"))).
Proof.
  intros Hat Htag. destruct (metadata_hoist_is_Some tree) as [tree' Hpass].
  destruct (metadata_hoist_at _ _ _ _ _ _ _ _ _ _ _ Hpass Hat Htag)
    as (pprops' & pchildren' & H).
  by exists tree', pprops', pchildren'.
Qed.

End HoistPass.

(** ** The claims on the passes *)

(** C5, as the code has it.  Take a tree on which the pass does not throw
    (the raw command of every [pre] is absent or a string) and in it a
    [pre] element whose raw command is the string [s].  The pass returns
    a tree that has at the same place the [pre] with the four command
    properties written by the prefix of [s]: from [npm i] the three other
    commands replace that prefix by [yarn add], [pnpm add] and [bun add];
    from [npx create-] the yarn and pnpm commands replace that prefix by
    [yarn create ] and [pnpm create ], and the bun command replaces only
    the leading [npx] by [bunx --bun]; from another [npx] the yarn
    command is the command itself and the pnpm and bun commands replace
    [npx] by [pnpm dlx] and [bunx --bun]; with no such prefix the
    properties stay as they are. *)
Theorem package_manager_variants (tree : node) (position : list nat)
    (props fields : gmap string jsval) (children : list node) (s : jsstring) :
  every_node raw_command_ok tree = true ->
  node_at position tree = Some (Element (js "pre") props fields children) ->
  get props "__rawString__" = VString s ->
  exists tree' props' children',
    rehypeNpmCommand tree = Some tree'
    /\ node_at position tree' = Some (Element (js "pre") props' fields children')
    /\ (startsWith s (js "npm i") = true ->
        props' = with_commands s (js "yarn add" ++ drop 5 s)
                   (js "pnpm add" ++ drop 5 s) (js "bun add" ++ drop 5 s) props)
    /\ (startsWith s (js "npx create-") = true ->
        props' = with_commands s (js "yarn create " ++ drop 11 s)
                   (js "pnpm create " ++ drop 11 s) (js "bunx --bun" ++ drop 3 s) props)
    /\ (startsWith s (js "npx") = true -> startsWith s (js "npx create-") = false ->
        props' = with_commands s s (js "pnpm dlx" ++ drop 3 s)
                   (js "bunx --bun" ++ drop 3 s) props)
    /\ (startsWith s (js "npm i") = false -> startsWith s (js "npx") = false ->
        props' = props).
Proof.
  intros Hok Hat Hraw.
  destruct (rehypeNpmCommand_pass_at _ _ _ _ _ _ Hok Hat Hraw)
    as (tree' & children' & Hpass & Hat').
  exists tree', (variants s props), children'.
  split; [done|]. split; [done|].
  unfold variants. repeat split.
  - by intros ->.
  - intros H. rewrite H.
    destruct (startsWith s (js "npm i")) eqn:E; [|done].
    apply npm_not_npx in E. apply npx_create_is_npx in H. congruence.
  - intros H3 H2. rewrite H3, H2.
    destruct (startsWith s (js "npm i")) eqn:E; [|done].
    apply npm_not_npx in E. congruence.
  - intros H1 H3. by rewrite H1, H3, (not_npx_not_create s H3).
Qed.

Lemma package_manager_variants_witness :
  exists tree' props' children',
    rehypeNpmCommand (hoisted_tree (js "npx create-next-app")) = Some tree'
    /\ node_at [1; 0] tree' = Some (Element (js "pre") props' ∅ children')
    /\ get props' "__yarnCommand__" = VString (js "yarn create next-app")
    /\ get props' "__bunCommand__" = VString (js "bunx --bun create-next-app").
Proof.
  destruct (package_manager_variants (hoisted_tree (js "npx create-next-app")) [1; 0]
              {[ "__rawString__" := VString (js "npx create-next-app");
                 "__withMeta__" := VBool false ]} ∅
              [Element (js "code") ∅ ∅ [Text (js "npx create-next-app")]]
              (js "npx create-next-app"))
    as (tree' & props' & children' & Hpass & Hat & _ & Hcreate & _);
    [vm_compute; reflexivity|reflexivity|reflexivity|].
  exists tree', props', children'. split; [exact Hpass|]. split; [exact Hat|].
  rewrite (Hcreate eq_refl). split; apply get_with_commands.
Defined.

(** C5, as it is stated, fails in the scaffolding case: for
    [npx create-next-app] the bun command keeps the text [ create-] that
    the claim's substitution would remove. *)
Lemma scaffold_bun_command_differs :
  (properties_of <$> rehypeNpmCommand_visitor (command_block (js "npx create-next-app")))
  <> Some (claimed_variants (js "npx create-next-app")
             (properties_of (command_block (js "npx create-next-app"))))
  /\ ((fun n => get (properties_of n) "__bunCommand__")
        <$> rehypeNpmCommand_visitor (command_block (js "npx create-next-app")))
     = Some (VString (js "bunx --bun create-next-app"))
  /\ get (claimed_variants (js "npx create-next-app")
            (properties_of (command_block (js "npx create-next-app")))) "__bunCommand__"
     = VString (js "bunx --bunnext-app").
Proof.
  unfold command_block.
  rewrite (rehypeNpmCommand_on_string _ _ _ (js "npx create-next-app")) by reflexivity.
  cbn [fmap option_fmap option_map properties_of].
  assert (Hcode : get (variants (js "npx create-next-app")
                         {[ "__rawString__" := VString (js "npx create-next-app") ]})
                    "__bunCommand__" = VString (js "bunx --bun create-next-app"))
    by apply get_with_commands.
  assert (Hclaim : get (claimed_variants (js "npx create-next-app")
                          {[ "__rawString__" := VString (js "npx create-next-app") ]})
                     "__bunCommand__" = VString (js "bunx --bunnext-app"))
    by apply get_with_commands.
  split; [|split; [by rewrite Hcode|exact Hclaim]].
  intros Heq. apply (inj Some) in Heq. rewrite Heq, Hclaim in Hcode. discriminate.
Qed.

(** C10.  Take a tree on which the pass does not throw and in it a [pre]
    element whose raw command starts with [npm install].  The command
    passes the test for [npm i]: the pass returns a tree that has at the
    same place the [pre] with the yarn, pnpm and bun commands written by
    replacing the first occurrence of [npm i], which is the beginning of
    the command, so that the rest of the word [install] stays;
    [npm install pkg] gives the yarn command [yarn addnstall pkg]. *)
Theorem npm_install_prefix_match (tree : node) (position : list nat)
    (props fields : gmap string jsval) (children : list node) (s : jsstring) :
  every_node raw_command_ok tree = true ->
  node_at position tree = Some (Element (js "pre") props fields children) ->
  get props "__rawString__" = VString s ->
  startsWith s (js "npm install") = true ->
  exists tree' props' children',
    rehypeNpmCommand tree = Some tree'
    /\ node_at position tree' = Some (Element (js "pre") props' fields children')
    /\ get props' "__npmCommand__" = VString s
    /\ get props' "__yarnCommand__" = VString (replace s (js "npm i") (js "yarn add"))
    /\ get props' "__pnpmCommand__" = VString (replace s (js "npm i") (js "pnpm add"))
    /\ get props' "__bunCommand__" = VString (replace s (js "npm i") (js "bun add"))
    /\ replace s (js "npm i") (js "yarn add") = js "yarn addnstall" ++ drop 11 s
    /\ replace s (js "npm i") (js "pnpm add") = js "pnpm addnstall" ++ drop 11 s
    /\ replace s (js "npm i") (js "bun add") = js "bun addnstall" ++ drop 11 s
    /\ (s = js "npm install pkg" ->
        get props' "__yarnCommand__" = VString (js "yarn addnstall pkg")).
Proof.
  intros Hok Hat Hraw Hinstall.
  assert (Hi : startsWith s (js "npm i") = true)
    by by apply (startsWith_trans _ _ _ Hinstall).
  destruct (rehypeNpmCommand_pass_at _ _ _ _ _ _ Hok Hat Hraw)
    as (tree' & children' & Hpass & Hat').
  exists tree', (variants s props), children'.
  split; [done|]. split; [done|].
  unfold variants. rewrite Hi. rewrite !(replace_at_start s) by done.
  assert (Hrest : drop 5 s = js "nstall" ++ drop 11 s).
  { rewrite (startsWith_inv _ _ Hinstall) at 1. reflexivity. }
  repeat split; try apply get_with_commands.
  - cbn [length js map String.list_ascii_of_string]. by rewrite Hrest.
  - cbn [length js map String.list_ascii_of_string]. by rewrite Hrest.
  - cbn [length js map String.list_ascii_of_string]. by rewrite Hrest.
  - intros ->.
    by rewrite (proj1 (proj2 (get_with_commands _ _ _ _ _))).
Qed.

Lemma npm_install_prefix_match_witness :
  exists tree' props' children',
    rehypeNpmCommand (hoisted_tree (js "npm install pkg")) = Some tree'
    /\ node_at [1; 0] tree' = Some (Element (js "pre") props' ∅ children')
    /\ get props' "__yarnCommand__" = VString (js "yarn addnstall pkg").
Proof.
  destruct (npm_install_prefix_match (hoisted_tree (js "npm install pkg")) [1; 0]
              {[ "__rawString__" := VString (js "npm install pkg");
                 "__withMeta__" := VBool false ]} ∅
              [Element (js "code") ∅ ∅ [Text (js "npm install pkg")]]
              (js "npm install pkg"))
    as (tree' & props' & children' & Hpass & Hat & _ & _ & _ & _ & _ & _ & _ & Hex);
    [vm_compute; reflexivity|reflexivity|reflexivity|reflexivity|].
  exists tree', props', children'. split; [exact Hpass|]. split; [exact Hat|].
  by apply Hex.
Defined.

(** C6.  The text [v] of a fenced code block survives the highlighter.
    Take a parsed tree on which the capture pass does not throw (every
    [pre] has a child) and in it a code block: a [pre] whose first child
    is a [code] element that begins with the text [v].  The capture pass
    returns a tree that has at the same place the [pre] with [v] in its
    field [__rawString__].  The highlighter turns that node object into
    the wrapper: an element that keeps the fields of the node and whose
    last child is the new [pre].  For every tree that holds such a
    wrapper, the hoist pass returns a tree in which the new [pre] has the
    property [__rawString__] equal to [v], unchanged, and the property
    [__withMeta__] equal to a boolean that is true exactly when the first
    child of the wrapper is a [div] element; the visitor of the
    package-manager pass, which runs next, leaves [__rawString__] as it
    is. *)
Theorem raw_source_survives_highlighting (tree : node) (position : list nat)
    (props fields cprops cfields : gmap string jsval) (v : jsstring)
    (rest others : list node) :
  every_node capture_ok tree = true ->
  node_at position tree
  = Some (Element (js "pre") props fields
            (Element (js "code") cprops cfields (Text v :: rest) :: others)) ->
  exists captured fields' children',
    raw_capture_pass tree = Some captured
    /\ node_at position captured = Some (Element (js "pre") props fields' children')
    /\ get fields' "__rawString__" = VString v
    /\ forall (highlighted : node) (place : list nat) (wtag : jsstring)
              (wprops pprops pfields : gmap string jsval)
              (front pchildren : list node),
        node_at place highlighted
        = Some (Element wtag wprops fields'
                  (front ++ [Element (js "pre") pprops pfields pchildren])) ->
        truthy wtag = true ->
        exists hoisted pprops' (withMeta : bool) pchildren',
          metadata_hoist_pass highlighted = Some hoisted
          /\ node_at (place ++ [length front]) hoisted
             = Some (Element (js "pre") pprops' pfields pchildren')
          /\ get pprops' "__rawString__" = VString v
          /\ get pprops' "__withMeta__" = VBool withMeta
          /\ (withMeta = true <->
              exists dprops dfields dchildren tail,
                front ++ [Element (js "pre") pprops pfields pchildren]
                = Element (js "div") dprops dfields dchildren :: tail)
          /\ exists final,
               rehypeNpmCommand_visitor (Element (js "pre") pprops' pfields pchildren')
               = Some (Element (js "pre") final pfields pchildren')
               /\ get final "__rawString__" = VString v.
Proof.
  intros Hok Hat.
  destruct (raw_capture_pass_at _ _ _ _ _ _ _ _ _ Hok Hat)
    as (captured & children' & Hpass & Hat').
  eexists captured, _, children'. split; [exact Hpass|]. split; [exact Hat'|].
  assert (Hraw : get (<["__style__" := get props "__style__"]>
                        (<["__src__" := get props "__src__"]>
                           (<["__rawString__" := VString v]> fields))) "__rawString__"
                 = VString v)
    by (by rewrite !get_insert_ne, get_insert_eq by done).
  split; [exact Hraw|].
  intros highlighted place wtag wprops pprops pfields front pchildren Hw Htag.
  destruct (metadata_hoist_pass_at _ _ _ _ _ _ _ _ _ Hw Htag)
    as (hoisted & pprops' & pchildren' & Hhoist & Hnew & Hr & Hm).
  rewrite Hraw in Hr.
  exists hoisted, pprops',
    (bool_decide (head (front ++ [Element (js "pre") pprops pfields pchildren])
                    ≫= tagName_of = Some (js "div"))), pchildren'.
  split; [exact Hhoist|]. split; [exact Hnew|]. split; [exact Hr|].
  split; [exact Hm|]. split; [apply first_child_is_div|].
  exists (variants v pprops'). split.
  - by apply rehypeNpmCommand_on_string.
  - by rewrite variants_keep_raw.
Qed.

Lemma raw_source_survives_highlighting_witness :
  exists captured fields' children',
    raw_capture_pass (parsed_tree (js "npm i pkg")) = Some captured
    /\ node_at [1] captured = Some (Element (js "pre") ∅ fields' children')
    /\ exists hoisted pprops' pchildren',
         metadata_hoist_pass (wrapped_tree fields') = Some hoisted
         /\ node_at [1; 1] hoisted = Some (Element (js "pre") pprops' ∅ pchildren')
         /\ get pprops' "__rawString__" = VString (js "npm i pkg")
         /\ get pprops' "__withMeta__" = VBool true.
Proof.
  destruct (raw_source_survives_highlighting (parsed_tree (js "npm i pkg")) [1]
              ∅ ∅ ∅ ∅ (js "npm i pkg") [] [])
    as (captured & fields' & children' & Hpass & Hat & _ & Hw);
    [vm_compute; reflexivity|reflexivity|].
  exists captured, fields', children'. split; [exact Hpass|]. split; [exact Hat|].
  destruct (Hw (wrapped_tree fields') [1] (js "figure") ∅ ∅ ∅
              [Element (js "div") ∅ ∅ [Text (js "terminal")]]
              [Element (js "code") ∅ ∅ [Element (js "span") ∅ ∅ [Text (js "highlighted")]]])
    as (hoisted & pprops' & withMeta & pchildren' & Hh & Hn & Hr & Hm & [_ Hdiv] & _);
    [reflexivity|reflexivity|].
  exists hoisted, pprops', pchildren'. split; [exact Hh|]. split; [exact Hn|].
  split; [exact Hr|]. rewrite Hm, Hdiv; [reflexivity|]. by eexists _, _, _, _.
Defined.
(** ** The passes on whole trees *)

Example passes_on_highlighted_tree :
  (metadata_hoist_pass (highlighted_tree (js "npm install pkg")) ≫= rehypeNpmCommand)
     ≫= node_at [2; 1]
  = Some (Element (js "pre")
            (with_commands (js "npm install pkg") (js "yarn addnstall pkg")
               (js "pnpm addnstall pkg") (js "bun addnstall pkg")
               (<["__rawString__" := VString (js "npm install pkg")]>
                  {[ "__withMeta__" := VBool true ]}))
            ∅
            [Element (js "code") ∅ ∅
               [Element (js "span") {[ "className" := VStrings [js "line"] ]} ∅
                  [Text (js "npm install pkg")]]]).
Proof. vm_compute. reflexivity. Qed.

(** * Further properties of the code *)

(** ** HTML escaping *)

Section EscapeFacts.

Import Escape.

Implicit Types (s code : jsstring) (c : N).

Lemma replace_all_app s1 s2 c rep :
  replace_all (s1 ++ s2) c rep = replace_all s1 c rep ++ replace_all s2 c rep.
Proof.
  induction s1 as [|x s1 IH]; [done|].
  cbn [app replace_all]. by rewrite IH, app_assoc.
Qed.

Lemma escapedCode_cons c code : escapedCode (c :: code) = entity c ++ escapedCode code.
Proof.
  unfold escapedCode. cbn [replace_all]. rewrite !replace_all_app. f_equal.
  unfold entity.
  destruct (c =? amp)%N eqn:E1; [reflexivity|]. cbn [replace_all]. rewrite app_nil_r.
  destruct (c =? lt)%N eqn:E2; [reflexivity|]. cbn [replace_all]. rewrite app_nil_r.
  destruct (c =? gt)%N eqn:E3; [reflexivity|]. cbn [replace_all]. rewrite app_nil_r.
  destruct (c =? quot)%N eqn:E4; [reflexivity|]. cbn [replace_all]. rewrite app_nil_r.
  destruct (c =? apos)%N eqn:E5; [reflexivity|]. reflexivity.
Qed.

Lemma entity_cases c :
  (c = amp /\ entity c = js "&amp;") \/ (c = lt /\ entity c = js "&lt;")
  \/ (c = gt /\ entity c = js "&gt;") \/ (c = quot /\ entity c = js "&quot;")
  \/ (c = apos /\ entity c = js "&#039;")
  \/ (c <> amp /\ c <> lt /\ c <> gt /\ c <> quot /\ c <> apos /\ entity c = [c]).
Proof.
  unfold entity.
  destruct (N.eqb_spec c amp); [by left|].
  destruct (N.eqb_spec c lt); [by right; left|].
  destruct (N.eqb_spec c gt); [by right; right; left|].
  destruct (N.eqb_spec c quot); [by right; right; right; left|].
  destruct (N.eqb_spec c apos); [by right; right; right; right; left|].
  by repeat right.
Qed.

(** The entities form a prefix code: a text that begins with the entity
    of [x] and with the entity of [y] has [x = y]. *)
Lemma entity_prefix x y (A B : jsstring) :
  entity x ++ A = entity y ++ B -> x = y /\ A = B.
Proof.
  destruct (entity_cases x) as [[-> ->]|[[-> ->]|[[-> ->]|[[-> ->]|[[-> ->]|Hx]]]]];
  destruct (entity_cases y) as [[-> ->]|[[-> ->]|[[-> ->]|[[-> ->]|[[-> ->]|Hy]]]]];
    try destruct Hx as (? & ? & ? & ? & ? & ->);
    try destruct Hy as (? & ? & ? & ? & ? & ->);
    intros Heq; inversion Heq; subst; done.
Qed.

Lemma entity_nonempty c : entity c <> [].
Proof.
  destruct (entity_cases c) as [[_ ->]|[[_ ->]|[[_ ->]|[[_ ->]|[[_ ->]|H]]]]]; try done.
  destruct H as (_ & _ & _ & _ & _ & ->). done.
Qed.

Lemma escapedCode_inj code1 code2 : escapedCode code1 = escapedCode code2 -> code1 = code2.
Proof.
  revert code2. induction code1 as [|x code1 IH]; intros [|y code2]; [done| | |].
  - rewrite escapedCode_cons. intros H. symmetry in H.
    apply app_eq_nil in H as [H _]. by destruct (entity_nonempty y).
  - rewrite escapedCode_cons. intros H.
    apply app_eq_nil in H as [H _]. by destruct (entity_nonempty x).
  - rewrite !escapedCode_cons. intros [-> H]%entity_prefix. by rewrite (IH _ H).
Qed.

End EscapeFacts.

(** X1.  The five replacements of [highlightServerCode], made one after
    the other, escape the text in one pass: every code unit is replaced
    by its entity, [&] by [&amp;], [<] by [&lt;], [>] by [&gt;], the
    double quote by [&quot;] and the single quote by [&#039;], any other
    code unit by itself, and no entity is escaped again. *)
Theorem highlightServerCode_one_pass (code : jsstring) :
  Escape.highlightServerCode code
  = js "<code>" ++ flat_map Escape.entity code ++ js "</code>".
Proof.
  unfold Escape.highlightServerCode. do 2 f_equal.
  induction code as [|c code IH]; [done|].
  rewrite escapedCode_cons. cbn [flat_map]. by rewrite IH.
Qed.

(** X2.  [highlightServerCode] is injective: two texts with the same
    escaped markup are the same text. *)
Theorem highlightServerCode_injective (code1 code2 : jsstring) :
  Escape.highlightServerCode code1 = Escape.highlightServerCode code2 -> code1 = code2.
Proof.
  unfold Escape.highlightServerCode. intros H.
  apply app_inv_head in H. apply app_inv_tail in H. by apply escapedCode_inj.
Qed.

Lemma highlightServerCode_injective_witness : js "a<b" = js "a<b".
Proof.
  apply (highlightServerCode_injective (js "a<b") (js "a<b")). reflexivity.
Defined.

(** X3.  The escaped text holds none of the characters [<], [>], double
    quote and single quote, whatever the code, and a code without [&] and
    without these characters is returned as it is. *)
Theorem escapedCode_has_no_markup (code : jsstring) :
  Forall (fun c => c <> Escape.lt /\ c <> Escape.gt /\ c <> Escape.quot /\ c <> Escape.apos)
    (Escape.escapedCode code)
  /\ (Forall (fun c => c <> Escape.amp /\ c <> Escape.lt /\ c <> Escape.gt
                      /\ c <> Escape.quot /\ c <> Escape.apos) code ->
      Escape.escapedCode code = code).
Proof.
  split.
  - induction code as [|c code IH]; [by constructor|].
    rewrite escapedCode_cons. apply Forall_app. split; [|done].
    destruct (entity_cases c) as [[_ ->]|[[_ ->]|[[_ ->]|[[_ ->]|[[_ ->]|H]]]]];
      try (by repeat constructor).
    destruct H as (_ & ? & ? & ? & ? & ->). by repeat constructor.
  - induction 1 as [|c code (N1 & N2 & N3 & N4 & N5) _ IH]; [done|].
    rewrite escapedCode_cons, IH.
    destruct (entity_cases c) as [[? _]|[[? _]|[[? _]|[[? _]|[[? _]|Hc]]]]]; try done.
    destruct Hc as (_ & _ & _ & _ & _ & ->). done.
Qed.

Lemma escapedCode_has_no_markup_witness :
  Escape.escapedCode (js "const x = 1") = js "const x = 1".
Proof.
  apply (proj2 (escapedCode_has_no_markup (js "const x = 1"))).
  refine (bool_decide_eq_true_1 _ _). vm_compute. reflexivity.
Defined.

Example highlightServerCode_example :
  Escape.highlightServerCode (js "if (a < b && c > d) s = 'x'")
  = js "<code>if (a &lt; b &amp;&amp; c &gt; d) s = &#039;x&#039;</code>".
Proof. reflexivity. Qed.

(** ** [toKebabCase] *)

Section KebabFacts.

Import Kebab.

Implicit Types (s : jsstring) (c : N).

Lemma is_upper_spec c : is_upper c = true <-> (65 <= c <= 90)%N.
Proof. unfold is_upper. rewrite andb_true_iff, !N.leb_le. lia. Qed.

Lemma is_space_ascii_letter c : (97 <= c <= 122)%N -> is_space c = false.
Proof.
  intros H. unfold is_space.
  repeat (rewrite orb_false_iff || rewrite andb_false_iff).
  rewrite ?N.leb_gt, ?N.eqb_neq. lia.
Qed.

(** The induction that follows the two-letter steps of
    [hyphenate_camel]. *)
Lemma hyphenate_camel_ind (R : jsstring -> Prop) :
  R [] -> (forall a, R [a]) ->
  (forall a b s, is_lower a && is_upper b = true -> R s -> R (a :: b :: s)) ->
  (forall a b s, is_lower a && is_upper b = false -> R (b :: s) -> R (a :: b :: s)) ->
  forall s, R s.
Proof.
  intros Hnil Hone Hmatch Hskip s.
  enough (R s /\ forall a, R (a :: s)) by tauto.
  induction s as [|b s [IHs IHb]]; [by split|].
  split; [apply IHb|]. intros a.
  destruct (is_lower a && is_upper b) eqn:E; [by apply Hmatch|by apply Hskip].
Qed.

Lemma hyphenate_camel_match a b s :
  is_lower a && is_upper b = true ->
  hyphenate_camel (a :: b :: s) = a :: hyphen :: b :: hyphenate_camel s.
Proof. intros H. cbn [hyphenate_camel]. by rewrite H. Qed.

Lemma hyphenate_camel_skip a b s :
  is_lower a && is_upper b = false ->
  hyphenate_camel (a :: b :: s) = a :: hyphenate_camel (b :: s).
Proof. intros H. cbn [hyphenate_camel]. by rewrite H. Qed.

Lemma hyphenate_camel_ascii s :
  Forall (fun c => (c < 128)%N) s -> Forall (fun c => (c < 128)%N) (hyphenate_camel s).
Proof.
  induction s as [| |a b s E IH|a b s E IH] using hyphenate_camel_ind; try done.
  - rewrite hyphenate_camel_match by done.
    intros Ha. inversion Ha as [|? ? Ha1 Hb]. inversion Hb as [|? ? Hb1 Hs]. subst.
    repeat constructor; try done. by apply IH.
  - rewrite hyphenate_camel_skip by done. intros [? ?]%Forall_cons_1.
    constructor; [done|]. by apply IH.
Qed.

Lemma collapse_separators_ascii b s :
  Forall (fun c => (c < 128)%N) s ->
  Forall (fun c => (c < 128)%N) (collapse_separators b s).
Proof.
  intros H. revert b. induction H as [|c s Hc _ IH]; intros b; [done|].
  cbn [collapse_separators].
  destruct (is_space c || (c =? underscore)%N); [destruct b|]; try constructor; try done.
Qed.

Lemma collapse_separators_clean b s :
  Forall (fun c => is_space c = false /\ c <> underscore) (collapse_separators b s).
Proof.
  revert b. induction s as [|c s IH]; intros b; [done|].
  cbn [collapse_separators].
  destruct (is_space c || (c =? underscore)%N) eqn:E.
  - destruct b; [done|]. constructor; [|done]. by split.
  - apply orb_false_elim in E as [Es Eu]. constructor; [|done].
    split; [done|]. by apply N.eqb_neq.
Qed.

Lemma is_ascii_Forall s : is_ascii s = true <-> Forall (fun c => (c < 128)%N) s.
Proof.
  unfold is_ascii. rewrite forallb_forall, Forall_forall.
  split; intros H c Hc.
  - apply N.ltb_lt, H. by apply list_elem_of_In.
  - apply N.ltb_lt, H. by apply list_elem_of_In.
Qed.

Lemma lower_ascii_kebab c :
  (c < 128)%N -> is_space c = false -> c <> underscore -> kebab_unit (lower_ascii c).
Proof.
  intros H1 H2 H3. unfold kebab_unit, lower_ascii.
  destruct (is_upper c) eqn:E.
  - apply is_upper_spec in E.
    assert (is_upper (c + 32) = false) as Hu.
    { apply not_true_is_false. rewrite is_upper_spec. lia. }
    rewrite Hu, is_space_ascii_letter by lia. unfold underscore. repeat split; lia.
  - by rewrite E.
Qed.

Lemma lower_ascii_fixed c : is_upper c = false -> lower_ascii c = c.
Proof. unfold lower_ascii. by intros ->. Qed.

(** A kebab-case text is a fixed point of the three steps. *)
Lemma hyphenate_camel_fixed s : Forall kebab_unit s -> hyphenate_camel s = s.
Proof.
  induction s as [| |a b s E IH|a b s E IH] using hyphenate_camel_ind; try done.
  - intros Ha. inversion Ha as [|? ? _ Hb]. inversion Hb as [|? ? (_ & Hu & _) _]. subst.
    rewrite Hu, andb_false_r in E. done.
  - rewrite hyphenate_camel_skip by done. intros Ha. inversion Ha. subst.
    by rewrite IH.
Qed.

Lemma collapse_separators_fixed s :
  Forall kebab_unit s -> collapse_separators false s = s.
Proof.
  induction 1 as [|c s (_ & _ & Hs & Hu) _ IH]; [done|].
  cbn [collapse_separators]. apply N.eqb_neq in Hu. by rewrite Hs, Hu, IH.
Qed.

Lemma toLowerCase_fixed beyond s : Forall kebab_unit s -> toLowerCase beyond s = s.
Proof.
  intros H. unfold toLowerCase.
  assert (is_ascii s = true) as ->.
  { apply is_ascii_Forall. eapply Forall_impl; [done|]. by intros c [? _]. }
  induction H as [|c s (_ & Hu & _) _ IH]; [done|].
  cbn [map]. by rewrite lower_ascii_fixed, IH.
Qed.

Lemma toKebabCase_kebab beyond s :
  is_ascii s = true -> Forall kebab_unit (toKebabCase beyond s).
Proof.
  intros Hs%is_ascii_Forall. unfold toKebabCase, toLowerCase.
  pose proof (collapse_separators_ascii false _ (hyphenate_camel_ascii _ Hs)) as Ha.
  pose proof (collapse_separators_clean false (hyphenate_camel s)) as Hc.
  rewrite (proj2 (is_ascii_Forall _) Ha).
  rewrite Forall_forall in *. intros c (x & -> & Hx)%list_elem_of_fmap.
  destruct (Hc x Hx). by apply lower_ascii_kebab; [apply Ha|..].
Qed.

End KebabFacts.

(** X4.  The kebab-case form of a text of ASCII code units holds ASCII
    code units only, and among them no upper-case letter, no white space
    and no underscore. *)
Theorem toKebabCase_alphabet (beyond_ascii : jsstring -> jsstring) (text : jsstring) :
  Kebab.is_ascii text = true ->
  Forall Kebab.kebab_unit (Kebab.toKebabCase beyond_ascii text).
Proof. apply toKebabCase_kebab. Qed.

Lemma toKebabCase_alphabet_witness :
  Forall Kebab.kebab_unit (Kebab.toKebabCase (fun s => s) (js "Aura Theme")).
Proof. apply (toKebabCase_alphabet (fun s => s) (js "Aura Theme")). reflexivity. Defined.

(** X5.  [toKebabCase] is idempotent on texts of ASCII code units: the
    kebab-case form of a kebab-case form is that form. *)
Theorem toKebabCase_idempotent (beyond_ascii : jsstring -> jsstring) (text : jsstring) :
  Kebab.is_ascii text = true ->
  Kebab.toKebabCase beyond_ascii (Kebab.toKebabCase beyond_ascii text)
  = Kebab.toKebabCase beyond_ascii text.
Proof.
  intros H%(toKebabCase_kebab beyond_ascii).
  unfold Kebab.toKebabCase at 1.
  by rewrite hyphenate_camel_fixed, collapse_separators_fixed, toLowerCase_fixed.
Qed.

Lemma toKebabCase_idempotent_witness :
  Kebab.toKebabCase (fun s => s) (Kebab.toKebabCase (fun s => s) (js "myTheme_dark  Mode"))
  = Kebab.toKebabCase (fun s => s) (js "myTheme_dark  Mode").
Proof.
  apply (toKebabCase_idempotent (fun s => s) (js "myTheme_dark  Mode")). reflexivity.
Defined.

Example toKebabCase_examples :
  Kebab.toKebabCase (fun s => s) (js "Aura Theme") = js "aura-theme"
  /\ Kebab.toKebabCase (fun s => s) (js "myTheme_dark  Mode") = js "my-theme-dark-mode"
  /\ Kebab.toKebabCase (fun s => s) (js "aBC") = js "a-bc"
  /\ Kebab.toKebabCase (fun s => s) (js "XMLParser") = js "xmlparser".
Proof. repeat split; reflexivity. Qed.

(** ** The todo store *)

Section StoreFacts.

Import Stores.

Implicit Types (todos : list Todo) (i uuid : jsstring).

Lemma toggleTodo_ids i todos : map id (toggleTodo i todos) = map id todos.
Proof.
  unfold toggleTodo. rewrite map_map. apply map_ext. intros todo.
  by case_bool_decide.
Qed.

Lemma removeTodo_ids i todos :
  map id (removeTodo i todos) = List.filter (fun j => negb (bool_decide (j = i))) (map id todos).
Proof.
  unfold removeTodo. induction todos as [|todo todos IH]; [done|].
  cbn [List.filter map]. destruct (negb (bool_decide (id todo = i))); cbn [map]; by rewrite IH.
Qed.

Lemma NoDup_list_filter {A} (f : A -> bool) (l : list A) :
  NoDup l -> NoDup (List.filter f l).
Proof.
  induction 1 as [|x l Hx _ IH]; [constructor|].
  cbn [List.filter]. destruct (f x); [|done]. constructor; [|done].
  rewrite list_elem_of_In, filter_In, <- list_elem_of_In. tauto.
Qed.

Lemma NoDup_map_filter {A B} (g : A -> B) (f : A -> bool) (l : list A) :
  NoDup (map g l) -> NoDup (map g (List.filter f l)).
Proof.
  induction l as [|x l IH]; [done|]. cbn [map List.filter].
  intros [Hx Hl]%NoDup_cons. destruct (f x); [|by apply IH].
  cbn [map]. apply NoDup_cons. split; [|by apply IH].
  intros (y & Hy & Hin)%list_elem_of_fmap. apply Hx.
  apply list_elem_of_fmap. exists y. split; [done|].
  apply list_elem_of_In. apply list_elem_of_In in Hin. by apply filter_In in Hin as [? _].
Qed.

Lemma trim_empty_iff (s : jsstring) : trim s = [] <-> forallb is_space s = true.
Proof.
  unfold trim. induction s as [|c s IH]; [done|].
  cbn [trimStart forallb]. destruct (is_space c) eqn:E; [exact IH|].
  split; [|done]. destruct (trimEnd_head c s E) as [t ->]. done.
Qed.

End StoreFacts.

(** X6.  Toggling the same todo twice gives the list back. *)
Theorem toggleTodo_involutive (i : jsstring) (todos : list Stores.Todo) :
  Stores.toggleTodo i (Stores.toggleTodo i todos) = todos.
Proof.
  unfold Stores.toggleTodo. rewrite map_map. rewrite <- (map_id todos) at 2.
  apply map_ext. intros [j t c]. cbn [Stores.id Stores.text Stores.completed].
  destruct (decide (j = i)) as [Hj|Hj].
  - rewrite (bool_decide_eq_true_2 _ Hj). cbn [Stores.id Stores.text Stores.completed].
    by rewrite (bool_decide_eq_true_2 _ Hj), negb_involutive.
  - rewrite (bool_decide_eq_false_2 _ Hj). cbn [Stores.id].
    by rewrite (bool_decide_eq_false_2 _ Hj).
Qed.

(** X7.  Removing the todo that was just added, whose id no other todo
    has, gives the list back. *)
Theorem removeTodo_after_addTodo (uuid text : jsstring) (todos : list Stores.Todo) :
  uuid ∉ map Stores.id todos ->
  Stores.removeTodo uuid (Stores.addTodo uuid text todos) = todos.
Proof.
  intros Hfresh. unfold Stores.removeTodo, Stores.addTodo.
  rewrite List.filter_app. cbn [List.filter Stores.id].
  rewrite bool_decide_eq_true_2 by done. cbn [negb]. rewrite app_nil_r.
  induction todos as [|todo todos IH]; [done|].
  cbn [map] in Hfresh. apply not_elem_of_cons in Hfresh as [Hne Hfresh].
  cbn [List.filter]. rewrite bool_decide_eq_false_2 by done. cbn [negb].
  by rewrite IH.
Qed.

Lemma removeTodo_after_addTodo_witness :
  Stores.removeTodo (js "b")
    (Stores.addTodo (js "b") (js "write")
       [{| Stores.id := js "a"; Stores.text := js "read"; Stores.completed := true |}])
  = [{| Stores.id := js "a"; Stores.text := js "read"; Stores.completed := true |}].
Proof.
  apply (removeTodo_after_addTodo (js "b") (js "write")
           [{| Stores.id := js "a"; Stores.text := js "read"; Stores.completed := true |}]).
  refine (bool_decide_eq_true_1 _ _). vm_compute. reflexivity.
Defined.

(** X8.  The ids of the todos stay pairwise distinct: when they are, they
    still are after a toggle, a removal and a clearing of the completed
    todos, and after an addition whose fresh id no todo has. *)
Theorem todo_ids_stay_distinct (todos : list Stores.Todo) :
  NoDup (map Stores.id todos) ->
  (forall i, NoDup (map Stores.id (Stores.toggleTodo i todos)))
  /\ (forall i, NoDup (map Stores.id (Stores.removeTodo i todos)))
  /\ NoDup (map Stores.id (Stores.clearCompleted todos))
  /\ (forall uuid text,
        uuid ∉ map Stores.id todos ->
        NoDup (map Stores.id (Stores.addTodo uuid text todos))).
Proof.
  intros Hnd. repeat split.
  - intros i. by rewrite toggleTodo_ids.
  - intros i. by apply NoDup_map_filter.
  - by apply NoDup_map_filter.
  - intros uuid text Hfresh. unfold Stores.addTodo. rewrite map_app. cbn [map Stores.id].
    apply NoDup_app. split; [done|]. split; [|apply NoDup_singleton].
    intros j Hj ->%list_elem_of_singleton. done.
Qed.

Lemma todo_ids_stay_distinct_witness :
  NoDup (map Stores.id
           (Stores.addTodo (js "b") (js "write")
              [{| Stores.id := js "a"; Stores.text := js "read"; Stores.completed := true |}])).
Proof.
  destruct (todo_ids_stay_distinct
              [{| Stores.id := js "a"; Stores.text := js "read"; Stores.completed := true |}])
    as (_ & _ & _ & Hadd).
  - refine (bool_decide_eq_true_1 _ _). vm_compute. reflexivity.
  - apply Hadd. refine (bool_decide_eq_true_1 _ _). vm_compute. reflexivity.
Defined.

(** X9.  Completing todos and clearing the completed ones removes them:
    when every todo with the id [i] is still open, toggling [i] and then
    clearing gives what removing [i] from the cleared list gives. *)
Theorem clearCompleted_after_toggleTodo (i : jsstring) (todos : list Stores.Todo) :
  (forall todo, todo ∈ todos -> Stores.id todo = i -> Stores.completed todo = false) ->
  Stores.clearCompleted (Stores.toggleTodo i todos)
  = Stores.removeTodo i (Stores.clearCompleted todos).
Proof.
  intros Hopen. induction todos as [|[j t c] todos IH]; [done|].
  assert (Htl : forall todo, todo ∈ todos -> Stores.id todo = i -> Stores.completed todo = false).
  { intros todo Hin. apply Hopen. by apply list_elem_of_further. }
  specialize (IH Htl). unfold Stores.clearCompleted, Stores.removeTodo, Stores.toggleTodo in *.
  cbn [map List.filter Stores.id Stores.completed Stores.text].
  case_bool_decide as Hj.
  - assert (c = false) as -> by (apply (Hopen {| Stores.id := j; Stores.text := t;
                                                 Stores.completed := c |});
                                 [apply list_elem_of_here|done]).
    cbn [negb List.filter Stores.id Stores.completed].
    rewrite bool_decide_eq_true_2 by done. cbn [negb]. exact IH.
  - destruct c; cbn [negb List.filter Stores.id Stores.completed]; [exact IH|].
    rewrite bool_decide_eq_false_2 by done. cbn [negb]. by rewrite IH.
Qed.

Lemma clearCompleted_after_toggleTodo_witness :
  Stores.clearCompleted
    (Stores.toggleTodo (js "a")
       [{| Stores.id := js "a"; Stores.text := js "read"; Stores.completed := false |};
        {| Stores.id := js "b"; Stores.text := js "write"; Stores.completed := false |}])
  = [{| Stores.id := js "b"; Stores.text := js "write"; Stores.completed := false |}].
Proof.
  apply (clearCompleted_after_toggleTodo (js "a")
           [{| Stores.id := js "a"; Stores.text := js "read"; Stores.completed := false |};
            {| Stores.id := js "b"; Stores.text := js "write"; Stores.completed := false |}]).
  intros todo Hin _. rewrite !elem_of_cons, elem_of_nil in Hin.
  destruct Hin as [->|[->|[]]]; reflexivity.
Defined.

(** X10.  The form of the demo page adds no todo for a text of white
    space only (the empty text included); for any other text it appends
    one open todo that holds the text as it was typed, not trimmed. *)
Theorem handleAddTodo_blank (uuid text : jsstring) (todos : list Stores.Todo) :
  (forallb is_space text = true -> Stores.handleAddTodo uuid text todos = todos)
  /\ (forallb is_space text = false ->
      Stores.handleAddTodo uuid text todos
      = todos ++ [{| Stores.id := uuid; Stores.text := text; Stores.completed := false |}]).
Proof.
  unfold Stores.handleAddTodo. split; intros H.
  - by rewrite (proj2 (trim_empty_iff text) H).
  - destruct (trim text) eqn:E; [|done].
    apply trim_empty_iff in E. congruence.
Qed.

Lemma handleAddTodo_blank_witness :
  Stores.handleAddTodo (js "a") (js "   ") [] = []
  /\ Stores.handleAddTodo (js "a") (js " read ") []
     = [{| Stores.id := js "a"; Stores.text := js " read "; Stores.completed := false |}].
Proof.
  destruct (handleAddTodo_blank (js "a") (js "   ") []) as [H1 _].
  destruct (handleAddTodo_blank (js "a") (js " read ") []) as [_ H2].
  split; [apply H1|apply H2]; reflexivity.
Defined.

(** ** Segments of a path *)

Section SegmentFacts.

Implicit Types (s p q l : jsstring) (c sep : N).

Lemma split_no_separator s sep : sep ∉ s -> split s sep = [s].
Proof.
  induction s as [|c s IH]; [done|].
  rewrite not_elem_of_cons. intros [Hc Hs]. cbn [split].
  destruct (N.eqb_spec c sep) as [->|_]; [done|]. by rewrite IH.
Qed.

Lemma split_app_separator p q sep :
  sep ∉ p -> split (p ++ sep :: q) sep = p :: split q sep.
Proof.
  induction p as [|c p IH]; intros Hp.
  - cbn [app split]. by rewrite N.eqb_refl.
  - apply not_elem_of_cons in Hp as [Hc Hp]. cbn [app split].
    destruct (N.eqb_spec c sep) as [->|_]; [done|]. by rewrite IH.
Qed.

Lemma startsWith_cons c s d p :
  startsWith (c :: s) (d :: p) = (d =? c)%N && startsWith s p.
Proof. reflexivity. Qed.

Lemma startsWith_app_head p s q : startsWith (p ++ s) (p ++ q) = startsWith s q.
Proof.
  induction p as [|c p IH]; [done|].
  cbn [app]. by rewrite startsWith_cons, N.eqb_refl, IH.
Qed.

(** The first segment of [q] is [l] exactly when [q] is [l] or begins
    with [l] and a separator. *)
Lemma first_segment_eq q l sep :
  sep ∉ l ->
  head (split q sep) = Some l <-> q = l \/ startsWith q (l ++ [sep]) = true.
Proof.
  revert q. induction l as [|a l IH]; intros q Hl.
  - destruct q as [|c q]; [cbn; tauto|]. cbn [split app].
    rewrite startsWith_cons. destruct (N.eqb_spec c sep) as [->|Hc].
    + rewrite N.eqb_refl. cbn. tauto.
    + pose proof (split_nonempty q sep).
      destruct (split q sep) as [|w ws]; [done|].
      destruct (N.eqb_spec sep c) as [->|_]; [done|]. cbn. split; [done|].
      intros [|]; done.
  - apply not_elem_of_cons in Hl as [Ha Hl].
    destruct q as [|c q]; [cbn; split; [done|intros [|]; done]|].
    specialize (IH q Hl). cbn [split app]. rewrite startsWith_cons.
    destruct (N.eqb_spec c sep) as [->|Hc].
    + destruct (N.eqb_spec a sep) as [->|_]; [done|]. cbn. split; [done|].
      intros [[=]|]; [congruence|done].
    + pose proof (split_nonempty q sep) as Hne. revert IH.
      destruct (split q sep) as [|w ws]; [done|]. clear Hne. cbn [head].
      intros IH. destruct (N.eqb_spec a c) as [->|Hac]; cbn [andb].
      * split.
        -- intros [= ->]. destruct (proj1 IH eq_refl) as [->|H]; [by left|by right].
        -- intros [[= ->]|H]; f_equal; f_equal.
           ++ assert (Some w = Some l) as [= ->] by (apply IH; by left). done.
           ++ assert (Some w = Some l) as [= ->] by (apply IH; by right). done.
      * split; [intros [= ]; congruence|intros [[=]|]; [congruence|done]].
Qed.

(** The segment after the first separator. *)
Lemma second_segment p l rest sep :
  sep ∉ p -> sep ∉ l -> rest = [] \/ startsWith rest [sep] = true ->
  split (p ++ sep :: l ++ rest) sep !! 1%nat = Some l.
Proof.
  intros Hp Hl Hrest. rewrite split_app_separator by done.
  change ((p :: split (l ++ rest) sep) !! 1%nat) with (split (l ++ rest) sep !! 0%nat).
  rewrite <- (head_lookup (split (l ++ rest) sep)). apply first_segment_eq; [done|].
  destruct Hrest as [->|Hrest]; [left; by rewrite app_nil_r|right].
  rewrite startsWith_app_head. done.
Qed.

End SegmentFacts.

(** ** The locale redirect *)

Section ProxyFacts.

Import Proxy.

Lemma locales_no_slash l : l ∈ locales -> slash ∉ l.
Proof.
  unfold locales. rewrite !elem_of_cons, elem_of_nil.
  intros [->|[->|[]]]; refine (bool_decide_eq_true_1 _ _); reflexivity.
Qed.

Lemma pathnameHasLocale_spec pathname :
  pathnameHasLocale pathname = true <->
  exists l, l ∈ locales
    /\ (startsWith pathname (js "/" ++ l ++ js "/") = true \/ pathname = js "/" ++ l).
Proof.
  unfold pathnameHasLocale. rewrite existsb_exists. split.
  - intros (l & Hl%list_elem_of_In & H). exists l. split; [done|].
    apply orb_prop in H as [H|H]; [by left|right]. by apply bool_decide_eq_true_1 in H.
  - intros (l & Hl%list_elem_of_In & H). exists l. split; [done|].
    destruct H as [->|H]; [done|]. rewrite (bool_decide_eq_true_2 _ H). apply orb_true_r.
Qed.

(** A pathname that begins with [/] holds a locale exactly when its
    first segment is a configured locale. *)
Lemma pathnameHasLocale_first_segment pathname :
  startsWith pathname (js "/") = true ->
  pathnameHasLocale pathname = true <->
  exists l, l ∈ locales /\ split pathname slash !! 1%nat = Some l.
Proof.
  intros Hs. apply startsWith_inv in Hs. change (js "/") with [slash] in *.
  cbn [length drop app] in Hs. set (q := drop 1 pathname) in *.
  rewrite Hs. clearbody q. clear Hs.
  rewrite pathnameHasLocale_spec. change (js "/") with [slash].
  cbn [app split]. rewrite N.eqb_refl.
  change (([] :: split q slash) !! 1%nat) with (split q slash !! 0%nat).
  rewrite <- (head_lookup (split q slash)).
  split; intros (l & Hl & H); exists l; (split; [done|]).
  - apply first_segment_eq; [by apply locales_no_slash|].
    destruct H as [H|[= ->]]; [right|by left].
    by rewrite startsWith_cons, N.eqb_refl in H.
  - apply first_segment_eq in H as [->|H]; [by right| |by apply locales_no_slash].
    left. by rewrite startsWith_cons, N.eqb_refl.
Qed.

End ProxyFacts.

Section RedirectFacts.

Import Proxy.

Implicit Types (s q suffix : jsstring).

Lemma endsWith_spec s suffix :
  endsWith s suffix = true <-> exists q, s = q ++ suffix.
Proof.
  unfold endsWith. rewrite bool_decide_eq_true. split.
  - intros H. exists (take (length s - length suffix) s).
    transitivity (take (length s - length suffix) s ++ drop (length s - length suffix) s);
      [symmetry; apply take_drop|by f_equal].
  - intros [q ->]. rewrite length_app.
    replace (length q + length suffix - length suffix) with (length q) by lia.
    by rewrite drop_app_length.
Qed.

Lemma endsWith_app s suffix : endsWith (s ++ suffix) suffix = true.
Proof. apply endsWith_spec. by exists s. Qed.

Lemma removeTrailingSlash_cases s :
  (exists q, s = q ++ js "/" /\ removeTrailingSlash s = if truthy q then q else js "/")
  \/ (endsWith s (js "/") = false /\ removeTrailingSlash s = if truthy s then s else js "/").
Proof.
  unfold removeTrailingSlash.
  destruct (replace_at_end_cases s (js "/")) as [(q & -> & ->)|[Hno ->]].
  - left. by exists q.
  - right. split; [|done]. apply not_true_is_false.
    intros [q ->]%endsWith_spec. by destruct (Hno q).
Qed.

(** The pathname of the [Location] of a redirect: the locale in front of
    the pathname of the request, and the locale alone for the pathname
    [/]. *)
Lemma location_of_redirect locale q :
  location_pathname {| pathname := js "/" ++ locale ++ slash :: q;
                       trailingSlash := trailingSlash (nextUrl (slash :: q)) |}
  = js "/" ++ locale ++ (if bool_decide (q = []) then [] else slash :: q).
Proof.
  unfold location_pathname, nextUrl. cbn [pathname trailingSlash].
  change (js "/") with [slash]. case_bool_decide as Hroot.
  - injection Hroot as ->. rewrite bool_decide_eq_true_2 by done.
    destruct (removeTrailingSlash_cases ([slash] ++ locale ++ [slash]))
      as [(r & Hr & ->)|[Hends _]].
    + change ([slash] ++ locale ++ [slash]) with (([slash] ++ locale) ++ [slash]) in Hr.
      rewrite <- app_assoc in Hr. rewrite app_assoc in Hr.
      apply app_inj_tail in Hr as [<- _]. by rewrite app_nil_r.
    + rewrite app_assoc, endsWith_app in Hends. done.
  - rewrite bool_decide_eq_false_2 by (intros ->; done).
    destruct (endsWith (slash :: q) [slash]) eqn:Hends.
    + apply endsWith_spec in Hends as [r Hr]. rewrite Hr.
      by rewrite !app_assoc, endsWith_app.
    + destruct (removeTrailingSlash_cases ([slash] ++ locale ++ slash :: q))
        as [(r & Hr & _)|[_ ->]]; [|done].
      assert (endsWith (slash :: q) [slash] = true) as Ht; [|congruence].
      destruct q as [|c q] using rev_ind; [done|].
      rewrite app_comm_cons, !app_assoc in Hr.
      apply app_inj_tail in Hr as [_ ->].
      rewrite app_comm_cons. apply endsWith_app.
Qed.

End RedirectFacts.

(** X11.  The redirect does not loop: when the negotiated locale is a
    configured one and the pathname begins with [/], the pathname a
    request is redirected to is let through, whatever the negotiation
    does for the second request. *)
Theorem proxy_redirects_once (negotiated pathname target : jsstring) :
  negotiated ∈ Proxy.locales ->
  startsWith pathname (js "/") = true ->
  Proxy.proxy (Some negotiated) pathname = Proxy.Redirect target ->
  forall negotiated', Proxy.proxy negotiated' target = Proxy.Continue.
Proof.
  intros Hloc Hs. apply startsWith_inv in Hs. change (js "/") with [slash] in Hs.
  cbn [length app] in Hs. set (q := drop 1 pathname) in *. rewrite Hs. clearbody q.
  unfold Proxy.proxy at 1. cbn [Proxy.nextUrl Proxy.pathname].
  destruct (Proxy.is_internal (slash :: q)); [done|].
  destruct (Proxy.pathnameHasLocale (slash :: q)); [done|]. intros Ht negotiated'.
  assert (target = js "/" ++ negotiated
                   ++ (if bool_decide (q = []) then [] else slash :: q)) as ->.
  { rewrite <- location_of_redirect. congruence. }
  unfold Proxy.proxy. cbn [Proxy.nextUrl Proxy.pathname].
  destruct (Proxy.is_internal _); [done|].
  assert (Proxy.pathnameHasLocale
            (js "/" ++ negotiated ++ (if bool_decide (q = []) then [] else slash :: q))
          = true) as ->; [|done].
  apply pathnameHasLocale_spec. exists negotiated. split; [done|].
  case_bool_decide; [right; by rewrite app_nil_r|left].
  change (slash :: q) with (js "/" ++ q).
  rewrite (startsWith_app_head (js "/")), startsWith_app_head. done.
Qed.

Lemma proxy_redirects_once_witness :
  Proxy.proxy None (js "/en/blog/post") = Proxy.Continue
  /\ Proxy.proxy (Some (js "vi")) (js "/en") = Proxy.Continue.
Proof.
  split.
  - apply (proxy_redirects_once (js "en") (js "/blog/post") (js "/en/blog/post")).
    + refine (bool_decide_eq_true_1 _ _). reflexivity.
    + reflexivity.
    + reflexivity.
  - apply (proxy_redirects_once (js "en") (js "/") (js "/en")).
    + refine (bool_decide_eq_true_1 _ _). reflexivity.
    + reflexivity.
    + reflexivity.
Defined.

(** X12.  A request for a pathname that begins with [/] and is not an
    internal one ([/_next], [/api], [/static], or with a dot) is let
    through exactly when the first segment of the pathname is a
    configured locale.  Otherwise [proxy] asks for the locale of the
    request: when that throws, [proxy] throws and nothing is redirected;
    when it gives a locale, the request is redirected to that locale
    followed by the pathname, and to the locale alone, without a final
    [/], for the pathname [/].  So [/en] and [/vi/blog] pass, [/] goes to
    [/vi], and a first segment that only begins like a locale, as
    [/english], is redirected. *)
Theorem proxy_passes_localized (negotiated : option jsstring) (pathname : jsstring) :
  startsWith pathname (js "/") = true ->
  Proxy.is_internal pathname = false ->
  (Proxy.proxy negotiated pathname = Proxy.Continue <->
   exists l, l ∈ Proxy.locales /\ split pathname slash !! 1%nat = Some l)
  /\ (Proxy.proxy negotiated pathname <> Proxy.Continue ->
      match negotiated with
      | None => Proxy.proxy negotiated pathname = Proxy.Throws
      | Some locale =>
          Proxy.proxy negotiated pathname
          = Proxy.Redirect (js "/" ++ locale
                            ++ (if bool_decide (pathname = js "/") then [] else pathname))
      end).
Proof.
  intros Hs Hint. rewrite <- (pathnameHasLocale_first_segment _ Hs).
  apply startsWith_inv in Hs. change (js "/") with [slash] in Hs.
  cbn [length app] in Hs. set (q := drop 1 pathname) in *. rewrite Hs in *. clearbody q.
  unfold Proxy.proxy. cbn [Proxy.nextUrl Proxy.pathname]. rewrite Hint.
  destruct (Proxy.pathnameHasLocale (slash :: q)); [by split|].
  split; [by destruct negotiated|]. intros _.
  destruct negotiated as [locale|]; [|done].
  rewrite (location_of_redirect locale q). do 3 f_equal.
  change (js "/") with [slash]. by repeat case_bool_decide; simplify_eq.
Qed.

Lemma proxy_passes_localized_witness :
  Proxy.proxy (Some (js "vi")) (js "/english") = Proxy.Redirect (js "/vi/english")
  /\ Proxy.proxy (Some (js "vi")) (js "/") = Proxy.Redirect (js "/vi")
  /\ Proxy.proxy None (js "/blog") = Proxy.Throws
  /\ Proxy.proxy None (js "/en/blog") = Proxy.Continue.
Proof.
  split; [|split; [|split]].
  - apply (proxy_passes_localized (Some (js "vi")) (js "/english"));
      [reflexivity|reflexivity|discriminate].
  - apply (proxy_passes_localized (Some (js "vi")) (js "/"));
      [reflexivity|reflexivity|discriminate].
  - apply (proxy_passes_localized None (js "/blog"));
      [reflexivity|reflexivity|discriminate].
  - apply (proxy_passes_localized None (js "/en/blog")); [reflexivity|reflexivity|].
    exists (js "en"). split; [|reflexivity].
    refine (bool_decide_eq_true_1 _ _). reflexivity.
Defined.

(** ** The locale of a blog document *)

Section LocaleFacts.

Import PassSpec.

Lemma no_separator_elem (s : jsstring) :
  Forall (fun c => is_separator c = false) s -> (slash ∉ s) /\ (backslash ∉ s).
Proof.
  rewrite Forall_forall. intros H.
  split; intros Hin; by specialize (H _ Hin).
Qed.

Lemma replace_backslashes_app (s1 s2 : jsstring) :
  replace_backslashes (s1 ++ s2) = replace_backslashes s1 ++ replace_backslashes s2.
Proof. apply map_app. Qed.

Lemma replace_backslashes_separator (c : N) :
  is_separator c = true -> (if (c =? backslash)%N then slash else c) = slash.
Proof.
  unfold is_separator. intros [H|H]%orb_prop.
  - apply N.eqb_eq in H as ->. reflexivity.
  - by rewrite H.
Qed.

Lemma locale_of_single_segment (doc : Blogs.document) :
  Forall (fun c => is_separator c = false) (Source.directory (Blogs._meta doc)) ->
  Blogs.locale_of doc = None.
Proof.
  intros [Hs Hb]%no_separator_elem. unfold Blogs.locale_of.
  rewrite replace_backslashes_id by done. by rewrite split_no_separator.
Qed.

Lemma locale_of_second_segment (doc : Blogs.document) first sep second rest :
  Forall (fun c => is_separator c = false) first ->
  Forall (fun c => is_separator c = false) second ->
  is_separator sep = true ->
  rest = [] \/ (exists c r, rest = c :: r /\ is_separator c = true) ->
  Source.directory (Blogs._meta doc) = first ++ sep :: second ++ rest ->
  Blogs.locale_of doc = Some second.
Proof.
  intros [Hf1 Hf2]%no_separator_elem [Hs1 Hs2]%no_separator_elem Hsep Hrest Hdir.
  unfold Blogs.locale_of. rewrite Hdir, replace_backslashes_app.
  cbn [replace_backslashes map]. fold (replace_backslashes (second ++ rest)).
  rewrite replace_backslashes_app, !replace_backslashes_id by done.
  rewrite replace_backslashes_separator by done.
  apply second_segment; [done|done|].
  destruct Hrest as [->|(c & r & -> & Hc)]; [by left|right].
  cbn [replace_backslashes map]. rewrite replace_backslashes_separator by done.
  reflexivity.
Qed.

End LocaleFacts.

(** X13.  The locale under which the blog transform looks up the bio is
    the second segment of the document's directory, whichever separator
    is used: the bio is what the bio map gives under that segment, an
    entry of its own or a property it inherits, and the bio of [vi] when
    that is falsy.  A directory of one segment gives no locale: the bio
    is then looked up under the key "undefined", so that an author
    without such an entry gets the bio of [vi], whatever the directory is
    called. *)
Theorem blog_locale_is_second_directory_segment
    (authors : list Config.author_entry) (doc : Blogs.document) (code : jsstring)
    (a : Config.author_entry) (bios : gmap jsstring jsstring) :
  Blogs.find_author authors doc = Some a ->
  Config.bio a = Some bios ->
  let dir := Source.directory (Blogs._meta doc) in
  let bio := Blogs.bio (Blogs.author (Blogs.transform_with authors doc code)) in
  (forall first sep second rest,
      Forall (fun c => PassSpec.is_separator c = false) first ->
      Forall (fun c => PassSpec.is_separator c = false) second ->
      PassSpec.is_separator sep = true ->
      rest = [] \/ (exists c r, rest = c :: r /\ PassSpec.is_separator c = true) ->
      dir = first ++ sep :: second ++ rest ->
      Blogs.locale_of doc = Some second
      /\ bio = Blogs.localized_bio (Some bios) (Some second)
      /\ (forall b : jsstring, bios !! second = Some b -> b <> [] ->
          bio = Some (Blogs.BioText b))
      /\ (bios !! second = None -> second ∈ Blogs.object_prototype_names ->
          bio = Some (Blogs.BioInherited second))
      /\ (bios !! second = None -> second ∉ Blogs.object_prototype_names ->
          bio = Blogs.BioText <$> bios !! js "vi"))
  /\ (Forall (fun c => PassSpec.is_separator c = false) dir ->
      Blogs.locale_of doc = None
      /\ (bios !! js "undefined" = None -> bio = Blogs.BioText <$> bios !! js "vi")).
Proof.
  intros Hfind Hbio dir bio.
  assert (Hb : bio = Blogs.localized_bio (Some bios) (Blogs.locale_of doc)).
  { unfold bio. cbn [Blogs.transform_with Blogs.author].
    rewrite (resolve_author_found _ _ a Hfind). cbn [Blogs.bio]. by rewrite Hbio. }
  split.
  - intros first sep second rest H1 H2 H3 H4 H5.
    pose proof (locale_of_second_segment doc first sep second rest H1 H2 H3 H4 H5) as Hl.
    split; [done|]. rewrite Hb, Hl. split; [done|]. split; [|split].
    + intros b Hsome Hne. by apply (localized_bio_own bios (Some second)).
    + intros Hnone Hin. by apply (localized_bio_inherited bios (Some second)).
    + intros Hnone Hnot. by apply (localized_bio_absent bios (Some second)).
  - intros Hdir. pose proof (locale_of_single_segment doc Hdir) as Hl.
    split; [done|]. intros Hu. rewrite Hb, Hl.
    apply (localized_bio_absent bios None Hu), undefined_not_inherited.
Qed.

Lemma blog_locale_is_second_directory_segment_witness :
  Blogs.locale_of (blog_document (js "vi/post") (js "blog\vi\tips")
                     (Some (js "huynhsang")) (js "text")) = Some (js "vi")
  /\ Blogs.locale_of (blog_document (js "vi/post") (js "vi")
                        (Some (js "huynhsang")) (js "text")) = None.
Proof.
  split.
  - destruct (blog_locale_is_second_directory_segment Config.authors
                (blog_document (js "vi/post") (js "blog\vi\tips") (Some (js "huynhsang"))
                   (js "text")) [] Config.huynhsang
                (default ∅ (Config.bio Config.huynhsang)))
      as [H _]; [reflexivity|reflexivity|].
    refine (proj1 (H (js "blog") backslash (js "vi") (js "\tips") _ _ _ _ _)).
    + refine (bool_decide_eq_true_1 _ _). reflexivity.
    + refine (bool_decide_eq_true_1 _ _). reflexivity.
    + reflexivity.
    + right. by exists backslash, (js "tips").
    + reflexivity.
  - destruct (blog_locale_is_second_directory_segment Config.authors
                (blog_document (js "vi/post") (js "vi") (Some (js "huynhsang"))
                   (js "text")) [] Config.huynhsang
                (default ∅ (Config.bio Config.huynhsang)))
      as [_ H]; [reflexivity|reflexivity|].
    apply H. refine (bool_decide_eq_true_1 _ _). reflexivity.
Defined.

(** ** The slug fields of the bundle *)

(** X14.  In the bundled configuration [slugAsParams] is the path without
    its first segment: it is empty for a path of one segment, and for a
    path [first/rest] it is [rest], so that the slug is [/], the first
    segment, [/] and [slugAsParams]. *)
Theorem bundle_slugAsParams_drops_first_segment (meta : Source.meta) :
  (slash ∉ Source.path meta -> Bundle.slugAsParams meta = [])
  /\ (forall first rest,
        slash ∉ first ->
        Source.path meta = first ++ slash :: rest ->
        Bundle.slugAsParams meta = rest
        /\ Bundle.slug meta = js "/" ++ first ++ js "/" ++ Bundle.slugAsParams meta).
Proof.
  unfold Bundle.slugAsParams, Bundle.slug. split.
  - intros H. by rewrite split_no_separator.
  - intros first rest Hf Hp. rewrite Hp, split_app_separator by done.
    change (drop 1 (first :: split rest slash)) with (split rest slash).
    by rewrite join_split.
Qed.

Lemma bundle_slugAsParams_drops_first_segment_witness :
  Bundle.slugAsParams my_post_meta = js "my-post"
  /\ Bundle.slug my_post_meta = js "/" ++ js "vi" ++ js "/" ++ Bundle.slugAsParams my_post_meta.
Proof.
  apply (proj2 (bundle_slugAsParams_drops_first_segment my_post_meta) (js "vi") (js "my-post")).
  - refine (bool_decide_eq_true_1 _ _). reflexivity.
  - reflexivity.
Defined.

(** ** More on the traversal *)

Section TraversalMore.

Import PassSpec.

Implicit Types (n t : node) (visitor : node -> option node) (position : list nat).

Lemma every_node_of_at (p : node -> bool) t :
  (forall position n, node_at position t = Some n -> p n = true) ->
  every_node p t = true.
Proof.
  remember (S (depth t)) as k eqn:Hk.
  assert (Hd : depth t < k) by lia. clear Hk. revert t Hd.
  induction k as [|k IH]; intros t Hd Hat; [lia|].
  assert (Hcs : forallb (every_node p) (children_of t) = true).
  { apply forallb_forall. intros c Hc%list_elem_of_In.
    apply IH.
    - apply depth_child in Hc. lia.
    - apply list_elem_of_lookup in Hc as [i Hi]. intros position n Hn.
      apply (Hat (i :: position)). apply node_at_cons. eauto. }
  specialize (Hat [] t eq_refl).
  destruct t; cbn [every_node children_of] in *; rewrite Hat; done.
Qed.

(** As [visit_at], with the number of children. *)
Lemma visit_at_length visitor :
  keeps_children visitor ->
  forall position fuel t t' n,
    visit fuel visitor t = Some t' ->
    node_at position t = Some n ->
    exists n' cs,
      visitor n = Some n' /\ node_at position t' = Some (with_children n' cs)
      /\ length cs = length (children_of n).
Proof.
  intros Hkeep. induction position as [|i position IH]; intros fuel t t' n Hv.
  - intros [= <-]. apply visit_inv in Hv as (fuel' & n' & cs & -> & Hn' & Hcs & -> & _).
    exists n', cs. repeat split; [done|].
    rewrite <- (Hkeep _ _ Hn'). symmetry. by eapply Forall2_length.
  - rewrite node_at_cons. intros (c & Hc & Hn).
    apply visit_inv in Hv as (fuel' & m & cs & -> & Hm & Hcs & _ & Ht').
    rewrite <- (Hkeep _ _ Hm) in Hc.
    destruct (Forall2_lookup_l _ _ _ _ _ Hcs Hc) as (c' & Hc' & Hvc).
    destruct (IH _ _ _ _ Hvc Hn) as (n' & cs' & Hn' & Hat & Hlen).
    exists n', cs'. split; [done|]. split; [|done].
    apply node_at_cons. exists c'. by rewrite Ht'.
Qed.

Lemma children_of_with_children_length n cs :
  length cs = length (children_of n) -> children_of (with_children n cs) = cs.
Proof.
  intros H. apply children_of_with_children. intros Hn. rewrite Hn in H.
  by destruct cs.
Qed.

Lemma capture_visitor_ok n : is_Some (capture_visitor n) <-> capture_ok n = true.
Proof.
  destruct n as [v|tag props fields cs|cs|ty v]; cbn [capture_visitor capture_ok];
    try (split; [done|by eexists]).
  case_bool_decide; [|split; [done|by eexists]].
  destruct cs as [|codeEl cs]; [split; [by intros [? ?]|done]|].
  split; [done|]. intros _. case_bool_decide; by eexists.
Qed.

Lemma rehypeNpmCommand_visitor_Some n :
  is_Some (rehypeNpmCommand_visitor n) <-> raw_command_ok n = true.
Proof.
  split; [|by intros (n' & Hn' & _)%rehypeNpmCommand_visitor_ok; eexists].
  destruct n as [v|tag props fields cs|cs|ty v]; cbn [raw_command_ok]; try done.
  cbn [rehypeNpmCommand_visitor]. case_bool_decide; [|done].
  unfold npm_install_step.
  destruct (get props "__rawString__") as [|b|s|l]; try done; by intros [? ?].
Qed.

Lemma pass_is_Some_inv visitor (ok : node -> bool) fuel t t' :
  keeps_children visitor ->
  (forall n, is_Some (visitor n) -> ok n = true) ->
  visit fuel visitor t = Some t' -> every_node ok t = true.
Proof.
  intros Hkeep Hok Hv. apply every_node_of_at. intros position n Hn.
  destruct (visit_at _ Hkeep _ _ _ _ _ Hv Hn) as (n' & cs & Hn' & _).
  apply Hok. by eexists.
Qed.

End TraversalMore.

(** X15.  The capture pass throws exactly when some [pre] element of
    the tree has no child: it returns a tree if and only if every [pre]
    of the tree has a child. *)
Theorem raw_capture_pass_throws (tree : node) :
  is_Some (raw_capture_pass tree) <-> every_node capture_ok tree = true.
Proof.
  split; [|apply raw_capture_is_Some].
  intros [tree' Hpass]. unfold raw_capture_pass in Hpass.
  apply (pass_is_Some_inv _ _ _ _ _ capture_keeps_children
           (fun n => proj1 (capture_visitor_ok n)) Hpass).
Qed.

Lemma raw_capture_pass_throws_witness :
  is_Some (raw_capture_pass (parsed_tree (js "npm i pkg")))
  /\ raw_capture_pass (Root [Element (js "p") ∅ ∅ [Element (js "pre") ∅ ∅ []]]) = None.
Proof.
  split.
  - apply (proj2 (raw_capture_pass_throws (parsed_tree (js "npm i pkg")))).
    vm_compute. reflexivity.
  - apply eq_None_not_Some. intros H.
    apply (proj1 (raw_capture_pass_throws _)) in H. vm_compute in H. discriminate.
Defined.

(** X16.  The package-manager pass throws exactly when some [pre]
    element of the tree has a raw command that is neither absent nor a
    string: it returns a tree if and only if there is no such [pre]. *)
Theorem rehypeNpmCommand_throws (tree : node) :
  is_Some (rehypeNpmCommand tree) <-> every_node raw_command_ok tree = true.
Proof.
  split; [|apply rehypeNpmCommand_is_Some].
  intros [tree' Hpass]. unfold rehypeNpmCommand in Hpass.
  apply (pass_is_Some_inv _ _ _ _ _ rehypeNpmCommand_keeps_children
           (fun n => proj1 (rehypeNpmCommand_visitor_Some n)) Hpass).
Qed.

Lemma rehypeNpmCommand_throws_witness :
  is_Some (rehypeNpmCommand (hoisted_tree (js "npm i pkg")))
  /\ rehypeNpmCommand
       (Root [Element (js "pre") {[ "__rawString__" := VBool true ]} ∅ []]) = None.
Proof.
  split.
  - apply (proj2 (rehypeNpmCommand_throws (hoisted_tree (js "npm i pkg")))).
    vm_compute. reflexivity.
  - apply eq_None_not_Some. intros H.
    apply (proj1 (rehypeNpmCommand_throws _)) in H. vm_compute in H. discriminate.
Defined.

(** ** What the capture and package-manager passes leave alone *)

Section PassFrames.

Import PassSpec.

Implicit Types (n m : node) (cs : list node).

Lemma same_markup_with_children n m cs :
  tagName_of m = tagName_of n -> value_of m = value_of n ->
  length cs = length (children_of n) ->
  children_of m = children_of n ->
  same_markup n (with_children m cs)
  /\ properties_of (with_children m cs) = properties_of m
  /\ fields_of (with_children m cs) = fields_of m.
Proof.
  intros Ht Hv Hl Hc. unfold same_markup.
  rewrite children_of_with_children_length by by rewrite Hc.
  destruct m; cbn in *; by rewrite <- ?Ht, <- ?Hv.
Qed.

Lemma capture_visitor_frame n m :
  capture_visitor n = Some m ->
  tagName_of m = tagName_of n /\ value_of m = value_of n
  /\ children_of m = children_of n /\ properties_of m = properties_of n
  /\ (tagName_of n <> Some (js "pre") -> fields_of m = fields_of n)
  /\ (forall k, k ∉ capture_keys -> fields_of m !! k = fields_of n !! k).
Proof.
  destruct n as [v|tag props fields cs|cs|ty v]; cbn [capture_visitor];
    try (by intros [= <-]).
  case_bool_decide as Hpre; [|by intros [= <-]; repeat split; try done].
  destruct cs as [|codeEl cs]; [done|].
  case_bool_decide; intros [= <-]; [|by repeat split].
  repeat split; [by cbn; subst|].
  intros k Hk. unfold capture_keys in Hk. cbn [fields_of].
  rewrite !not_elem_of_cons in Hk. destruct Hk as (? & ? & ? & _).
  by rewrite !lookup_insert_ne.
Qed.

Lemma with_commands_frame npm yarn pnpm bun (props : gmap string jsval) k :
  k ∉ command_keys -> with_commands npm yarn pnpm bun props !! k = props !! k.
Proof.
  unfold command_keys, with_commands. rewrite !not_elem_of_cons.
  intros (? & ? & ? & ? & _). by rewrite !lookup_insert_ne.
Qed.

Lemma variants_frame s (props : gmap string jsval) k :
  k ∉ command_keys -> variants s props !! k = props !! k.
Proof.
  intros Hk. unfold variants. repeat case_match; try done; by apply with_commands_frame.
Qed.

Lemma rehypeNpmCommand_visitor_frame n m :
  rehypeNpmCommand_visitor n = Some m ->
  tagName_of m = tagName_of n /\ value_of m = value_of n
  /\ children_of m = children_of n /\ fields_of m = fields_of n
  /\ (tagName_of n <> Some (js "pre") -> properties_of m = properties_of n)
  /\ (forall k, k ∉ command_keys -> properties_of m !! k = properties_of n !! k).
Proof.
  intros Hm.
  assert (Hok : raw_command_ok n = true) by (apply rehypeNpmCommand_visitor_Some; by eexists).
  destruct n as [v|tag props fields cs|cs|ty v];
    try (by injection Hm as <-).
  destruct (decide (tag = js "pre")) as [->|Hne].
  - cbn [raw_command_ok] in Hok. rewrite bool_decide_eq_true_2 in Hok by done.
    destruct (get props "__rawString__") as [|b|s|l] eqn:Hraw; try done.
    + rewrite rehypeNpmCommand_on_undefined in Hm by done. injection Hm as <-. done.
    + rewrite (rehypeNpmCommand_on_string _ _ _ s) in Hm by done. injection Hm as <-.
      repeat split; [done|]. intros k Hk. by apply variants_frame.
  - cbn [rehypeNpmCommand_visitor] in Hm. rewrite bool_decide_eq_false_2 in Hm by done.
    by injection Hm as <-.
Qed.

End PassFrames.

(** X17.  The capture pass writes fields and nothing else: the tree it
    returns has, at every place of the tree it was given, a node with the
    same tag, the same text, the same number of children and the same
    properties; the fields of a node that is not a [pre] element are the
    same too, and the fields of a [pre] are the same but for
    [__rawString__], [__src__] and [__style__]. *)
Theorem raw_capture_pass_writes_fields_only (tree tree' : node) (position : list nat)
    (n : node) :
  raw_capture_pass tree = Some tree' ->
  node_at position tree = Some n ->
  exists n',
    node_at position tree' = Some n'
    /\ PassSpec.same_markup n n'
    /\ properties_of n' = properties_of n
    /\ (tagName_of n <> Some (js "pre") -> PassSpec.fields_of n' = PassSpec.fields_of n)
    /\ (forall k, k ∉ PassSpec.capture_keys ->
          PassSpec.fields_of n' !! k = PassSpec.fields_of n !! k).
Proof.
  intros Hpass Hat.
  destruct (visit_at_length _ capture_keeps_children _ _ _ _ _ Hpass Hat)
    as (m & cs & Hm & Hat' & Hlen).
  destruct (capture_visitor_frame _ _ Hm) as (Ht & Hv & Hc & Hp & Hf & Hk).
  destruct (same_markup_with_children n m cs Ht Hv Hlen Hc) as (Hs & Hp' & Hf').
  exists (with_children m cs). rewrite Hp', Hf'.
  split; [done|]. split; [done|]. split; [done|]. by split.
Qed.

Lemma raw_capture_pass_writes_fields_only_witness :
  exists n',
    node_at [1] (default (Root []) (raw_capture_pass (parsed_tree (js "npm i pkg"))))
    = Some n'
    /\ properties_of n' = ∅.
Proof.
  destruct (raw_capture_pass_writes_fields_only (parsed_tree (js "npm i pkg"))
              (default (Root []) (raw_capture_pass (parsed_tree (js "npm i pkg"))))
              [1] (fence (js "npm i pkg")))
    as (n' & Hat & _ & Hp & _); [vm_compute; reflexivity|reflexivity|].
  exists n'. split; [exact Hat|exact Hp].
Defined.

(** X18.  The package-manager pass writes the four command properties
    and nothing else: the tree it returns has, at every place of the tree
    it was given, a node with the same tag, the same text, the same
    number of children and the same fields; the properties of a node that
    is not a [pre] element are the same too, and the properties of a
    [pre] are the same but for [__npmCommand__], [__yarnCommand__],
    [__pnpmCommand__] and [__bunCommand__]. *)
Theorem rehypeNpmCommand_writes_commands_only (tree tree' : node) (position : list nat)
    (n : node) :
  rehypeNpmCommand tree = Some tree' ->
  node_at position tree = Some n ->
  exists n',
    node_at position tree' = Some n'
    /\ PassSpec.same_markup n n'
    /\ PassSpec.fields_of n' = PassSpec.fields_of n
    /\ (tagName_of n <> Some (js "pre") -> properties_of n' = properties_of n)
    /\ (forall k, k ∉ PassSpec.command_keys ->
          properties_of n' !! k = properties_of n !! k).
Proof.
  intros Hpass Hat.
  destruct (visit_at_length _ rehypeNpmCommand_keeps_children _ _ _ _ _ Hpass Hat)
    as (m & cs & Hm & Hat' & Hlen).
  destruct (rehypeNpmCommand_visitor_frame _ _ Hm) as (Ht & Hv & Hc & Hf & Hp & Hk).
  destruct (same_markup_with_children n m cs Ht Hv Hlen Hc) as (Hs & Hp' & Hf').
  exists (with_children m cs). rewrite Hp', Hf'.
  split; [done|]. split; [done|]. split; [done|]. by split.
Qed.

Lemma rehypeNpmCommand_writes_commands_only_witness :
  exists n',
    node_at [1; 0]
      (default (Root []) (rehypeNpmCommand (hoisted_tree (js "npm i pkg"))))
    = Some n'
    /\ get (properties_of n') "__withMeta__" = VBool false.
Proof.
  destruct (rehypeNpmCommand_writes_commands_only (hoisted_tree (js "npm i pkg"))
              (default (Root []) (rehypeNpmCommand (hoisted_tree (js "npm i pkg"))))
              [1; 0]
              (Element (js "pre")
                 {[ "__rawString__" := VString (js "npm i pkg");
                    "__withMeta__" := VBool false ]} ∅
                 [Element (js "code") ∅ ∅ [Text (js "npm i pkg")]]))
    as (n' & Hat & _ & _ & _ & Hk); [vm_compute; reflexivity|reflexivity|].
  exists n'. split; [exact Hat|]. unfold get. rewrite Hk; [reflexivity|].
  refine (bool_decide_eq_true_1 _ _). reflexivity.
Defined.

(** ** Running a pass again *)

Section PassTwice.

Import PassSpec.

Implicit Types (n m : node) (cs : list node) (visitor : node -> option node).

Lemma with_children_twice n cs cs' :
  with_children (with_children n cs) cs' = with_children n cs'.
Proof. by destruct n. Qed.

Lemma with_children_id n : with_children n (children_of n) = n.
Proof. by destruct n. Qed.

(** A pass whose visitor looks at the node only, and leaves alone what
    it returned, leaves alone the tree it returned. *)
Lemma visit_twice visitor :
  top_local visitor ->
  (forall n m, visitor n = Some m -> visitor m = Some m) ->
  forall fuel t t',
    visit fuel visitor t = Some t' ->
    forall fuel', depth t' < fuel' -> visit fuel' visitor t' = Some t'.
Proof.
  intros Hlocal Hfix. induction fuel as [|fuel IH]; intros t t' Hv fuel' Hd; [done|].
  apply visit_inv in Hv as (k & n & cs & [= <-] & Hn & Hcs & -> & Ht').
  destruct fuel' as [|fuel']; [lia|]. cbn [visit].
  rewrite Hlocal, (Hfix _ _ Hn). cbn [fmap option_fmap option_map mbind option_bind].
  assert (mapM (visit fuel' visitor) (children_of (with_children n cs)) = Some cs) as ->.
  { rewrite Ht'. apply mapM_Some_2. apply Forall2_same_length_lookup_2; [done|].
    intros i c c' Hc Hc'. assert (c' = c) as -> by congruence.
    destruct (Forall2_lookup_r _ _ _ _ _ Hcs Hc) as (c0 & _ & Hv0).
    apply (IH _ _ Hv0).
    assert (c ∈ children_of (with_children n cs)) as Hin
      by (rewrite Ht'; apply list_elem_of_lookup; eauto).
    apply depth_child in Hin. lia. }
  cbn [mbind option_bind]. by rewrite with_children_twice.
Qed.

Lemma rehypeNpmCommand_visitor_top_local : top_local rehypeNpmCommand_visitor.
Proof.
  intros [v|tag props fields cs|cs|ty v] cs'; try done.
  cbn [with_children rehypeNpmCommand_visitor]. case_bool_decide; [|done].
  destruct (npm_install_step props) as [p1|]; [|done]. cbn [mbind option_bind].
  destruct (npx_create_step p1) as [p2|]; [|done]. cbn [mbind option_bind].
  by destruct (npx_step p2) as [p3|].
Qed.

Lemma with_commands_twice npm yarn pnpm bun (props : gmap string jsval) :
  with_commands npm yarn pnpm bun (with_commands npm yarn pnpm bun props)
  = with_commands npm yarn pnpm bun props.
Proof.
  unfold with_commands. apply map_eq. intros k.
  rewrite !lookup_insert. repeat case_decide; done.
Qed.

Lemma variants_twice s (props : gmap string jsval) :
  variants s (variants s props) = variants s props.
Proof.
  unfold variants. repeat case_match; try done; apply with_commands_twice.
Qed.

Lemma rehypeNpmCommand_visitor_twice n m :
  rehypeNpmCommand_visitor n = Some m -> rehypeNpmCommand_visitor m = Some m.
Proof.
  intros Hm.
  assert (Hok : raw_command_ok n = true) by (apply rehypeNpmCommand_visitor_Some; by eexists).
  destruct n as [v|tag props fields cs|cs|ty v];
    try (by injection Hm as <-).
  destruct (decide (tag = js "pre")) as [->|Hne].
  - cbn [raw_command_ok] in Hok. rewrite bool_decide_eq_true_2 in Hok by done.
    destruct (get props "__rawString__") as [|b|s|l] eqn:Hraw; try done.
    + rewrite rehypeNpmCommand_on_undefined in Hm by done. injection Hm as <-.
      by apply rehypeNpmCommand_on_undefined.
    + rewrite (rehypeNpmCommand_on_string _ _ _ s) in Hm by done. injection Hm as <-.
      rewrite (rehypeNpmCommand_on_string _ _ _ s) by by rewrite variants_keep_raw.
      by rewrite variants_twice.
  - cbn [rehypeNpmCommand_visitor] in Hm. rewrite bool_decide_eq_false_2 in Hm by done.
    injection Hm as <-. cbn [rehypeNpmCommand_visitor].
    by rewrite bool_decide_eq_false_2.
Qed.

End PassTwice.

(** X19.  The package-manager pass is idempotent: run on the tree it
    returned, it returns that tree. *)
Theorem rehypeNpmCommand_idempotent (tree tree' : node) :
  rehypeNpmCommand tree = Some tree' -> rehypeNpmCommand tree' = Some tree'.
Proof.
  intros Hpass. unfold rehypeNpmCommand in *.
  apply (visit_twice _ rehypeNpmCommand_visitor_top_local rehypeNpmCommand_visitor_twice
           _ _ _ Hpass). lia.
Qed.

Lemma rehypeNpmCommand_idempotent_witness :
  rehypeNpmCommand
    (default (Root []) (rehypeNpmCommand (hoisted_tree (js "npx create-next-app"))))
  = Some (default (Root []) (rehypeNpmCommand (hoisted_tree (js "npx create-next-app")))).
Proof.
  apply (rehypeNpmCommand_idempotent (hoisted_tree (js "npx create-next-app"))).
  vm_compute. reflexivity.
Defined.

(** ** More on the hoist pass *)

Section HoistMore.

Import PassSpec.

Implicit Types (n m c : node) (cs : list node) (position : list nat).

Lemma hoist_visitor_wrapper wtag wprops wfields front pprops pfields pchildren :
  truthy wtag = true ->
  hoist_visitor
    (Element wtag wprops wfields (front ++ [Element (js "pre") pprops pfields pchildren]))
  = Element wtag wprops wfields
      (front ++ [Element (js "pre")
                   (hoisted wfields
                      (first_is_div (front ++ [Element (js "pre") pprops pfields pchildren]))
                      pprops)
                   pfields pchildren]).
Proof.
  intros Htag. unfold hoist_visitor. rewrite Htag, last_snoc.
  rewrite bool_decide_eq_true_2 by done. f_equal.
  rewrite length_app. cbn [length].
  replace (pred (length front + 1)) with (length front + 0) by lia.
  by rewrite insert_app_r.
Qed.

Lemma hoisted_frame wfields titled (pprops : gmap string jsval) k :
  k ∉ hoist_keys -> hoisted wfields titled pprops !! k = pprops !! k.
Proof.
  unfold hoist_keys, hoisted. rewrite !not_elem_of_cons. intros (? & ? & ? & ? & _).
  repeat case_match; by rewrite !lookup_insert_ne.
Qed.

Lemma hoisted_src wfields titled (pprops : gmap string jsval) :
  get (hoisted wfields titled pprops) "__src__"
  = (if val_truthy (get wfields "__src__") then get wfields "__src__"
     else get pprops "__src__")
  /\ get (hoisted wfields titled pprops) "__style__"
     = (if val_truthy (get wfields "__style__") then get wfields "__style__"
        else get pprops "__style__")
  /\ get (hoisted wfields titled pprops) "__rawString__" = get wfields "__rawString__"
  /\ get (hoisted wfields titled pprops) "__withMeta__" = VBool titled.
Proof.
  unfold hoisted.
  repeat split; repeat case_match;
    repeat (rewrite get_insert_eq || rewrite get_insert_ne by done); done.
Qed.

Lemma hoisted_twice wfields titled (pprops : gmap string jsval) :
  hoisted wfields titled (hoisted wfields titled pprops) = hoisted wfields titled pprops.
Proof.
  unfold hoisted. apply map_eq. intros k.
  repeat case_match; rewrite !lookup_insert; repeat case_decide; done.
Qed.

(** As [metadata_hoist_at], with all the properties of the new [pre]. *)
Lemma metadata_hoist_at_properties position :
  forall fuel tree tree' wtag wprops wfields front pprops pfields pchildren,
    visit fuel (fun n => Some (hoist_visitor n)) tree = Some tree' ->
    node_at position tree
    = Some (Element wtag wprops wfields
              (front ++ [Element (js "pre") pprops pfields pchildren])) ->
    truthy wtag = true ->
    exists pchildren',
      node_at (position ++ [length front]) tree'
      = Some (Element (js "pre")
                (hoisted wfields
                   (first_is_div (front ++ [Element (js "pre") pprops pfields pchildren]))
                   pprops)
                pfields pchildren').
Proof.
  induction position as [|i position IH];
    intros fuel tree tree' wtag wprops wfields front pprops pfields pchildren Hv Hat Htag.
  - injection Hat as ->.
    apply visit_inv in Hv as (fuel' & n & cs & -> & Hn & Hcs & _ & Ht').
    apply (inj Some) in Hn as <-.
    rewrite hoist_visitor_wrapper in Hcs by done. cbn [children_of] in Hcs.
    set (new := Element (js "pre") _ pfields pchildren) in Hcs.
    assert (Hl : (front ++ [new]) !! length front = Some new)
      by (by rewrite lookup_app_r, Nat.sub_diag by lia).
    destruct (Forall2_lookup_l _ _ _ _ _ Hcs Hl) as (c' & Hc' & Hvc).
    apply visit_hoist_top in Hvc as [pcs' ->].
    exists pcs'. cbn [app node_at]. by rewrite Ht', Hc'.
  - apply node_at_cons in Hat as (c & Hc & Hat).
    apply visit_inv in Hv as (fuel' & n & cs & -> & Hn & Hcs & _ & Ht').
    apply (inj Some) in Hn as <-.
    destruct (Forall2_lookup_l _ _ _ _ _ (hoist_visitor_children tree) Hc)
      as (c1 & Hc1 & Hs).
    destruct (node_at_sans_properties _ _ _ _ _ _ _ Hs Hat) as (wprops1 & Hat1).
    destruct (Forall2_lookup_l _ _ _ _ _ Hcs Hc1) as (c2 & Hc2 & Hvc).
    destruct (IH _ _ _ _ _ _ _ _ _ _ Hvc Hat1 Htag) as (pcs' & Hfin).
    exists pcs'. cbn [app]. apply node_at_cons. exists c2. by rewrite Ht'.
Qed.

Lemma capture_on_code props fields cprops cfields cchildren others :
  capture_visitor
    (Element (js "pre") props fields (Element (js "code") cprops cfields cchildren :: others))
  = Some (Element (js "pre") props
            (<["__style__" := get props "__style__"]>
               (<["__src__" := get props "__src__"]>
                  (<["__rawString__" :=
                      first_child_value (Element (js "code") cprops cfields cchildren)]>
                     fields)))
            (Element (js "code") cprops cfields cchildren :: others)).
Proof.
  unfold capture_visitor. rewrite bool_decide_eq_true_2 by done.
  cbn [tagName_of]. by rewrite bool_decide_eq_true_2 by done.
Qed.

End HoistMore.

(** X20.  The directive metadata of a code block survive the highlighter
    like its text.  The capture pass copies the properties [__src__] and
    [__style__] of the [pre] into fields of the node; for every tree in
    which the wrapper made of that node ends in the new [pre], the hoist
    pass returns a tree whose new [pre] has the captured [__src__] (and
    likewise [__style__]) when that value is truthy and its own value
    otherwise, and whose other properties, but for [__withMeta__] and
    [__rawString__], are the ones it had. *)
Theorem directive_metadata_survive (tree : node) (position : list nat)
    (props fields cprops cfields : gmap string jsval) (cchildren others : list node) :
  every_node capture_ok tree = true ->
  node_at position tree
  = Some (Element (js "pre") props fields
            (Element (js "code") cprops cfields cchildren :: others)) ->
  exists captured fields' children',
    raw_capture_pass tree = Some captured
    /\ node_at position captured = Some (Element (js "pre") props fields' children')
    /\ get fields' "__src__" = get props "__src__"
    /\ get fields' "__style__" = get props "__style__"
    /\ forall (highlighted : node) (place : list nat) (wtag : jsstring)
              (wprops pprops pfields : gmap string jsval)
              (front pchildren : list node),
        node_at place highlighted
        = Some (Element wtag wprops fields'
                  (front ++ [Element (js "pre") pprops pfields pchildren])) ->
        truthy wtag = true ->
        exists hoisted pprops' pchildren',
          metadata_hoist_pass highlighted = Some hoisted
          /\ node_at (place ++ [length front]) hoisted
             = Some (Element (js "pre") pprops' pfields pchildren')
          /\ get pprops' "__src__"
             = (if val_truthy (get props "__src__") then get props "__src__"
                else get pprops "__src__")
          /\ get pprops' "__style__"
             = (if val_truthy (get props "__style__") then get props "__style__"
                else get pprops "__style__")
          /\ (forall k, k ∉ PassSpec.hoist_keys -> pprops' !! k = pprops !! k).
Proof.
  intros Hok Hat. destruct (raw_capture_is_Some tree Hok) as [captured Hpass].
  destruct (visit_at _ capture_keeps_children _ _ _ _ _ Hpass Hat)
    as (m & cs & Hm & Hat').
  rewrite capture_on_code in Hm. injection Hm as <-. cbn [with_children] in Hat'.
  eexists captured, _, cs. split; [exact Hpass|]. split; [exact Hat'|].
  assert (Hsrc : forall g v w,
             get (<["__style__" := w]> (<["__src__" := get props "__src__"]>
                                          (<["__rawString__" := v]> g))) "__src__"
             = get props "__src__")
    by (intros; by rewrite get_insert_ne, get_insert_eq by done).
  assert (Hstyle : forall (g : gmap string jsval),
             get (<["__style__" := get props "__style__"]> g) "__style__"
             = get props "__style__")
    by (intros; by rewrite get_insert_eq).
  split; [apply Hsrc|]. split; [apply Hstyle|].
  intros highlighted place wtag wprops pprops pfields front pchildren Hw Htag.
  destruct (metadata_hoist_is_Some highlighted) as [hoisted Hhoist].
  destruct (metadata_hoist_at_properties _ _ _ _ _ _ _ _ _ _ _ Hhoist Hw Htag)
    as (pchildren' & Hnew).
  eexists hoisted, _, pchildren'. split; [exact Hhoist|]. split; [exact Hnew|].
  destruct (hoisted_src
              (<["__style__" := get props "__style__"]>
                 (<["__src__" := get props "__src__"]>
                    (<["__rawString__" :=
                        first_child_value (Element (js "code") cprops cfields cchildren)]>
                       fields)))
              (PassSpec.first_is_div (front ++ [Element (js "pre") pprops pfields pchildren]))
              pprops) as (H1 & H2 & _).
  rewrite Hsrc in H1. rewrite Hstyle in H2.
  split; [exact H1|]. split; [exact H2|]. intros k Hk. by apply hoisted_frame.
Qed.

Lemma directive_metadata_survive_witness :
  exists captured fields' children',
    raw_capture_pass
      (Root [Element (js "pre") {[ "__src__" := VString (js "a.ts") ]} ∅
               [Element (js "code") ∅ ∅ [Text (js "let a")]]])
    = Some captured
    /\ node_at [0] captured
       = Some (Element (js "pre") {[ "__src__" := VString (js "a.ts") ]} fields' children')
    /\ exists hoisted pprops' pchildren',
         metadata_hoist_pass (wrapped_tree fields') = Some hoisted
         /\ node_at [1; 1] hoisted = Some (Element (js "pre") pprops' ∅ pchildren')
         /\ get pprops' "__src__" = VString (js "a.ts")
         /\ get pprops' "__style__" = VUndefined.
Proof.
  destruct (directive_metadata_survive
              (Root [Element (js "pre") {[ "__src__" := VString (js "a.ts") ]} ∅
                       [Element (js "code") ∅ ∅ [Text (js "let a")]]])
              [0] {[ "__src__" := VString (js "a.ts") ]} ∅ ∅ ∅ [Text (js "let a")] [])
    as (captured & fields' & children' & Hpass & Hat & _ & _ & Hw);
    [vm_compute; reflexivity|reflexivity|].
  exists captured, fields', children'. split; [exact Hpass|]. split; [exact Hat|].
  destruct (Hw (wrapped_tree fields') [1] (js "figure") ∅ ∅ ∅
              [Element (js "div") ∅ ∅ [Text (js "terminal")]]
              [Element (js "code") ∅ ∅ [Element (js "span") ∅ ∅ [Text (js "highlighted")]]])
    as (hoisted & pprops' & pchildren' & Hh & Hn & Hsrc & Hstyle & _);
    [reflexivity|reflexivity|].
  exists hoisted, pprops', pchildren'. split; [exact Hh|]. split; [exact Hn|].
  split; [exact Hsrc|exact Hstyle].
Defined.

Section HoistFrame.

Import PassSpec.

Implicit Types (n m c : node) (cs : list node) (position : list nat).

Lemma hoist_rel_refl c : hoist_rel c c.
Proof. by repeat split. Qed.

Lemma hoist_visitor_children_rel n :
  Forall2 hoist_rel (children_of n) (children_of (hoist_visitor n)).
Proof.
  assert (Hrefl : forall cs, Forall2 hoist_rel cs cs).
  { intros cs. apply Forall_Forall2_diag, Forall_forall. intros c _. apply hoist_rel_refl. }
  destruct n as [v|tag props fields cs|cs|ty v]; try apply Hrefl.
  destruct (truthy tag) eqn:Htag; [|cbn [hoist_visitor]; rewrite Htag; apply Hrefl].
  destruct (last cs) as [[|ptag pprops pfields pcs| |]|] eqn:Hlast;
    try (cbn [hoist_visitor]; rewrite Htag, Hlast; apply Hrefl).
  destruct (decide (ptag = js "pre")) as [->|Hne];
    [|cbn [hoist_visitor]; rewrite Htag, Hlast, bool_decide_eq_false_2 by done;
      apply Hrefl].
  apply last_Some in Hlast as [front ->].
  rewrite hoist_visitor_wrapper by done. cbn [children_of].
  apply Forall2_app; [apply Hrefl|]. constructor; [|constructor].
  split; [done|]. split; [done|]. intros k Hk. cbn [properties_of].
  by apply hoisted_frame.
Qed.

Lemma sans_properties_frame c c' :
  sans_properties c' = sans_properties c ->
  same_markup c c' /\ fields_of c' = fields_of c /\ children_of c' = children_of c.
Proof.
  unfold same_markup. destruct c, c'; cbn; intros H; try done; by simplify_eq.
Qed.

(** What the pass does at a place: the node keeps its markup and its
    fields, and its properties but for the four the pass writes; the node
    the pass was started on, and every node that is not a [pre], keeps
    its properties. *)
Lemma visit_hoist_frame position :
  forall fuel t t' n,
    visit fuel (fun n => Some (hoist_visitor n)) t = Some t' ->
    node_at position t = Some n ->
    exists n',
      node_at position t' = Some n'
      /\ same_markup n n' /\ fields_of n' = fields_of n
      /\ (position = [] \/ tagName_of n <> Some (js "pre") ->
          properties_of n' = properties_of n)
      /\ (forall k, k ∉ hoist_keys -> properties_of n' !! k = properties_of n !! k).
Proof.
  induction position as [|i position IH]; intros fuel t t' n Hv Hat.
  - apply (inj Some) in Hat as <-.
    apply visit_inv in Hv as (fuel' & m & cs & -> & Hm & Hcs & -> & _).
    apply (inj Some) in Hm as <-.
    exists (with_children (hoist_visitor t) cs). split; [done|].
    pose proof (Forall2_length _ _ _ (hoist_visitor_children t)) as Hl1.
    pose proof (Forall2_length _ _ _ Hcs) as Hl2.
    rewrite <- Hl1 in Hl2. clear Hl1 Hcs.
    assert (hoist_visitor t = with_children t (children_of (hoist_visitor t))) as ->
      by apply hoist_visitor_top.
    rewrite with_children_twice. unfold same_markup.
    rewrite children_of_with_children_length by done.
    destruct t; cbn [with_children tagName_of value_of fields_of properties_of];
      by repeat split.
  - apply node_at_cons in Hat as (c & Hc & Hat).
    apply visit_inv in Hv as (fuel' & m & cs & -> & Hm & Hcs & _ & Ht').
    apply (inj Some) in Hm as <-.
    destruct (Forall2_lookup_l _ _ _ _ _ (hoist_visitor_children_rel t) Hc)
      as (c1 & Hc1 & Hs & Hid & Hk).
    destruct (Forall2_lookup_l _ _ _ _ _ Hcs Hc1) as (c2 & Hc2 & Hvc).
    assert (exists n1, node_at position c1 = Some n1
              /\ same_markup n n1 /\ fields_of n1 = fields_of n
              /\ (tagName_of n <> Some (js "pre") -> properties_of n1 = properties_of n)
              /\ (forall k, k ∉ hoist_keys -> properties_of n1 !! k = properties_of n !! k)
              /\ (position <> [] -> n1 = n))
      as (n1 & Hat1 & Hm1 & Hf1 & Hp1 & Hk1 & Hne1).
    { destruct position as [|j position].
      - injection Hat as ->. exists c1. split; [done|].
        destruct (sans_properties_frame _ _ Hs) as (? & ? & _).
        split_and!; try done. intros Hpre. by rewrite (Hid Hpre).
      - exists n. apply sans_properties_frame in Hs as (_ & _ & Hcs1).
        cbn [node_at] in *. rewrite Hcs1. by split_and!. }
    destruct (IH _ _ _ _ Hvc Hat1) as (n' & Hat' & Hm' & Hf' & Hp' & Hk').
    exists n'. split; [apply node_at_cons; exists c2; by rewrite Ht'|].
    destruct Hm' as (Ha & Hb & Hc'), Hm1 as (Ha1 & Hb1 & Hc1').
    split; [by repeat split; congruence|]. split; [congruence|]. split.
    + intros [[=]|Hpre]. destruct position as [|j position].
      * rewrite Hp' by by left. by apply Hp1.
      * rewrite (Hne1 ltac:(done)) in *. apply Hp'. by right.
    + intros k Hkk. rewrite Hk' by done. by apply Hk1.
Qed.

End HoistFrame.

(** X21.  The hoist pass writes properties of [pre] elements and nothing
    else: it returns a tree for every tree, and this tree has, at every
    place of the tree it was given, a node with the same tag, the same
    text, the same number of children and the same fields; the properties
    of a node that is not a [pre] element are the same too, and the
    properties of a [pre] are the same but for [__withMeta__],
    [__rawString__], [__src__] and [__style__]. *)
Theorem metadata_hoist_pass_writes_pre_properties_only (tree : node)
    (position : list nat) (n : node) :
  node_at position tree = Some n ->
  exists tree' n',
    metadata_hoist_pass tree = Some tree'
    /\ node_at position tree' = Some n'
    /\ PassSpec.same_markup n n'
    /\ PassSpec.fields_of n' = PassSpec.fields_of n
    /\ (tagName_of n <> Some (js "pre") -> properties_of n' = properties_of n)
    /\ (forall k, k ∉ PassSpec.hoist_keys ->
          properties_of n' !! k = properties_of n !! k).
Proof.
  intros Hat. destruct (metadata_hoist_is_Some tree) as [tree' Hpass].
  destruct (visit_hoist_frame _ _ _ _ _ Hpass Hat) as (n' & Hat' & Hm & Hf & Hp & Hk).
  exists tree', n'. split; [done|]. split; [done|]. split; [done|]. split; [done|].
  split; [|done]. intros Hpre. apply Hp. by right.
Qed.

Lemma metadata_hoist_pass_writes_pre_properties_only_witness :
  exists tree' n',
    metadata_hoist_pass (highlighted_tree (js "npm i pkg")) = Some tree'
    /\ node_at [0] tree' = Some n'
    /\ properties_of n' = {[ "id" := VString (js "install") ]}.
Proof.
  destruct (metadata_hoist_pass_writes_pre_properties_only
              (highlighted_tree (js "npm i pkg")) [0]
              (Element (js "h1") {[ "id" := VString (js "install") ]} ∅
                 [Text (js "Install")]))
    as (tree' & n' & Hpass & Hat & _ & _ & Hp & _); [reflexivity|].
  exists tree', n'. split; [exact Hpass|]. split; [exact Hat|].
  apply Hp. discriminate.
Defined.

Section HoistTwice.

Import PassSpec.

Implicit Types (n m c : node) (cs : list node).

Local Notation "'hv'" := (fun n => Some (hoist_visitor n)).

Lemma visit_hoist_keeps_top fuel t t' :
  visit fuel hv t = Some t' -> with_children t' [] = with_children t [].
Proof.
  intros (fuel' & n & cs & _ & Hn & _ & -> & _)%visit_inv.
  apply (inj Some) in Hn as <-.
  rewrite (hoist_visitor_top t). by rewrite !with_children_twice.
Qed.

Lemma visit_hoist_keeps_tag fuel t t' :
  visit fuel hv t = Some t' -> tagName_of t' = tagName_of t.
Proof.
  intros H%visit_hoist_keeps_top. destruct t, t'; cbn in H; by simplify_eq.
Qed.

Lemma hoist_visitor_last_not_pre tag props fields front l :
  tagName_of l <> Some (js "pre") ->
  hoist_visitor (Element tag props fields (front ++ [l]))
  = Element tag props fields (front ++ [l]).
Proof.
  intros Hl. unfold hoist_visitor. destruct (truthy tag); [|done].
  rewrite last_snoc. destruct l as [|ptag pprops pfields pcs| |]; try done.
  rewrite bool_decide_eq_false_2; [done|]. intros ->. by apply Hl.
Qed.

(** The pass returns a tree that the visitor leaves alone at the top. *)
Lemma visit_hoist_fixed fuel t t' :
  visit fuel hv t = Some t' -> hoist_visitor t' = t'.
Proof.
  intros (fuel' & n & cs' & _ & Hn & Hcs & -> & _)%visit_inv.
  apply (inj Some) in Hn as <-.
  destruct t as [v|tag props fields cs|cs|ty v]; try done.
  destruct (truthy tag) eqn:Htag;
    [|cbn [hoist_visitor] in *; rewrite Htag in *; cbn [with_children hoist_visitor];
      by rewrite Htag].
  destruct cs as [|l front _] using rev_ind.
  { cbn [hoist_visitor] in *. rewrite Htag in *. cbn [last children_of] in Hcs.
    apply Forall2_nil_inv_l in Hcs as ->. cbn [with_children hoist_visitor last].
    by rewrite Htag. }
  destruct (decide (tagName_of l = Some (js "pre"))) as [Hpre|Hpre].
  - destruct l as [|ptag pprops pfields pcs| |]; try done.
    apply (inj Some) in Hpre as ->.
    rewrite hoist_visitor_wrapper in * by done. cbn [children_of with_children] in *.
    apply Forall2_app_inv_l in Hcs as (front' & last' & Hfront & Hlast & ->).
    apply Forall2_cons_inv_l in Hlast as (c' & nil' & Hc' & ->%Forall2_nil_inv_l & ->).
    pose proof Hc' as (pcs' & ->)%visit_hoist_top.
    rewrite hoist_visitor_wrapper by done. do 3 f_equal.
    assert (first_is_div (front' ++ [Element (js "pre")
                (hoisted fields
                   (first_is_div (front ++ [Element (js "pre") pprops pfields pcs]))
                   pprops) pfields pcs'])
            = first_is_div (front ++ [Element (js "pre") pprops pfields pcs])) as ->.
    { unfold first_is_div. inversion Hfront as [|c d ? ? Hcd]; subst; [done|].
      cbn [app head mbind option_bind]. by rewrite (visit_hoist_keeps_tag _ _ _ Hcd). }
    by rewrite hoisted_twice.
  - rewrite hoist_visitor_last_not_pre in * by done. cbn [children_of with_children] in *.
    apply Forall2_app_inv_l in Hcs as (front' & last' & Hfront & Hlast & ->).
    apply Forall2_cons_inv_l in Hlast as (c' & nil' & Hc' & ->%Forall2_nil_inv_l & ->).
    apply hoist_visitor_last_not_pre.
    by rewrite (visit_hoist_keeps_tag _ _ _ Hc').
Qed.

Lemma visit_hoist_twice fuel :
  forall t t',
    visit fuel hv t = Some t' ->
    forall fuel', depth t' < fuel' -> visit fuel' hv t' = Some t'.
Proof.
  induction fuel as [|fuel IH]; intros t t' Hv fuel' Hd; [done|].
  pose proof (visit_hoist_fixed _ _ _ Hv) as Hfix.
  apply visit_inv in Hv as (k & n & cs & [= <-] & Hn & Hcs & Ht & Ht').
  destruct fuel' as [|fuel']; [lia|]. cbn [visit].
  change (hv t') with (Some (hoist_visitor t')). cbn [mbind option_bind]. rewrite Hfix.
  assert (mapM (visit fuel' hv) (children_of t') = Some cs) as ->.
  { rewrite Ht'. apply mapM_Some_2. apply Forall2_same_length_lookup_2; [done|].
    intros i c c' Hc Hc'. assert (c' = c) as -> by congruence.
    destruct (Forall2_lookup_r _ _ _ _ _ Hcs Hc) as (c0 & _ & Hv0).
    apply (IH _ _ Hv0).
    assert (c ∈ children_of t') as Hin
      by (rewrite Ht'; apply list_elem_of_lookup; eauto).
    apply depth_child in Hin. lia. }
  cbn [mbind option_bind]. by rewrite <- Ht', with_children_id.
Qed.

End HoistTwice.

(** X22.  The hoist pass is idempotent: run on the tree it returned, it
    returns this tree again.  What it wrote to a [pre] it took from the
    fields of the wrapper and from the tag of the wrapper's first child,
    and it leaves both alone. *)
Theorem metadata_hoist_pass_idempotent (tree : node) :
  exists tree',
    metadata_hoist_pass tree = Some tree'
    /\ metadata_hoist_pass tree' = Some tree'.
Proof.
  destruct (metadata_hoist_is_Some tree) as [tree' Hpass].
  exists tree'. split; [done|].
  apply (visit_hoist_twice _ _ _ Hpass). lia.
Qed.
